(** * Verification of the CONQ lock-free queues

    The development embeds two components of the repository:

    - [CONQ::MPMCQueue] (MPMCQueue.hpp), the unbounded linked queue with its
      embedded freelist.  Every member function is an interaction tree over
      the atomic accesses it performs, so the same definition gives the
      operation run alone (sequential semantics, [run]) and its single
      atomic steps ([step]), which threads may interleave ([interleave]).
      The destructor is an interaction tree over these accesses and
      [delete] ([run_dying]).
    - [bk_conq::multilist_vector_queue] (multilist_vector_queue.hpp), the
      vector of list queues with thread-affine producer routing and the
      per-thread hitlist.

    Memory orders are carried by the events exactly as the source writes
    them; the handler gives every access its sequentially consistent
    meaning. *)

From ITree Require Import ITree.
From ITree Require Eq.Shallow.
From stdpp Require Import base option list gmap.
From Stdlib Require Import ZArith Lia.

Notation "x <- t ;; k" := (ITree.bind t (fun x => k))
  (at level 20, t at level 99, k at level 200, right associativity, only parsing).
Notation "t ;; k" := (ITree.bind t (fun _ => k))
  (at level 100, k at level 200, right associativity, only parsing).

(** What running a piece of code can do: return, hit undefined behaviour
    (a null or dangling pointer is dereferenced, an index is out of range),
    or still be running when the step budget is used up. *)
Inductive outcome (A : Type) : Type :=
| Returns (a : A)
| Undefined
| OutOfFuel.
Arguments Returns {A} a.
Arguments Undefined {A}.
Arguments OutOfFuel {A}.

(** [std::memory_order], as the source names them. *)
Variant memory_order : Set := relaxed | acquire | release | acq_rel | seq_cst.

(** A [listNode*]: [None] is [nullptr], [Some a] the node at address [a] of
    the arena.  Nodes are never deleted while the queue is live, so the
    heap is a list that [new] extends at its end. *)
Definition ptr : Set := option nat.
Definition nullptr : ptr := None.

(** The four atomic pointer members of the class, in declaration order. *)
Variant slot : Set := Head | FreeListTail | Tail | FreeListHead.

Module MPMCQueue.
Section WithPayload.

Context {T : Type}.
(** The value a default-initialised payload holds ([new listNode] and the
    caller's [T output;]). *)
Context (dflt : T).

(** [struct listNode { T data; std::atomic<listNode*> next{nullptr}; }] *)
Record listNode : Type := mkNode { data : T; next : ptr }.

(** The object: the arena of nodes it has allocated and its four atomic
    pointers. *)
Record queue : Type := mkQueue {
  nodes : list listNode;
  _head : ptr;
  _freeListTail : ptr;
  _tail : ptr;
  _freeListHead : ptr
}.

Definition get (a : slot) (s : queue) : ptr :=
  match a with
  | Head => _head s
  | FreeListTail => _freeListTail s
  | Tail => _tail s
  | FreeListHead => _freeListHead s
  end.

Definition set (a : slot) (p : ptr) (s : queue) : queue :=
  match a with
  | Head => mkQueue (nodes s) p (_freeListTail s) (_tail s) (_freeListHead s)
  | FreeListTail => mkQueue (nodes s) (_head s) p (_tail s) (_freeListHead s)
  | Tail => mkQueue (nodes s) (_head s) (_freeListTail s) p (_freeListHead s)
  | FreeListHead => mkQueue (nodes s) (_head s) (_freeListTail s) (_tail s) p
  end.

Definition set_nodes (ns : list listNode) (s : queue) : queue :=
  mkQueue ns (_head s) (_freeListTail s) (_tail s) (_freeListHead s).

(** [*p]: undefined for [nullptr] and for an address outside the arena. *)
Definition deref (s : queue) (p : ptr) : option (nat * listNode) :=
  a ← p; nd ← nodes s !! a; Some (a, nd).

(** The atomic accesses the member functions perform. *)
Variant atomicE : Type -> Type :=
| Load (a : slot) (mo : memory_order) : atomicE ptr
| Store (a : slot) (p : ptr) (mo : memory_order) : atomicE unit
| Exchange (a : slot) (p : ptr) (mo : memory_order) : atomicE ptr
| CompareExchangeStrong (a : slot) (expected desired : ptr) : atomicE (bool * ptr)
| NextLoad (n : ptr) (mo : memory_order) : atomicE ptr
| NextStore (n : ptr) (p : ptr) (mo : memory_order) : atomicE unit
| DataMove (n : ptr) : atomicE T
| DataAssign (n : ptr) (v : T) : atomicE unit
| New (init : option T) : atomicE ptr
| Yield : atomicE unit.

(** Meaning of one access on the object.  [compare_exchange_strong] returns
    its result together with the value it leaves in [expected]. *)
Definition handle {X} (e : atomicE X) (s : queue) : option (X * queue) :=
  match e in atomicE X return option (X * queue) with
  | Load a _ => Some (get a s, s)
  | Store a p _ => Some (tt, set a p s)
  | Exchange a p _ => Some (get a s, set a p s)
  | CompareExchangeStrong a expected desired =>
      if decide (get a s = expected)
      then Some ((true, expected), set a desired s)
      else Some ((false, get a s), s)
  | NextLoad n _ => '(_, nd) ← deref s n; Some (next nd, s)
  | NextStore n p _ =>
      '(a, nd) ← deref s n;
      Some (tt, set_nodes (<[a := mkNode (data nd) p]> (nodes s)) s)
  | DataMove n => '(_, nd) ← deref s n; Some (data nd, s)
  | DataAssign n v =>
      '(a, nd) ← deref s n;
      Some (tt, set_nodes (<[a := mkNode v (next nd)]> (nodes s)) s)
  | New init =>
      Some (Some (length (nodes s)),
            set_nodes (nodes s ++ [mkNode (default dflt init) nullptr]) s)
  | Yield => Some (tt, s)
  end.

(** An access together with the answer it got. *)
Inductive event : Type :=
| Ev : forall X : Type, atomicE X -> X -> event.
Arguments Ev {X} e x.

Definition prog := itree atomicE.
Definition atomic {X} (e : atomicE X) : prog X := ITree.trigger e.

(** ** The member functions *)

(** [freeListEnqueue(listNode *item)] *)
Definition freeListEnqueue (item : ptr) : prog unit :=
  atomic (NextStore item nullptr relaxed) ;;
  free_list_prev_head <- atomic (Exchange FreeListHead item acq_rel) ;;
  atomic (NextStore free_list_prev_head item release).

(** [freeListTryDequeue()]: the loop state is [node], which a failed
    [compare_exchange_strong] overwrites with the current [_freeListTail]. *)
Definition freeListTryDequeue : prog ptr :=
  node <- atomic (Load FreeListTail relaxed) ;;
  ITree.iter (fun node : ptr =>
    next <- atomic (NextLoad node acquire) ;;
    match next with
    | None => Ret (inr nullptr)
    | Some _ =>
        r <- atomic (CompareExchangeStrong FreeListTail node next) ;;
        if r.1 then Ret (inr node) else Ret (inl r.2)
    end) node.

(** [acquireOrAllocate(const T& input)] *)
Definition acquireOrAllocate (input : T) : prog ptr :=
  node <- freeListTryDequeue ;;
  match node with
  | None => atomic (New (Some input))
  | Some _ =>
      atomic (DataAssign node input) ;;
      atomic (NextStore node nullptr relaxed) ;;
      Ret node
  end.

(** [spEnqueue(const T& input)] *)
Definition spEnqueue (input : T) : prog unit :=
  node <- acquireOrAllocate input ;;
  h <- atomic (Load Head relaxed) ;;
  atomic (NextStore h node release) ;;
  atomic (Store Head node relaxed).

(** [mpEnqueue(const T& input)] *)
Definition mpEnqueue (input : T) : prog unit :=
  node <- acquireOrAllocate input ;;
  prev_head <- atomic (Exchange Head node acq_rel) ;;
  atomic (NextStore prev_head node release).

(** The dequeues take the caller's variable [output] by reference: they get
    the value it holds and return, next to the [bool], the value it holds
    afterwards.

    [scDequeue(T& output)] *)
Definition scDequeue (output : T) : prog (bool * T) :=
  tail <- atomic (Load Tail relaxed) ;;
  next <- atomic (NextLoad tail acquire) ;;
  match next with
  | None => Ret (false, output)
  | Some _ =>
      output <- atomic (DataMove next) ;;
      atomic (Store Tail next release) ;;
      freeListEnqueue tail ;;
      Ret (true, output)
  end.

(** [mcDequeue(T& output)]: spins, yielding, until the exchange hands it a
    non-null tail. *)
Definition mcDequeue (output : T) : prog (bool * T) :=
  tail <- ITree.iter (fun _ : unit =>
            tail <- atomic (Exchange Tail nullptr acq_rel) ;;
            match tail with
            | None => atomic Yield ;; Ret (inl tt)
            | Some _ => Ret (inr tail)
            end) tt ;;
  next <- atomic (NextLoad tail acquire) ;;
  match next with
  | None =>
      atomic (Exchange Tail tail acq_rel) ;;
      Ret (false, output)
  | Some _ =>
      output <- atomic (DataMove next) ;;
      atomic (Store Tail next release) ;;
      freeListEnqueue tail ;;
      Ret (true, output)
  end.

(** [mcDequeueLight(T& output)] *)
Definition mcDequeueLight (output : T) : prog (bool * T) :=
  tail <- atomic (Exchange Tail nullptr acq_rel) ;;
  match tail with
  | None => Ret (false, output)
  | Some _ =>
      next <- atomic (NextLoad tail acquire) ;;
      match next with
      | None =>
          atomic (Exchange Tail tail acq_rel) ;;
          Ret (false, output)
      | Some _ =>
          output <- atomic (DataMove next) ;;
          atomic (Store Tail next release) ;;
          freeListEnqueue tail ;;
          Ret (true, output)
      end
  end.

(** The constructor: the member initialisers in declaration order
    ([_head], [_tail], [_freeListHead]; [_freeListTail] has none), then the
    body. *)
Definition unconstructed : queue := mkQueue [] nullptr nullptr nullptr nullptr.

Definition constructor : prog unit :=
  h <- atomic (New None) ;;
  atomic (Store Head h relaxed) ;;
  h <- atomic (Load Head relaxed) ;;
  atomic (Store Tail h relaxed) ;;
  fh <- atomic (New None) ;;
  atomic (Store FreeListHead fh relaxed) ;;
  fh <- atomic (Load FreeListHead relaxed) ;;
  atomic (Store FreeListTail fh relaxed).

(** ** Semantics *)

(** One atomic step of a thread: silent moves are skipped, the first access
    is performed.  [inl r]: the code has returned [r] without a further
    access; [inr t']: one access was made and [t'] remains to be run. *)
Fixpoint step {R} (fuel : nat) (t : prog R) (s : queue)
  : outcome ((R + prog R) * queue) :=
  match fuel with
  | 0 => OutOfFuel
  | S fuel =>
      match observe t with
      | RetF r => Returns (inl r, s)
      | TauF t' => step fuel t' s
      | VisF e k =>
          match handle e s with
          | None => Undefined
          | Some (x, s') => Returns (inr (k x), s')
          end
      end
  end.

Definition traced {R} (ev : event) (o : outcome (R * queue * list event))
  : outcome (R * queue * list event) :=
  match o with
  | Returns (r, s, tr) => Returns (r, s, ev :: tr)
  | Undefined => Undefined
  | OutOfFuel => OutOfFuel
  end.

(** The code run alone to its end, with the accesses it performed.  Every
    access, silent move and the final return costs one unit of fuel. *)
Fixpoint run {R} (fuel : nat) (t : prog R) (s : queue)
  : outcome (R * queue * list event) :=
  match fuel with
  | 0 => OutOfFuel
  | S fuel =>
      match observe t with
      | RetF r => Returns (r, s, [])
      | TauF t' => run fuel t' s
      | VisF e k =>
          match handle e s with
          | None => Undefined
          | Some (x, s') => traced (Ev e x) (run fuel (k x) s')
          end
      end
  end.

(** A call of a member function by a thread that runs alone.  Sixteen steps
    are as good as any larger budget ([call_adequate] below): a call that
    has not returned by then is [mcDequeue] spinning on a null [_tail]. *)
Definition max_steps : nat := 16.

Definition call {R} (p : prog R) (s : queue) : outcome (R * queue * list event) :=
  run max_steps p s.

(** The queue a constructor call leaves. *)
Definition fresh : queue :=
  match call constructor unconstructed with
  | Returns (_, s, _) => s
  | _ => unconstructed
  end.

(** ** Sequential clients *)

(** The public member functions. *)
Variant operation : Type :=
| op_spEnqueue (input : T)
| op_mpEnqueue (input : T)
| op_scDequeue
| op_mcDequeue
| op_mcDequeueLight.

(** What a call gave back: nothing for the [void] enqueues, the [bool] and
    the caller's [output] for the dequeues. *)
Variant result : Type :=
| done
| dequeued (ok : bool) (output : T).

Definition code (o : operation) (output : T) : prog result :=
  match o with
  | op_spEnqueue input => spEnqueue input ;; Ret done
  | op_mpEnqueue input => mpEnqueue input ;; Ret done
  | op_scDequeue => r <- scDequeue output ;; Ret (dequeued r.1 r.2)
  | op_mcDequeue => r <- mcDequeue output ;; Ret (dequeued r.1 r.2)
  | op_mcDequeueLight => r <- mcDequeueLight output ;; Ret (dequeued r.1 r.2)
  end.

Definition output_after (r : result) (output : T) : T :=
  match r with
  | done => output
  | dequeued _ output' => output'
  end.

(** The access is a [new]. *)
Definition is_new (ev : event) : bool :=
  match ev with
  | Ev (New _) _ => true
  | Ev _ _ => false
  end.

(** A successful [compare_exchange_strong] on [_freeListTail]: a node was
    taken from the freelist. *)
Definition is_freelist_pop (ev : event) : bool :=
  match ev with
  | Ev (CompareExchangeStrong FreeListTail _ _) r => r.1
  | Ev _ _ => false
  end.

(** A retired node is pushed: the exchange on [_freeListHead] of
    [freeListEnqueue]. *)
Definition is_freelist_push (ev : event) : bool :=
  match ev with
  | Ev (Exchange FreeListHead _ _) _ => true
  | Ev _ _ => false
  end.

(** One entry of a history: the call, its result and its accesses. *)
Definition entry : Type := operation * result * list event.

(** A client thread performing the calls [ops] one after the other, all
    dequeues writing to its variable [output]. *)
Fixpoint exec (ops : list operation) (output : T) (s : queue)
  : outcome (list entry * queue) :=
  match ops with
  | [] => Returns ([], s)
  | o :: ops =>
      match call (code o output) s with
      | Returns (r, s', tr) =>
          match exec ops (output_after r output) s' with
          | Returns (h, s'') => Returns ((o, r, tr) :: h, s'')
          | Undefined => Undefined
          | OutOfFuel => OutOfFuel
          end
      | Undefined => Undefined
      | OutOfFuel => OutOfFuel
      end
  end.

(** ** Concurrent clients *)

(** A client thread as code: the calls [ops] one after the other, giving
    their results.  Its atomic steps can be interleaved with those of
    other threads. *)
Fixpoint client (ops : list operation) (output : T) : prog (list result) :=
  match ops with
  | [] => Ret []
  | o :: ops =>
      r <- code o output ;;
      rs <- client ops (output_after r output) ;;
      Ret (r :: rs)
  end.

(** Threads sharing the object, each with the code it has still to run.
    The threads named by [schedule] make one atomic step each, in this
    order; a thread that has returned, or a name that is no thread, makes
    none. *)
Fixpoint interleave {R} (schedule : list nat) (threads : list (prog R)) (s : queue)
  : outcome (list (prog R) * queue) :=
  match schedule with
  | [] => Returns (threads, s)
  | i :: schedule =>
      match threads !! i with
      | None => interleave schedule threads s
      | Some t =>
          match step max_steps t s with
          | Returns (inl r, s') => interleave schedule (<[i := Ret r]> threads) s'
          | Returns (inr t', s') => interleave schedule (<[i := t']> threads) s'
          | Undefined => Undefined
          | OutOfFuel => OutOfFuel
          end
      end
  end.

(** The value a thread has returned: what is left of its code makes no
    further access. *)
Fixpoint returned {R} (fuel : nat) (t : prog R) : option R :=
  match fuel with
  | 0 => None
  | S fuel =>
      match observe t with
      | RetF r => Some r
      | TauF t' => returned fuel t'
      | VisF _ _ => None
      end
  end.

(** The values passed to enqueues and the values successful dequeues
    returned, in call order. *)
Definition enqueued (h : list entry) : list T :=
  omap (fun e : entry =>
          match e.1.1 with
          | op_spEnqueue v | op_mpEnqueue v => Some v
          | _ => None
          end) h.

Definition dequeued_values (h : list entry) : list T :=
  omap (fun e : entry =>
          match e.1.2 with
          | dequeued true v => Some v
          | _ => None
          end) h.

Definition results (h : list entry) : list result := map (fun e : entry => e.1.2) h.

Definition calls (h : list entry) : list operation := map (fun e : entry => e.1.1) h.

(** The value the client's [output] holds after the history [h]. *)
Definition final_output (h : list entry) (output : T) : T :=
  foldl (fun out (e : entry) => output_after e.1.2 out) output h.

Definition enqueues (o : operation) : bool :=
  match o with
  | op_spEnqueue _ | op_mpEnqueue _ => true
  | _ => false
  end.

Definition dequeues (o : operation) : bool := negb (enqueues o).

(** The call allocated no node and took one from the freelist. *)
Definition reused_node (e : entry) : bool :=
  forallb (fun ev => negb (is_new ev)) e.2 && existsb is_freelist_pop e.2.

(** The call pushed a node onto the freelist. *)
Definition retired_node (e : entry) : bool := existsb is_freelist_push e.2.

(** The number of elements the queue holds after a call that found it
    holding [n]: an enqueue returned ([done]), or a dequeue returned [true]
    or [false]. *)
Definition held_after (n : nat) (e : entry) : nat :=
  match e.1.2 with
  | done => S n
  | dequeued true _ => pred n
  | dequeued false _ => n
  end.

(** The largest number of elements held at once along a history that
    starts with [n] elements held. *)
Fixpoint high_water (n : nat) (h : list entry) : nat :=
  match h with
  | [] => n
  | e :: h => Nat.max n (high_water (held_after n e) h)
  end.

(** ** Observations on a state *)

(** The addresses met from [p] along [next], at most [fuel] of them. *)
Fixpoint walk (fuel : nat) (ns : list listNode) (p : ptr) : list nat :=
  match fuel, p with
  | S fuel, Some a =>
      a :: match ns !! a with
           | Some nd => walk fuel ns (next nd)
           | None => []
           end
  | _, _ => []
  end.

(** The main list, from the sentinel [_tail] on, and the freelist, from its
    sentinel [_freeListTail] on. *)
Definition main_list (s : queue) : list nat :=
  walk (length (nodes s)) (nodes s) (_tail s).

Definition free_list (s : queue) : list nat :=
  walk (length (nodes s)) (nodes s) (_freeListTail s).

(** The payloads waiting in the queue: those of the nodes after the
    sentinel. *)
Definition contents (s : queue) : list T :=
  omap (fun a => data <$> nodes s !! a) (tail (main_list s)).

(** Heap allocations so far: each [new] added one node to the arena. *)
Definition allocations (s : queue) : nat := length (nodes s).

(** ** Invariant and reachable states *)

(** The nodes [l] are linked in this order through [next], the last one
    having a null [next]. *)
Definition chain (ns : list listNode) (l : list nat) : Prop :=
  forall i a, l !! i = Some a -> next <$> ns !! a = Some (l !! S i).

(** [vs] are the payloads of the nodes of [l] after its first. *)
Definition payloads (ns : list listNode) (l : list nat) (vs : list T) : Prop :=
  Forall2 (fun a v => data <$> ns !! a = Some v) (tail l) vs.

(** The main list is [M], from the sentinel [_tail] to [_head]; the
    freelist is [F], from its sentinel [_freeListTail] to [_freeListHead];
    no node is on both or twice on one; the queue holds [vs]. *)
Record Rep (s : queue) (M F : list nat) (vs : list T) : Prop := mkRep {
  rep_tail : _tail s = head M;
  rep_head : _head s = last M;
  rep_free_tail : _freeListTail s = head F;
  rep_free_head : _freeListHead s = last F;
  rep_main : chain (nodes s) M;
  rep_free : chain (nodes s) F;
  rep_nodup : NoDup (M ++ F);
  rep_main_ne : M <> [];
  rep_free_ne : F <> [];
  rep_payloads : payloads (nodes s) M vs
}.

(** The two kinds of public member function. *)
Definition is_enqueue (o : operation) (v : T) : Prop :=
  o = op_spEnqueue v \/ o = op_mpEnqueue v.

Definition is_dequeue (o : operation) : Prop :=
  o = op_scDequeue \/ o = op_mcDequeue \/ o = op_mcDequeueLight.

(** The states of a live queue: the state machine starts at the constructed
    queue and each call of a public member function that returns is one of
    its steps. *)
Inductive reachable : queue -> Prop :=
| reachable_fresh : reachable fresh
| reachable_call s o output r s' tr :
    reachable s ->
    call (code o output) s = Returns (r, s', tr) ->
    reachable s'.

End WithPayload.

Arguments operation : clear implicits.
Arguments result : clear implicits.
Arguments queue : clear implicits.
Arguments listNode : clear implicits.
Arguments event : clear implicits.
Arguments entry : clear implicits.
Arguments Ev {T X} e x.
Arguments run : simpl never.

(** ** Destruction *)

Section Destruction.

Context {T : Type}.
Context (dflt : T).

(** [delete p] *)
Variant deleteE : Type -> Type :=
| Delete (p : ptr) : deleteE unit.

(** The object while its destructor runs: the state of the queue and the
    nodes deleted so far, latest first. *)
Record dying : Type := mkDying {
  remains : queue T;
  deleted : list nat
}.

(** The node an access goes through. *)
Definition dereferenced {X} (e : atomicE (T:=T) X) : ptr :=
  match e with
  | NextLoad n _ | NextStore n _ _ | DataMove n | DataAssign n _ => n
  | _ => nullptr
  end.

(** The pointer is to one of the deleted nodes [gone]. *)
Definition dangling (gone : list nat) (p : ptr) : bool :=
  match p with
  | Some a => bool_decide (a ∈ gone)
  | None => false
  end.

(** The node an access of a trace went through. *)
Definition went_through (ev : event T) : ptr :=
  match ev with
  | Ev e _ => dereferenced e
  end.

(** Meaning of one step of the destructor.  An access through a deleted
    node is undefined, the others are as in [handle].  [delete] of a null
    pointer does nothing; of a node deleted before, or of an address that
    [new] did not give, it is undefined. *)
Definition handle_dying {X} (e : (atomicE +' deleteE) X) (d : dying) : option (X * dying) :=
  match e with
  | inl1 e =>
      if dangling (deleted d) (dereferenced e) then None
      else ('(x, s) ← handle dflt e (remains d); Some (x, mkDying s (deleted d)))
  | inr1 e =>
      match e in deleteE X return option (X * dying) with
      | Delete None => Some (tt, d)
      | Delete (Some a) =>
          if decide ((a ∉ deleted d) /\ a < length (nodes (remains d)))
          then Some (tt, mkDying (remains d) (a :: deleted d))
          else None
      end
  end.

(** A member function called from the destructor. *)
Definition within {R} (p : prog R) : itree (atomicE (T:=T) +' deleteE) R :=
  translate (fun X (e : atomicE X) => inl1 e) p.

(** [while(this->scDequeue(output));] *)
Definition drain (output : T) : itree (atomicE (T:=T) +' deleteE) unit :=
  ITree.iter (fun output : T =>
    r <- within (scDequeue output) ;;
    if r.1 then Ret (inl r.2) else Ret (inr tt)) output.

(** [for (listNode *front = freeListTryDequeue(); front != nullptr;
          front = freeListTryDequeue()) delete front;] *)
Definition delete_freelist : itree (atomicE (T:=T) +' deleteE) unit :=
  ITree.iter (fun _ : unit =>
    front <- within freeListTryDequeue ;;
    match front with
    | None => Ret (inr tt)
    | Some _ => ITree.trigger (inr1 (Delete front)) ;; Ret (inl tt)
    end) tt.

(** [~MPMCQueue()], with [T output;] default-initialised. *)
Definition destructor : itree (atomicE (T:=T) +' deleteE) unit :=
  drain dflt ;;
  front <- ITree.trigger (inl1 (Load Head relaxed)) ;;
  ITree.trigger (inr1 (Delete front)) ;;
  delete_freelist ;;
  front <- ITree.trigger (inl1 (Load FreeListHead relaxed)) ;;
  ITree.trigger (inr1 (Delete front)).

(** The destructor run alone to its end. *)
Fixpoint run_dying {R} (fuel : nat) (t : itree (atomicE (T:=T) +' deleteE) R) (d : dying)
  : outcome (R * dying) :=
  match fuel with
  | 0 => OutOfFuel
  | S fuel =>
      match observe t with
      | RetF r => Returns (r, d)
      | TauF t' => run_dying fuel t' d
      | VisF e k =>
          match handle_dying e d with
          | None => Undefined
          | Some (x, d') => run_dying fuel (k x) d'
          end
      end
  end.

End Destruction.

Arguments dying : clear implicits.
Arguments run_dying : simpl never.

End MPMCQueue.

(** * The subqueue interface of the sharded queue *)

Module list_queue.

(** Modelled from the spec: bk_conq/list_queue.hpp (and the interface
    unbounded_queue.hpp it implements) is not among the sources.
    [multilist_vector_queue] only calls four of its members, so the subqueue
    type [Q] is a parameter given through them; each takes the object and
    gives the outcome of the call run alone.  The spec (sections 2 and 4.1)
    identifies the subqueues with the unbounded linked queue:
    [of_MPMCQueue] supplies the members from [CONQ::MPMCQueue]. *)
Class members (T Q : Type) : Type := {
  mp_enqueue : T -> Q -> outcome Q;
  sc_dequeue : T -> Q -> outcome (bool * T * Q);
  mc_dequeue : T -> Q -> outcome (bool * T * Q);
  mc_dequeue_light : T -> Q -> outcome (bool * T * Q)
}.

Definition untraced {R S E} (o : outcome (R * S * E)) : outcome (R * S) :=
  match o with
  | Returns (r, s, _) => Returns (r, s)
  | Undefined => Undefined
  | OutOfFuel => OutOfFuel
  end.

Definition state_only {R S E} (o : outcome (R * S * E)) : outcome S :=
  match o with
  | Returns (_, s, _) => Returns s
  | Undefined => Undefined
  | OutOfFuel => OutOfFuel
  end.

Definition of_MPMCQueue {T} (dflt : T) : members T (MPMCQueue.queue T) := {|
  mp_enqueue input q := state_only (MPMCQueue.call dflt (MPMCQueue.mpEnqueue input) q);
  sc_dequeue output q := untraced (MPMCQueue.call dflt (MPMCQueue.scDequeue output) q);
  mc_dequeue output q := untraced (MPMCQueue.call dflt (MPMCQueue.mcDequeue output) q);
  mc_dequeue_light output q :=
    untraced (MPMCQueue.call dflt (MPMCQueue.mcDequeueLight output) q)
|}.

End list_queue.

(** * The sharded queue [bk_conq::multilist_vector_queue] *)

(** Which overload a call selects: [const T&] for an lvalue argument, [T&&]
    for an rvalue.  The two instantiate the forwarding templates at
    different [U] ([const T&] and [T]). *)
Variant value_category : Set := lvalue | rvalue.

(** The two families of forwarding function templates. *)
Variant forwarder : Set := sp_forward | mp_forward.

(** A call the sharded queue made on one of its subqueues: [_q[index]], the
    member, and for a dequeue the [bool] it returned and the value [output]
    held afterwards. *)
Variant subcall (T : Type) : Type :=
| called_mp_enqueue (index : nat) (input : T)
| called_sc_dequeue (index : nat) (hit : bool) (output : T)
| called_mc_dequeue (index : nat) (hit : bool) (output : T)
| called_mc_dequeue_light (index : nat) (hit : bool) (output : T).
Arguments called_mp_enqueue {T} index input.
Arguments called_sc_dequeue {T} index hit output.
Arguments called_mc_dequeue {T} index hit output.
Arguments called_mc_dequeue_light {T} index hit output.

(** The four members of the subqueue the class calls. *)
Variant member : Set :=
  to_mp_enqueue | to_sc_dequeue | to_mc_dequeue | to_mc_dequeue_light.

Definition callee {T} (c : subcall T) : member :=
  match c with
  | called_mp_enqueue _ _ => to_mp_enqueue
  | called_sc_dequeue _ _ _ => to_sc_dequeue
  | called_mc_dequeue _ _ _ => to_mc_dequeue
  | called_mc_dequeue_light _ _ _ => to_mc_dequeue_light
  end.

(** The subqueue a call went to. *)
Definition subqueue_of {T} (c : subcall T) : nat :=
  match c with
  | called_mp_enqueue i _ | called_sc_dequeue i _ _
  | called_mc_dequeue i _ _ | called_mc_dequeue_light i _ _ => i
  end.



(** The [thread_local static] variables of one thread.  A function-local
    static belongs to the function, and each instantiation of a function
    template is a function of its own: [sp_enqueue_forward<const T&>],
    [sp_enqueue_forward<T>], [mp_enqueue_forward<const T&>] and
    [mp_enqueue_forward<T>] each own an [indx], [sc_dequeue] and
    [mc_dequeue] each own a [hitlist].  [None]: not yet initialised, the
    thread has not called that function. *)
Record statics : Set := mkStatics {
  sp_indx_lvalue : option nat;
  sp_indx_rvalue : option nat;
  mp_indx_lvalue : option nat;
  mp_indx_rvalue : option nat;
  sc_hitlist : option (list nat);
  mc_hitlist : option (list nat)
}.

Definition uninitialised : statics := mkStatics None None None None None None.

Definition get_indx (f : forwarder) (c : value_category) (l : statics) : option nat :=
  match f, c with
  | sp_forward, lvalue => sp_indx_lvalue l
  | sp_forward, rvalue => sp_indx_rvalue l
  | mp_forward, lvalue => mp_indx_lvalue l
  | mp_forward, rvalue => mp_indx_rvalue l
  end.

Definition set_indx (f : forwarder) (c : value_category) (i : nat) (l : statics) : statics :=
  match f, c with
  | sp_forward, lvalue =>
      mkStatics (Some i) (sp_indx_rvalue l) (mp_indx_lvalue l) (mp_indx_rvalue l)
                (sc_hitlist l) (mc_hitlist l)
  | sp_forward, rvalue =>
      mkStatics (sp_indx_lvalue l) (Some i) (mp_indx_lvalue l) (mp_indx_rvalue l)
                (sc_hitlist l) (mc_hitlist l)
  | mp_forward, lvalue =>
      mkStatics (sp_indx_lvalue l) (sp_indx_rvalue l) (Some i) (mp_indx_rvalue l)
                (sc_hitlist l) (mc_hitlist l)
  | mp_forward, rvalue =>
      mkStatics (sp_indx_lvalue l) (sp_indx_rvalue l) (mp_indx_lvalue l) (Some i)
                (sc_hitlist l) (mc_hitlist l)
  end.

Definition set_sc_hitlist (h : list nat) (l : statics) : statics :=
  mkStatics (sp_indx_lvalue l) (sp_indx_rvalue l) (mp_indx_lvalue l) (mp_indx_rvalue l)
            (Some h) (mc_hitlist l).

Definition set_mc_hitlist (h : list nat) (l : statics) : statics :=
  mkStatics (sp_indx_lvalue l) (sp_indx_rvalue l) (mp_indx_lvalue l) (mp_indx_rvalue l)
            (sc_hitlist l) (Some h).

(** The thread-local variables fit an object of [N] subqueues: every
    [indx] that is initialised is below [N], every hitlist that is
    initialised is a permutation of [0, N). *)
Definition fitting (N : nat) (l : statics) : Prop :=
  (forall f c i, get_indx f c l = Some i -> i < N) /\
  (forall h, sc_hitlist l = Some h -> h ≡ₚ seq 0 N) /\
  (forall h, mc_hitlist l = Some h -> h ≡ₚ seq 0 N).

(** [size_t] is 64 bits wide. *)
Definition size_t_modulus : Z := 2 ^ 64.

Module multilist_vector_queue.
Section WithSubqueues.

Context {T Q : Type} `{!list_queue.members T Q}.

(** The object: [std::vector<padded_list_queue> _q] and
    [std::atomic<size_t> _enqueue_indx]. *)
Record multiqueue : Type := mkMulti {
  _q : list Q;
  _enqueue_indx : Z
}.

(** The object together with the thread-local statics of the threads that
    use it, by thread id. *)
Record program : Type := mkProgram {
  object : multiqueue;
  thread_statics : gmap nat statics
}.

(** Code of the class: it reads and updates the program state, may be
    undefined or not return, and leaves the list of subqueue calls made. *)
Definition M (A : Type) : Type := program -> outcome (A * program * list (subcall T)).

Definition ret {A} (a : A) : M A := fun st => Returns (a, st, []).

Definition bind {A B} (m : M A) (k : A -> M B) : M B := fun st =>
  match m st with
  | Returns (a, st', l) =>
      match k a st' with
      | Returns (b, st'', l') => Returns (b, st'', l ++ l')
      | Undefined => Undefined
      | OutOfFuel => OutOfFuel
      end
  | Undefined => Undefined
  | OutOfFuel => OutOfFuel
  end.

Definition undefined {A} : M A := fun _ => Undefined.

Notation "x <~ m ; k" := (bind m (fun x => k))
  (at level 20, m at level 99, k at level 200, right associativity, only parsing).

(** [_q.size()] *)
Definition size : M nat := fun st => Returns (length (_q (object st)), st, []).

(** [_enqueue_indx.fetch_add(1)] *)
Definition fetch_add_enqueue_indx : M Z := fun st =>
  let o := object st in
  Returns (_enqueue_indx o,
           mkProgram (mkMulti (_q o) ((_enqueue_indx o + 1) mod size_t_modulus))
                     (thread_statics st),
           []).

Definition statics_of (t : nat) (st : program) : statics :=
  default uninitialised (thread_statics st !! t).

Definition read_static {A} (t : nat) (field : statics -> A) : M A := fun st =>
  Returns (field (statics_of t st), st, []).

Definition write_static (t : nat) (upd : statics -> statics) : M unit := fun st =>
  Returns (tt,
           mkProgram (object st) (<[t := upd (statics_of t st)]> (thread_statics st)),
           []).

(** [_q[index].member(...)]: undefined when [index] is out of range. *)
Definition on_subqueue {A} (index : nat) (member : Q -> outcome (A * Q))
    (logged : A -> subcall T) : M A := fun st =>
  match _q (object st) !! index with
  | None => Undefined
  | Some q =>
      match member q with
      | Returns (a, q') =>
          Returns (a,
                   mkProgram (mkMulti (<[index := q']> (_q (object st)))
                                      (_enqueue_indx (object st)))
                             (thread_statics st),
                   [logged a])
      | Undefined => Undefined
      | OutOfFuel => OutOfFuel
      end
  end.

Definition sub_mp_enqueue (index : nat) (input : T) : M unit :=
  on_subqueue index
    (fun q => match list_queue.mp_enqueue input q with
              | Returns q' => Returns (tt, q')
              | Undefined => Undefined
              | OutOfFuel => OutOfFuel
              end)
    (fun _ => called_mp_enqueue index input).

Definition sub_sc_dequeue (index : nat) (output : T) : M (bool * T) :=
  on_subqueue index (list_queue.sc_dequeue output)
    (fun r => called_sc_dequeue index r.1 r.2).

Definition sub_mc_dequeue (index : nat) (output : T) : M (bool * T) :=
  on_subqueue index (list_queue.mc_dequeue output)
    (fun r => called_mc_dequeue index r.1 r.2).

Definition sub_mc_dequeue_light (index : nat) (output : T) : M (bool * T) :=
  on_subqueue index (list_queue.mc_dequeue_light output)
    (fun r => called_mc_dequeue_light index r.1 r.2).

(** [thread_local static size_t indx{ _enqueue_indx.fetch_add(1) % _q.size() };]
    in the forwarder [f] instantiated for category [c], run by thread [t]:
    the initialiser runs the first time this thread passes the declaration,
    later passes read the variable.  [% 0] is undefined. *)
Definition static_indx (f : forwarder) (c : value_category) (t : nat) : M nat :=
  cached <~ read_static t (get_indx f c);
  match cached with
  | Some indx => ret indx
  | None =>
      n <~ fetch_add_enqueue_indx;
      sz <~ size;
      if decide (sz = 0) then undefined
      else
        let indx := Z.to_nat (n mod Z.of_nat sz) in
        _ <~ write_static t (set_indx f c indx);
        ret indx
  end.

(** [sp_enqueue_forward(U&& input)] *)
Definition sp_enqueue_forward (c : value_category) (input : T) (t : nat) : M unit :=
  indx <~ static_indx sp_forward c t;
  sub_mp_enqueue indx input.

(** [sp_enqueue_forward(U&& input, size_t index)] *)
Definition sp_enqueue_forward_at (input : T) (index : nat) : M unit :=
  sub_mp_enqueue index input.

(** [mp_enqueue_forward(U&& input)] *)
Definition mp_enqueue_forward (c : value_category) (input : T) (t : nat) : M unit :=
  indx <~ static_indx mp_forward c t;
  sub_mp_enqueue indx input.

(** [mp_enqueue_forward(U&& input, size_t index)] *)
Definition mp_enqueue_forward_at (input : T) (index : nat) : M unit :=
  sub_mp_enqueue index input.

(** The public enqueues; [c] tells the [T&&] overload from the [const T&]
    one, [t] is the calling thread. *)
Definition sp_enqueue (c : value_category) (input : T) (t : nat) : M unit :=
  sp_enqueue_forward c input t.

Definition sp_enqueue_at (c : value_category) (input : T) (index : nat) (t : nat) : M unit :=
  sp_enqueue_forward_at input index.

Definition mp_enqueue (c : value_category) (input : T) (t : nat) : M unit :=
  mp_enqueue_forward c input t.

Definition mp_enqueue_at (c : value_category) (input : T) (index : nat) (t : nat) : M unit :=
  mp_enqueue_forward_at input index.

(** [hitlist_sequence()]: [iota] over [_q.size()] slots. *)
Definition hitlist_sequence : M (list nat) :=
  sz <~ size; ret (seq 0 sz).

(** [std::iter_swap(it, it2)] on positions of the hitlist; both are in
    range wherever the class calls it ([it2] before [it], [it] before
    [end()]). *)
Definition iter_swap (it it2 : nat) (hitlist : list nat) : list nat :=
  match hitlist !! it, hitlist !! it2 with
  | Some x, Some y => <[it2 := x]> (<[it := y]> hitlist)
  | _, _ => hitlist
  end.

(** [for (auto it2 = hitlist.begin(); it2 != it; ++it2) std::iter_swap(it, it2);] *)
Definition hit_update (it : nat) (hitlist : list nat) : list nat :=
  foldl (fun h it2 => iter_swap it it2 h) hitlist (seq 0 it).

(** [for (auto it = hitlist.begin(); it != hitlist.end(); ++it)
       if (_q[*it].dequeue(output)) { update; return true; }]
    from position [it] on, [todo] being the slots from [it] to the end.
    Gives the [bool] ([false]: the loop ran to [end()]), [output] and the
    hitlist as the swaps leave it; the caller's [thread_local] vector takes
    it over on a hit. *)
Fixpoint scan (dequeue : nat -> T -> M (bool * T)) (hitlist : list nat)
    (it : nat) (todo : list nat) (output : T) : M (bool * T * list nat) :=
  match todo with
  | [] => ret (false, output, hitlist)
  | index :: todo =>
      r <~ dequeue index output;
      if r.1 then ret (true, r.2, hit_update it hitlist)
      else scan dequeue hitlist (S it) todo r.2
  end.

(** [thread_local static auto hitlist = hitlist_sequence();] of
    [sc_dequeue], respectively [mc_dequeue]. *)
Definition static_hitlist (t : nat) (field : statics -> option (list nat))
    (upd : list nat -> statics -> statics) : M (list nat) :=
  cached <~ read_static t field;
  match cached with
  | Some hitlist => ret hitlist
  | None =>
      hitlist <~ hitlist_sequence;
      _ <~ write_static t (upd hitlist);
      ret hitlist
  end.

(** [sc_dequeue(T& output)] *)
Definition sc_dequeue (output : T) (t : nat) : M (bool * T) :=
  hitlist <~ static_hitlist t sc_hitlist set_sc_hitlist;
  r <~ scan sub_sc_dequeue hitlist 0 hitlist output;
  if r.1.1 then
    _ <~ write_static t (set_sc_hitlist r.2);
    ret r.1
  else ret r.1.

(** [sc_dequeue(T& output, size_t index)] *)
Definition sc_dequeue_at (output : T) (index : nat) : M (bool * T) :=
  sub_sc_dequeue index output.

(** [mc_dequeue(T& output)] *)
Definition mc_dequeue (output : T) (t : nat) : M (bool * T) :=
  hitlist <~ static_hitlist t mc_hitlist set_mc_hitlist;
  r <~ scan sub_mc_dequeue_light hitlist 0 hitlist output;
  if r.1.1 then
    _ <~ write_static t (set_mc_hitlist r.2);
    ret r.1
  else
    r <~ scan sub_mc_dequeue hitlist 0 hitlist r.1.2;
    if r.1.1 then
      _ <~ write_static t (set_mc_hitlist r.2);
      ret r.1
    else ret r.1.

(** [mc_dequeue(T& output, size_t index)] *)
Definition mc_dequeue_at (output : T) (index : nat) : M (bool * T) :=
  sub_mc_dequeue index output.

(** [multilist_vector_queue(size_t subqueues) : _q(subqueues) {}], given
    what a default-constructed subqueue is. *)
Definition constructor (empty_subqueue : Q) (subqueues : nat) : multiqueue :=
  mkMulti (replicate subqueues empty_subqueue) 0.

(** ** What the dequeues are to do *)

(** The hitlist the thread [t] scans with: its [thread_local] vector, or
    [hitlist_sequence()] when it is the thread's first call. *)
Definition current_hitlist (field : statics -> option (list nat)) (t : nat) (st : program)
  : list nat :=
  default (seq 0 (length (_q (object st)))) (field (statics_of t st)).




(** What the subqueues hold, by index, [holds q] being what the subqueue
    [q] holds. *)
Definition shards (holds : Q -> list T) (st : program) : list (list T) :=
  holds <$> _q (object st).

(** The subqueues are queues.  Called alone on a subqueue that satisfies
    [wf], [mp_enqueue] returns and puts its argument behind what the
    subqueue holds; each of the three dequeue members returns [false] and
    changes nothing when the subqueue holds nothing, and otherwise returns
    [true] with the front element and leaves the rest. *)
Definition fifo_subqueues (wf : Q -> Prop) (holds : Q -> list T) : Prop :=
  forall q, wf q ->
    (forall input, exists q',
       list_queue.mp_enqueue input q = Returns q' /\ wf q' /\
       holds q' = holds q ++ [input]) /\
    (forall dequeue output,
       dequeue ∈ [list_queue.sc_dequeue; list_queue.mc_dequeue;
                  list_queue.mc_dequeue_light] ->
       match holds q with
       | [] => dequeue output q = Returns (false, output, q)
       | v :: vs =>
           exists q', dequeue output q = Returns (true, v, q') /\ wf q' /\ holds q' = vs
       end).

(** The public enqueue without index that goes through the forwarder
    [f]. *)
Definition enqueue_through (f : forwarder) : value_category -> T -> nat -> M unit :=
  match f with
  | sp_forward => sp_enqueue
  | mp_forward => mp_enqueue
  end.

(** ** Clients *)

(** A call of a public member function: with the calling thread [t] for
    the members without index, and for the dequeues with the value the
    caller's [output] holds. *)
Variant public_call : Type :=
| call_sp_enqueue (c : value_category) (input : T) (t : nat)
| call_sp_enqueue_at (c : value_category) (input : T) (index : nat) (t : nat)
| call_mp_enqueue (c : value_category) (input : T) (t : nat)
| call_mp_enqueue_at (c : value_category) (input : T) (index : nat) (t : nat)
| call_sc_dequeue (output : T) (t : nat)
| call_sc_dequeue_at (output : T) (index : nat)
| call_mc_dequeue (output : T) (t : nat)
| call_mc_dequeue_at (output : T) (index : nat).

(** The call made; it gives [None] for the [void] enqueues, and for the
    dequeues the [bool] with the value [output] holds afterwards. *)
Definition perform (c : public_call) : M (option (bool * T)) :=
  match c with
  | call_sp_enqueue c input t => _ <~ sp_enqueue c input t; ret None
  | call_sp_enqueue_at c input index t => _ <~ sp_enqueue_at c input index t; ret None
  | call_mp_enqueue c input t => _ <~ mp_enqueue c input t; ret None
  | call_mp_enqueue_at c input index t => _ <~ mp_enqueue_at c input index t; ret None
  | call_sc_dequeue output t => r <~ sc_dequeue output t; ret (Some r)
  | call_sc_dequeue_at output index => r <~ sc_dequeue_at output index; ret (Some r)
  | call_mc_dequeue output t => r <~ mc_dequeue output t; ret (Some r)
  | call_mc_dequeue_at output index => r <~ mc_dequeue_at output index; ret (Some r)
  end.

(** Calls made one after the other, by whichever threads. *)
Fixpoint perform_all (cs : list public_call) : M (list (option (bool * T))) :=
  match cs with
  | [] => ret []
  | c :: cs =>
      r <~ perform c;
      rs <~ perform_all cs;
      ret (r :: rs)
  end.

(** The value a call passed to an enqueue, the value a result took off
    the queue, and the index a call names. *)
Definition passed (c : public_call) : option T :=
  match c with
  | call_sp_enqueue _ input _ | call_sp_enqueue_at _ input _ _
  | call_mp_enqueue _ input _ | call_mp_enqueue_at _ input _ _ => Some input
  | _ => None
  end.

Definition taken (r : option (bool * T)) : option T :=
  match r with
  | Some (true, v) => Some v
  | _ => None
  end.

Definition named_index (c : public_call) : option nat :=
  match c with
  | call_sp_enqueue_at _ _ index _ | call_mp_enqueue_at _ _ index _
  | call_sc_dequeue_at _ index | call_mc_dequeue_at _ index => Some index
  | _ => None
  end.

(** The threads of [st] using another object of the class: the
    [thread_local] variables belong to the member functions, not to the
    object whose member was called. *)
Definition on_object (o : multiqueue) (st : program) : program :=
  mkProgram o (thread_statics st).

End WithSubqueues.

Arguments multiqueue : clear implicits.
Arguments program : clear implicits.
Arguments public_call : clear implicits.

End multilist_vector_queue.

(** * Concrete objects *)

Module objects.
Import multilist_vector_queue.

(** An [MPMCQueue<int>] on which 7 has been enqueued: nodes 0 and 1 are the
    sentinels of the constructor, node 2 carries 7. *)
Definition holding_7 : MPMCQueue.queue Z :=
  MPMCQueue.mkQueue
    [MPMCQueue.mkNode 0%Z (Some 2); MPMCQueue.mkNode 0%Z None; MPMCQueue.mkNode 7%Z None]
    (Some 2) (Some 1) (Some 0) (Some 1).

(** The subqueues are [MPMCQueue<int>] objects. *)
#[export] Instance int_subqueues : list_queue.members Z (MPMCQueue.queue Z) :=
  list_queue.of_MPMCQueue 0%Z.

(** Two, respectively three, constructed subqueues of [int], no thread
    having called anything yet. *)
Definition two_subqueues : program (MPMCQueue.queue Z) :=
  mkProgram (constructor (MPMCQueue.fresh 0%Z) 2) ∅.

Definition three_subqueues : program (MPMCQueue.queue Z) :=
  mkProgram (constructor (MPMCQueue.fresh 0%Z) 3) ∅.

Definition after {A} (m : M (T:=Z) (Q:=MPMCQueue.queue Z) A) (st : program (MPMCQueue.queue Z))
  : program (MPMCQueue.queue Z) :=
  match m st with
  | Returns (_, st', _) => st'
  | _ => st
  end.

(** The call log of a piece of code, and the counter it leaves. *)
Definition log_of {A} (m : M (T:=Z) (Q:=MPMCQueue.queue Z) A) (st : program (MPMCQueue.queue Z))
  : option (list (subcall Z)) :=
  match m st with
  | Returns (_, _, l) => Some l
  | _ => None
  end.

(** Three subqueues, 42 enqueued to subqueue 1 and 43 to subqueue 2. *)
Definition loaded : program (MPMCQueue.queue Z) :=
  after (mp_enqueue_at lvalue 43%Z 2 7)
        (after (mp_enqueue_at lvalue 42%Z 1 7) three_subqueues).

(** [loaded] after 44 has been put behind 42 on subqueue 1 and thread 1
    has taken 42 with [sc_dequeue]: subqueue 1 is at the front of the
    hitlist of thread 1 and holds 44. *)
Definition warmed_up : program (MPMCQueue.queue Z) :=
  after (sc_dequeue 0%Z 1) (after (mp_enqueue_at lvalue 44%Z 1 7) loaded).

End objects.

(** * The unbounded linked queue run by one thread at a time *)

Import MPMCQueue.
Import objects.

Section Sequential.

Context {T : Type} (dflt : T).

Implicit Types (s : queue T) (ns : list (listNode T)) (M F : list nat) (vs : list T).

Lemma run_unfold {R} n (t : prog R) s :
  run dflt (S n) t s =
  match observe t with
  | RetF r => Returns (r, s, [])
  | TauF t' => run dflt n t' s
  | VisF e k =>
      match handle dflt e s with
      | None => Undefined
      | Some (x, s') => traced (Ev e x) (run dflt n (k x) s')
      end
  end.
Proof. reflexivity. Qed.

Lemma traced_not_out_of_fuel {R} ev (o : outcome (R * queue T * list (event T))) :
  traced ev o = OutOfFuel -> o = OutOfFuel.
Proof. by destruct o as [[[??]?]| |]. Qed.

(** More fuel does not change the outcome of a run that came to its end. *)
Lemma run_mono {R} n m (t : prog R) s :
  run dflt n t s <> OutOfFuel -> n <= m -> run dflt m t s = run dflt n t s.
Proof.
  revert m t s. induction n as [|n IH]; intros m t s Hn Hle; [done|].
  destruct m as [|m]; [lia|].
  rewrite !run_unfold in *.
  destruct (observe t) as [r|t'|X e k]; [done|apply IH; [done|lia]|].
  destruct (handle dflt e s) as [[x s']|]; [|done].
  rewrite (IH m); [done| |lia].
  intros Hf. by rewrite Hf in Hn.
Qed.

Lemma chain_lt ns l a : chain ns l -> a ∈ l -> a < length ns.
Proof.
  intros Hc [i Hi]%list_elem_of_lookup_1. specialize (Hc i a Hi).
  destruct (ns !! a) as [nd|] eqn:Hnd; [|done]. by eapply lookup_lt_Some.
Qed.

Lemma chain_length ns l : chain ns l -> NoDup l -> length l <= length ns.
Proof.
  intros Hc Hnd.
  replace (length ns) with (length (seq 0 (length ns))) by apply length_seq.
  apply submseteq_length, NoDup_submseteq; [done|].
  intros a Ha. apply elem_of_seq. pose proof (chain_lt _ _ _ Hc Ha). lia.
Qed.

Lemma chain_tail ns a l : chain ns (a :: l) -> chain ns l.
Proof. intros Hc i b Hi. apply (Hc (S i) b Hi). Qed.

Lemma walk_chain ns l fuel :
  chain ns l -> length l <= fuel -> walk fuel ns (head l) = l.
Proof.
  revert l. induction fuel as [|fuel IH]; intros [|a l] Hc Hlen; simpl in *; try done; [lia|].
  specialize (Hc 0 a eq_refl) as H0.
  destruct (ns !! a) as [nd|]; simplify_eq/=. f_equal.
  rewrite H0, <- head_lookup. apply IH; [by eapply chain_tail|lia].
Qed.

Lemma Rep_nodup_main s M F vs : Rep s M F vs -> NoDup M.
Proof. intros H. apply rep_nodup, NoDup_app in H. tauto. Qed.

Lemma Rep_nodup_free s M F vs : Rep s M F vs -> NoDup F.
Proof. intros H. apply rep_nodup, NoDup_app in H. tauto. Qed.

Lemma Rep_main_list s M F vs : Rep s M F vs -> main_list s = M.
Proof.
  intros H. unfold main_list. rewrite (rep_tail _ _ _ _ H).
  apply walk_chain; [apply H|]. apply chain_length; [apply H|].
  by eapply Rep_nodup_main.
Qed.

Lemma Rep_free_list s M F vs : Rep s M F vs -> free_list s = F.
Proof.
  intros H. unfold free_list. rewrite (rep_free_tail _ _ _ _ H).
  apply walk_chain; [apply H|]. apply chain_length; [apply H|].
  by eapply Rep_nodup_free.
Qed.

Lemma payloads_omap ns (l : list nat) vs :
  Forall2 (fun a v => data <$> ns !! a = Some v) l vs ->
  omap (fun a => data <$> ns !! a) l = vs.
Proof.
  induction 1 as [|a v l vs Ha _ IH]; [done|].
  change (match data <$> ns !! a with Some y => y :: omap (fun a => data <$> ns !! a) l | None => omap (fun a => data <$> ns !! a) l end = v :: vs).
  by rewrite Ha, IH.
Qed.

Lemma Rep_contents s M F vs : Rep s M F vs -> contents s = vs.
Proof.
  intros H. unfold contents. rewrite (Rep_main_list _ _ _ _ H).
  apply payloads_omap, H.
Qed.

(** *** Frame properties *)

Lemma chain_frame ns ns' l :
  (forall a, a ∈ l -> next <$> ns' !! a = next <$> ns !! a) ->
  chain ns l -> chain ns' l.
Proof.
  intros Hfr Hc i a Hi. rewrite Hfr; [by apply Hc|].
  by eapply list_elem_of_lookup_2.
Qed.

Lemma payloads_frame ns ns' (l : list nat) vs :
  (forall a, a ∈ l -> data <$> ns' !! a = data <$> ns !! a) ->
  Forall2 (fun a v => data <$> ns !! a = Some v) l vs ->
  Forall2 (fun a v => data <$> ns' !! a = Some v) l vs.
Proof.
  intros Hfr H. induction H as [|a v l vs Ha _ IH]; constructor.
  - rewrite Hfr; [done|left].
  - apply IH. intros b Hb. apply Hfr. by right.
Qed.

(** Linking the node [x] behind the last node [h] of a list: [x] gets a
    null [next] (and the payload [w]), [h] gets [x] as its [next]. *)
Lemma chain_snoc ns l h x ndh w :
  chain ns l -> NoDup l -> last l = Some h -> x ∉ l ->
  ns !! h = Some ndh -> x < length ns ->
  chain (<[h := mkNode (data ndh) (Some x)]> (<[x := mkNode w None]> ns)) (l ++ [x]).
Proof.
  intros Hc Hnd Hlast Hx Hh Hlt i a Hi.
  assert (Hhl : l !! pred (length l) = Some h) by by rewrite <- last_lookup.
  assert (h <> x) by (intros ->; apply Hx; by eapply list_elem_of_lookup_2).
  apply lookup_lt_Some in Hh as Hhlt.
  destruct (decide (i < length l)) as [Hil|Hil].
  - rewrite lookup_app_l in Hi by done.
    destruct (decide (a = h)) as [->|Hah].
    + rewrite list_lookup_insert_eq by (by rewrite length_insert). simpl.
      assert (i = pred (length l)) as -> by (eapply NoDup_lookup; eauto).
      f_equal. rewrite lookup_app_r by lia.
      by replace (S (pred (length l)) - length l) with 0 by lia.
    + assert (a <> x) by (intros ->; apply Hx; by eapply list_elem_of_lookup_2).
      rewrite !list_lookup_insert_ne by done. rewrite (Hc i a Hi). f_equal.
      assert (S i < length l).
      { destruct (decide (S i = length l)) as [He|]; [|lia].
        exfalso. apply Hah. assert (i = pred (length l)) as -> by lia. congruence. }
      by rewrite lookup_app_l.
  - rewrite lookup_app_r in Hi by lia.
    destruct (i - length l) as [|k] eqn:Hk; simplify_eq/=.
    rewrite list_lookup_insert_ne by done.
    rewrite list_lookup_insert_eq by done. simpl. f_equal.
    symmetry. apply lookup_ge_None_2. rewrite length_app. simpl. lia.
Qed.

Lemma insert_keeps_data ns a nd p b :
  ns !! a = Some nd ->
  data <$> <[a := mkNode (data nd) p]> ns !! b = data <$> ns !! b.
Proof.
  intros Ha. destruct (decide (a = b)) as [->|].
  - rewrite list_lookup_insert_eq by (by eapply lookup_lt_Some). by rewrite Ha.
  - by rewrite list_lookup_insert_ne.
Qed.

(** The state an enqueue leaves when it reuses the first freelist node
    [f]: [f] carries [v] and is linked behind the old head [h]. *)
Lemma Rep_enqueue_reuse ns hd ftl tl fhd M f g F vs h ndh v :
  Rep (mkQueue ns hd ftl tl fhd) M (f :: g :: F) vs ->
  last M = Some h -> ns !! h = Some ndh ->
  Rep (mkQueue (<[h := mkNode (data ndh) (Some f)]> (<[f := mkNode v None]> ns))
               (Some f) (Some g) tl fhd)
      (M ++ [f]) (g :: F) (vs ++ [v]).
Proof.
  intros H Hlast Hh.
  pose proof (Rep_nodup_main _ _ _ _ H) as HndM.
  pose proof (Rep_nodup_free _ _ _ _ H) as HndF.
  destruct H as [Htl Hhd Hftl Hfhd Hmain Hfree Hnd HneM _ Hpay];
    cbn [nodes _head _tail _freeListTail _freeListHead] in *.
  apply NoDup_app in Hnd as (_ & Hdisj & _).
  assert (HhM : h ∈ M) by by apply last_Some_elem_of.
  assert (HfM : f ∉ M) by (intros Hin; apply (Hdisj _ Hin); left).
  assert (Hfh : h <> f) by congruence.
  assert (Hflt : f < length ns) by (eapply chain_lt; [exact Hfree|left]).
  constructor; cbn [nodes _head _tail _freeListTail _freeListHead].
  - rewrite Htl. by destruct M.
  - by rewrite last_snoc.
  - done.
  - by rewrite Hfhd, last_cons_cons.
  - by apply chain_snoc.
  - eapply chain_frame; [|by eapply chain_tail].
    intros a Ha.
    assert (a <> f) by (intros ->; by apply NoDup_cons in HndF as [? _]).
    assert (a <> h) by (intros ->; apply (Hdisj _ HhM); by right).
    by rewrite !list_lookup_insert_ne.
  - rewrite <- app_assoc. simpl. by apply NoDup_app.
  - by destruct M.
  - done.
  - unfold payloads in *. replace (tail (M ++ [f])) with (tail M ++ [f]) by (by destruct M).
    apply Forall2_app.
    + eapply payloads_frame; [|exact Hpay].
      intros a Ha. rewrite insert_keeps_data.
      * rewrite list_lookup_insert_ne; [done|]. intros ->. apply HfM.
        destruct M; [done|by right].
      * by rewrite list_lookup_insert_ne.
    + constructor; [|constructor].
      rewrite list_lookup_insert_ne by done.
      by rewrite list_lookup_insert_eq.
Qed.

(** The state an enqueue leaves when it allocates: the new node is at the
    end of the arena. *)
Lemma Rep_enqueue_alloc ns hd ftl tl fhd M F vs h ndh v :
  Rep (mkQueue ns hd ftl tl fhd) M F vs ->
  last M = Some h -> ns !! h = Some ndh ->
  Rep (mkQueue (<[h := mkNode (data ndh) (Some (length ns))]> (ns ++ [mkNode v None]))
               (Some (length ns)) ftl tl fhd)
      (M ++ [length ns]) F (vs ++ [v]).
Proof.
  intros H Hlast Hh.
  pose proof (Rep_nodup_main _ _ _ _ H) as HndM.
  destruct H as [Htl Hhd Hftl Hfhd Hmain Hfree Hnd HneM Hne Hpay];
    cbn [nodes _head _tail _freeListTail _freeListHead] in *.
  assert (HhM : h ∈ M) by by apply last_Some_elem_of.
  assert (Hhlt : h < length ns) by by eapply lookup_lt_Some.
  assert (HxM : length ns ∉ M).
  { intros Hin. pose proof (chain_lt _ _ _ Hmain Hin). lia. }
  assert (HxF : length ns ∉ F).
  { intros Hin. pose proof (chain_lt _ _ _ Hfree Hin). lia. }
  assert (Hold : forall a, a < length ns -> (ns ++ [mkNode v None]) !! a = ns !! a)
    by (intros; by apply lookup_app_l).
  assert (Hnew : (ns ++ [mkNode v None]) !! length ns = Some (mkNode v None)).
  { rewrite lookup_app_r by lia. by rewrite Nat.sub_diag. }
  constructor; cbn [nodes _head _tail _freeListTail _freeListHead].
  - rewrite Htl. by destruct M.
  - by rewrite last_snoc.
  - done.
  - done.
  - rewrite <- (list_insert_id _ _ _ Hnew) at 1.
    apply chain_snoc; try done.
    + eapply chain_frame; [|exact Hmain]. intros a Ha.
      rewrite Hold; [done|]. eapply chain_lt; [exact Hmain|done].
    + by rewrite Hold.
    + rewrite length_app. simpl. lia.
  - eapply chain_frame; [|exact Hfree]. intros a Ha.
    assert (a < length ns) by (eapply chain_lt; [exact Hfree|done]).
    assert (a <> h).
    { intros ->. apply NoDup_app in Hnd as (_ & Hdisj & _). by apply (Hdisj _ HhM). }
    rewrite list_lookup_insert_ne by done. by rewrite Hold.
  - rewrite <- app_assoc. simpl.
    apply NoDup_app in Hnd as (? & Hdisj & ?).
    apply NoDup_app. split_and!; [done| |].
    + intros a Ha [->|Hin]%elem_of_cons; [done|]. by apply (Hdisj _ Ha).
    + by apply NoDup_cons.
  - by destruct M.
  - done.
  - unfold payloads in *.
    replace (tail (M ++ [length ns])) with (tail M ++ [length ns]) by (by destruct M).
    apply Forall2_app.
    + eapply payloads_frame; [|exact Hpay].
      intros a Ha. rewrite insert_keeps_data by (by rewrite Hold).
      rewrite Hold; [done|]. eapply chain_lt; [exact Hmain|].
      destruct M; [done|by right].
    + constructor; [|constructor].
      rewrite list_lookup_insert_ne by lia. by rewrite Hnew.
Qed.

(** The state a successful dequeue leaves: the old sentinel [t] is linked
    behind the old freelist head [fh], its successor is the new sentinel. *)
Lemma Rep_dequeue ns hd ftl tl fhd t n M' F v vs fh ndt ndfh :
  Rep (mkQueue ns hd ftl tl fhd) (t :: n :: M') F (v :: vs) ->
  last F = Some fh -> ns !! t = Some ndt -> ns !! fh = Some ndfh ->
  Rep (mkQueue (<[fh := mkNode (data ndfh) (Some t)]> (<[t := mkNode (data ndt) None]> ns))
               hd ftl (Some n) (Some t))
      (n :: M') (F ++ [t]) vs.
Proof.
  intros H Hlast Ht Hfh.
  pose proof (Rep_nodup_main _ _ _ _ H) as HndM.
  pose proof (Rep_nodup_free _ _ _ _ H) as HndF.
  destruct H as [Htl Hhd Hftl Hfhd Hmain Hfree Hnd HneM Hne Hpay];
    cbn [nodes _head _tail _freeListTail _freeListHead] in *.
  apply NoDup_app in Hnd as (_ & Hdisj & _).
  assert (HfhF : fh ∈ F) by by apply last_Some_elem_of.
  assert (HtF : t ∉ F) by (apply Hdisj; left).
  assert (Htfh : fh <> t) by congruence.
  assert (Htlt : t < length ns) by by eapply lookup_lt_Some.
  assert (Hdata : forall a,
    data <$> <[fh := mkNode (data ndfh) (Some t)]> (<[t := mkNode (data ndt) None]> ns) !! a
    = data <$> ns !! a).
  { intros a. rewrite insert_keeps_data by (by rewrite list_lookup_insert_ne).
    by rewrite insert_keeps_data. }
  constructor; cbn [nodes _head _tail _freeListTail _freeListHead].
  - done.
  - by rewrite Hhd.
  - rewrite Hftl. by destruct F.
  - by rewrite last_snoc.
  - eapply chain_frame; [|by eapply chain_tail].
    intros a Ha.
    assert (a <> t) by (intros ->; by apply NoDup_cons in HndM as [? _]).
    assert (a <> fh).
    { intros ->. apply (Hdisj fh); [by right|done]. }
    by rewrite !list_lookup_insert_ne.
  - by apply chain_snoc.
  - apply NoDup_app. apply NoDup_cons in HndM as [HtM HndM]. split_and!; [done| |].
    + intros a Ha [HaF|Hat]%elem_of_app.
      * apply (Hdisj a); [by right|done].
      * apply list_elem_of_singleton in Hat as ->. done.
    + apply NoDup_app. split_and!; [done| |apply NoDup_singleton].
      intros a Ha Hat. apply list_elem_of_singleton in Hat as ->. done.
  - done.
  - by destruct F.
  - unfold payloads in *. simpl in *. apply Forall2_cons_1 in Hpay as [_ Hpay].
    eapply payloads_frame; [|exact Hpay]. intros a _. apply Hdata.
Qed.

(** ** Calls on known states *)

Ltac run1 :=
  match goal with
  | |- context [run _ (S ?n) ?t ?s] => rewrite (run_unfold n t s); cbn
  end.

Ltac look :=
  repeat (first
    [ rewrite list_lookup_insert_eq by (rewrite ?length_insert; done)
    | rewrite list_lookup_insert_ne by done
    | rewrite lookup_app_l by done
    | rewrite decide_True by done
    | match goal with
      | H : ?ns !! ?a = Some _ |- context [?ns !! ?a] => rewrite H
      | H : next ?nd = _ |- context [next ?nd] => rewrite H
      end ];
    cbn).

Ltac run_all := unfold call, max_steps; repeat (run1; look).

Lemma call_enqueue_reuse ns h (tl fhd : ptr) f g ndf ndh o v output :
  is_enqueue o v ->
  ns !! f = Some ndf -> next ndf = Some g -> ns !! h = Some ndh -> h <> f ->
  exists tr,
    call dflt (code o output) (mkQueue ns (Some h) (Some f) tl fhd)
    = Returns (done,
               mkQueue (<[h := mkNode (data ndh) (Some f)]> (<[f := mkNode v None]> ns))
                       (Some f) (Some g) tl fhd,
               tr)
    /\ forallb (fun ev => negb (is_new ev)) tr = true
    /\ existsb is_freelist_pop tr = true.
Proof.
  intros Ho Hf Hg Hh Hne.
  assert (Hflt : f < length ns) by by eapply lookup_lt_Some.
  destruct Ho as [-> | ->]; eexists; (split; [|split]); cbn [code];
    unfold spEnqueue, mpEnqueue, acquireOrAllocate, freeListTryDequeue.
  1,4: run_all; rewrite list_insert_insert_eq; reflexivity.
  all: reflexivity.
Qed.

Lemma call_enqueue_alloc ns h (tl fhd : ptr) f ndf ndh o v output :
  is_enqueue o v ->
  ns !! f = Some ndf -> next ndf = None -> ns !! h = Some ndh ->
  exists tr,
    call dflt (code o output) (mkQueue ns (Some h) (Some f) tl fhd)
    = Returns (done,
               mkQueue (<[h := mkNode (data ndh) (Some (length ns))]> (ns ++ [mkNode v None]))
                       (Some (length ns)) (Some f) tl fhd,
               tr)
    /\ length (filter (fun ev => is_new ev = true) tr) = 1.
Proof.
  intros Ho Hf Hg Hh.
  assert (Hhlt : h < length ns) by by eapply lookup_lt_Some.
  destruct Ho as [-> | ->]; eexists; split; cbn [code];
    unfold spEnqueue, mpEnqueue, acquireOrAllocate, freeListTryDequeue.
  1,3: run_all; reflexivity.
  all: reflexivity.
Qed.

Lemma call_dequeue_empty ns (hd ftl fhd : ptr) t ndt o output :
  is_dequeue o ->
  ns !! t = Some ndt -> next ndt = None ->
  exists tr,
    call dflt (code o output) (mkQueue ns hd ftl (Some t) fhd)
    = Returns (dequeued false output, mkQueue ns hd ftl (Some t) fhd, tr).
Proof.
  intros Ho Ht Hn.
  destruct Ho as [-> | [-> | ->]]; eexists; cbn [code];
    unfold scDequeue, mcDequeue, mcDequeueLight, freeListEnqueue.
  all: run_all; reflexivity.
Qed.

Lemma call_dequeue_some ns (hd ftl : ptr) t n fh ndt ndn ndfh o output :
  is_dequeue o ->
  ns !! t = Some ndt -> next ndt = Some n -> ns !! n = Some ndn ->
  ns !! fh = Some ndfh -> fh <> t ->
  exists tr,
    call dflt (code o output) (mkQueue ns hd ftl (Some t) (Some fh))
    = Returns (dequeued true (data ndn),
               mkQueue (<[fh := mkNode (data ndfh) (Some t)]> (<[t := mkNode (data ndt) None]> ns))
                       hd ftl (Some n) (Some t),
               tr)
    /\ forallb (fun ev => negb (is_new ev)) tr = true
    /\ existsb is_freelist_push tr = true.
Proof.
  intros Ho Ht Hn Hnn Hfh Hne.
  assert (Htlt : t < length ns) by by eapply lookup_lt_Some.
  destruct Ho as [-> | [-> | ->]]; eexists; (split; [|split]); cbn [code];
    unfold scDequeue, mcDequeue, mcDequeueLight, freeListEnqueue.
  1,4,7: run_all; reflexivity.
  all: reflexivity.
Qed.

(** ** Calls on states that satisfy the invariant *)

Lemma chain_lookup ns l i a :
  chain ns l -> l !! i = Some a -> exists nd, ns !! a = Some nd /\ next nd = l !! S i.
Proof.
  intros Hc Hi. specialize (Hc i a Hi).
  destruct (ns !! a) as [nd|]; simplify_eq/=. by exists nd.
Qed.

Lemma chain_last ns l h :
  chain ns l -> last l = Some h -> exists nd, ns !! h = Some nd /\ next nd = None.
Proof.
  intros Hc Hl. rewrite last_lookup in Hl.
  destruct (chain_lookup _ _ _ _ Hc Hl) as (nd & Hnd & Hnext).
  exists nd. split; [done|]. rewrite Hnext. apply lookup_ge_None_2.
  apply lookup_lt_Some in Hl. lia.
Qed.

(** An enqueue on a queue holding [vs] returns and leaves a queue holding
    [vs ++ [v]].  With nothing but the sentinel on the freelist it
    allocates one node, otherwise it takes the node at the front of the
    freelist and allocates nothing. *)
Lemma enqueue_spec s M F vs o v output :
  Rep s M F vs -> is_enqueue o v ->
  exists s' tr x F',
    call dflt (code o output) s = Returns (done, s', tr) /\
    Rep s' (M ++ [x]) F' (vs ++ [v]) /\
    ((length F = 1 /\ F' = F /\ allocations s' = S (allocations s) /\
      length (filter (fun ev => is_new ev = true) tr) = 1)
     \/
     (F = x :: F' /\ allocations s' = allocations s /\
      forallb (fun ev => negb (is_new ev)) tr = true /\
      existsb is_freelist_pop tr = true)).
Proof.
  intros H Ho.
  destruct (last M) as [h|] eqn:Hlast;
    [|apply last_None in Hlast; by destruct (rep_main_ne _ _ _ _ H)].
  destruct (chain_last _ _ _ (rep_main _ _ _ _ H) Hlast) as (ndh & Hh & _).
  pose proof (rep_free _ _ _ _ H) as Hfree.
  pose proof (rep_nodup _ _ _ _ H) as Hnd.
  destruct s as [ns hd ftl tl fhd].
  pose proof (rep_head _ _ _ _ H) as Hhd.
  pose proof (rep_free_tail _ _ _ _ H) as Hftl.
  cbn [nodes _head _tail _freeListTail _freeListHead] in *. subst hd ftl. rewrite Hlast in *.
  destruct F as [|f [|g F'']]; [by destruct (rep_free_ne _ _ _ _ H)| |].
  - destruct (chain_lookup _ _ 0 f Hfree eq_refl) as (ndf & Hf & Hnext).
    destruct (call_enqueue_alloc ns h tl fhd f ndf ndh o v output Ho Hf Hnext Hh)
      as (tr & Hcall & Htr).
    eexists _, tr, (length ns), [f]. split; [exact Hcall|]. split.
    + by eapply Rep_enqueue_alloc.
    + left. unfold allocations. cbn [nodes].
      rewrite length_insert, length_app. simpl. split_and!; [done|done|lia|done].
  - destruct (chain_lookup _ _ 0 f Hfree eq_refl) as (ndf & Hf & Hnext).
    assert (h <> f).
    { intros ->. apply NoDup_app in Hnd as (_ & Hdisj & _).
      apply (Hdisj f); [by apply last_Some_elem_of|left]. }
    destruct (call_enqueue_reuse ns h tl fhd f g ndf ndh o v output Ho Hf Hnext Hh)
      as (tr & Hcall & Htr1 & Htr2); [done|].
    eexists _, tr, f, (g :: F''). split; [exact Hcall|]. split.
    + by eapply Rep_enqueue_reuse.
    + right. unfold allocations. cbn [nodes]. by rewrite !length_insert.
Qed.

(** A dequeue on an empty queue returns [false] and changes neither the
    queue nor [output]; on a queue holding [v :: vs] it returns [true] with
    [v], leaves [vs], allocates nothing and retires the old sentinel to the
    end of the freelist. *)
Lemma dequeue_spec s M F vs o output :
  Rep s M F vs -> is_dequeue o ->
  match vs with
  | [] => exists tr, call dflt (code o output) s = Returns (dequeued false output, s, tr)
  | v :: vs' =>
      exists s' tr t M',
        call dflt (code o output) s = Returns (dequeued true v, s', tr) /\
        M = t :: M' /\ Rep s' M' (F ++ [t]) vs' /\
        allocations s' = allocations s /\
        forallb (fun ev => negb (is_new ev)) tr = true /\
        existsb is_freelist_push tr = true
  end.
Proof.
  intros H Ho.
  pose proof (rep_main _ _ _ _ H) as Hmain.
  pose proof (rep_nodup _ _ _ _ H) as Hnd.
  pose proof (rep_payloads _ _ _ _ H) as Hpay.
  apply NoDup_app in Hnd as (_ & Hdisj & _).
  destruct M as [|t M0]; [by destruct (rep_main_ne _ _ _ _ H)|].
  specialize (Hdisj t (list_elem_of_here _ _)).
  destruct (chain_lookup _ _ 0 t Hmain eq_refl) as (ndt & Ht & Hnext).
  destruct s as [ns hd ftl tl fhd].
  pose proof (rep_tail _ _ _ _ H) as Htl.
  pose proof (rep_free_head _ _ _ _ H) as Hfhd.
  cbn [nodes _head _tail _freeListTail _freeListHead] in *. subst tl.
  unfold payloads in Hpay. simpl in Hpay, Hnext.
  destruct Hpay as [|n v M' vs' Hv Hpay].
  - by apply call_dequeue_empty with (ndt := ndt).
  - simpl in Hnext.
    destruct (ns !! n) as [ndn|] eqn:Hn; simplify_eq/=.
    destruct (last F) as [fh|] eqn:Hlast;
      [|apply last_None in Hlast; by destruct (rep_free_ne _ _ _ _ H)].
    destruct (chain_last _ _ _ (rep_free _ _ _ _ H) Hlast) as (ndfh & Hfh & _).
    cbn [nodes] in Hfh.
    assert (fh <> t).
    { intros ->. apply Hdisj. by apply last_Some_elem_of. }
    destruct (call_dequeue_some ns hd ftl t n fh ndt ndn ndfh o output Ho Ht Hnext Hn Hfh)
      as (tr & Hcall & Htr & Hpush); [done|].
    eexists _, tr, t, (n :: M'). split; [exact Hcall|]. split; [done|]. split.
    + by eapply Rep_dequeue.
    + unfold allocations. cbn [nodes]. by rewrite !length_insert.
Qed.

(** The constructed queue is empty, with one sentinel on each list. *)
Lemma fresh_eq :
  fresh dflt = mkQueue [mkNode dflt None; mkNode dflt None] (Some 0) (Some 1) (Some 0) (Some 1).
Proof. reflexivity. Qed.

Lemma constructor_returns :
  exists tr, call dflt constructor unconstructed = Returns (tt, fresh dflt, tr).
Proof. eexists. reflexivity. Qed.

Lemma Rep_fresh : Rep (fresh dflt) [0] [1] [].
Proof.
  rewrite fresh_eq. constructor; simpl; try done.
  - by intros [|[|i]] a Hi; simplify_eq/=.
  - by intros [|[|i]] a Hi; simplify_eq/=.
  - apply NoDup_cons. split; [|apply NoDup_singleton].
    intros Hin%list_elem_of_singleton. done.
  - constructor.
Qed.

(** ** Histories *)

Lemma enqueues_is_enqueue (o : operation T) : enqueues o = true -> exists v, is_enqueue o v.
Proof. destruct o; try done; eexists; [by left|by right]. Qed.

Lemma dequeues_is_dequeue (o : operation T) : dequeues o = true -> is_dequeue o.
Proof. destruct o; try done; unfold is_dequeue; auto. Qed.

Lemma operation_cases (o : operation T) : (exists v, is_enqueue o v) \/ is_dequeue o.
Proof.
  destruct (enqueues o) eqn:E.
  - left. by apply enqueues_is_enqueue.
  - right. apply dequeues_is_dequeue. unfold dequeues. by rewrite E.
Qed.

Lemma exec_cons o ops output s r s' tr h s'' :
  call dflt (code o output) s = Returns (r, s', tr) ->
  exec dflt ops (output_after r output) s' = Returns (h, s'') ->
  exec dflt (o :: ops) output s = Returns ((o, r, tr) :: h, s'').
Proof. intros H1 H2. simpl. by rewrite H1, H2. Qed.

Lemma exec_app ops1 ops2 output s h1 s1 h2 s2 :
  exec dflt ops1 output s = Returns (h1, s1) ->
  exec dflt ops2 (final_output h1 output) s1 = Returns (h2, s2) ->
  exec dflt (ops1 ++ ops2) output s = Returns (h1 ++ h2, s2).
Proof.
  revert output s h1. induction ops1 as [|o ops1 IH]; intros output s h1 H1 H2; simpl in *.
  - by simplify_eq.
  - destruct (call dflt (code o output) s) as [[[r s'] tr]| |]; try done.
    destruct (exec dflt ops1 (output_after r output) s') as [[h s'']| |] eqn:E; try done.
    simplify_eq. by rewrite (IH _ _ _ E H2).
Qed.

Lemma enqueued_cons_enqueue o v r tr (h : list (entry T)) :
  is_enqueue o v -> enqueued ((o, r, tr) :: h) = v :: enqueued h.
Proof. by intros [-> | ->]. Qed.

Lemma enqueued_cons_dequeue o r tr (h : list (entry T)) :
  is_dequeue o -> enqueued ((o, r, tr) :: h) = enqueued h.
Proof. by intros [-> | [-> | ->]]. Qed.

(** First in, first out: along any history the values enqueued so far are
    the values dequeued so far followed by those still in the queue. *)
Lemma exec_fifo ops output s M F vs :
  Rep s M F vs ->
  exists h s' M' F' vs',
    exec dflt ops output s = Returns (h, s') /\
    calls h = ops /\
    Rep s' M' F' vs' /\
    vs ++ enqueued h = dequeued_values h ++ vs'.
Proof.
  revert output s M F vs. induction ops as [|o ops IH]; intros output s M F vs H.
  - exists [], s, M, F, vs. by rewrite app_nil_r.
  - destruct (operation_cases o) as [[v Ho]|Ho].
    + destruct (enqueue_spec s M F vs o v output H Ho) as (s' & tr & x & F' & Hcall & H' & _).
      destruct (IH output s' _ _ _ H') as (h & s'' & M'' & F'' & vs'' & Hex & Hops & H'' & Heq).
      exists ((o, done, tr) :: h), s'', M'', F'', vs''. split_and!; [|by simpl; f_equal|done|].
      * by eapply exec_cons.
      * rewrite (enqueued_cons_enqueue _ v) by done.
        change (dequeued_values ((o, done, tr) :: h)) with (dequeued_values h).
        rewrite <- Heq, <- app_assoc. done.
    + pose proof (dequeue_spec s M F vs o output H Ho) as Hd.
      destruct vs as [|v vs].
      * destruct Hd as (tr & Hcall).
        destruct (IH output s _ _ _ H) as (h & s'' & M'' & F'' & vs'' & Hex & Hops & H'' & Heq).
        exists ((o, dequeued false output, tr) :: h), s'', M'', F'', vs''.
        split_and!; [|by simpl; f_equal|done|].
        -- by eapply exec_cons.
        -- by rewrite enqueued_cons_dequeue.
      * destruct Hd as (s' & tr & t & M' & Hcall & -> & H' & _).
        destruct (IH v s' _ _ _ H') as (h & s'' & M'' & F'' & vs'' & Hex & Hops & H'' & Heq).
        exists ((o, dequeued true v, tr) :: h), s'', M'', F'', vs''.
        split_and!; [|by simpl; f_equal|done|].
        -- by eapply exec_cons.
        -- rewrite enqueued_cons_dequeue by done.
           change (dequeued_values ((o, dequeued true v, tr) :: h)) with (v :: dequeued_values h).
           simpl. by rewrite Heq.
Qed.

(** Enqueues while the freelist holds only its sentinel: each allocates. *)
Lemma exec_enqueues_allocating ops output s M f vs :
  Rep s M [f] vs -> forallb enqueues ops = true ->
  exists h s' M' vs',
    exec dflt ops output s = Returns (h, s') /\ calls h = ops /\
    Rep s' M' [f] vs' /\
    length vs' = length vs + length ops /\
    allocations s' = allocations s + length ops.
Proof.
  revert output s M vs. induction ops as [|o ops IH]; intros output s M vs H Hops.
  - exists [], s, M, vs. split_and!; try done; simpl; lia.
  - apply andb_prop in Hops as [[v Ho]%Is_true_true_2%Is_true_true_1%enqueues_is_enqueue Hops].
    destruct (enqueue_spec s M [f] vs o v output H Ho)
      as (s' & tr & x & F' & Hcall & H' & [(_ & -> & Hal & _)|(Hf & _)]);
      [|simplify_eq; by destruct (rep_free_ne _ _ _ _ H')].
    destruct (IH output s' _ _ H' Hops) as (h & s'' & M'' & vs'' & Hex & Hc & H'' & Hlen & Hal').
    exists ((o, done, tr) :: h), s'', M'', vs''. split_and!; [|by simpl; f_equal|done| |].
    + by eapply exec_cons.
    + rewrite Hlen, length_app. simpl. lia.
    + rewrite Hal', Hal. simpl. lia.
Qed.

(** Dequeues that find an element: none allocates, each retires one node
    to the freelist. *)
Lemma exec_dequeues_hitting ops output s M F vs :
  Rep s M F vs -> forallb dequeues ops = true -> length ops <= length vs ->
  exists h s' M' F' vs',
    exec dflt ops output s = Returns (h, s') /\ calls h = ops /\
    Rep s' M' F' vs' /\
    length vs' = length vs - length ops /\
    length F' = length F + length ops /\
    allocations s' = allocations s /\
    forallb retired_node h = true.
Proof.
  revert output s M F vs. induction ops as [|o ops IH]; intros output s M F vs H Hops Hlen.
  - exists [], s, M, F, vs. split_and!; try done; simpl; lia.
  - apply andb_prop in Hops as [Ho%dequeues_is_dequeue Hops].
    pose proof (dequeue_spec s M F vs o output H Ho) as Hd.
    destruct vs as [|v vs]; [simpl in Hlen; lia|].
    destruct Hd as (s' & tr & t & M' & Hcall & -> & H' & Hal & _ & Hpush).
    destruct (IH v s' _ _ _ H' Hops)
      as (h & s'' & M'' & F'' & vs'' & Hex & Hc & H'' & Hl1 & Hl2 & Hal' & Hret);
      [simpl in Hlen; lia|].
    exists ((o, dequeued true v, tr) :: h), s'', M'', F'', vs''.
    split_and!; [|by simpl; f_equal|done| | | |].
    + by eapply exec_cons.
    + rewrite Hl1. simpl. lia.
    + rewrite Hl2, length_app. simpl. lia.
    + by rewrite Hal'.
    + simpl. rewrite Hret. unfold retired_node. simpl. by rewrite Hpush.
Qed.

(** Enqueues while the freelist holds more than its sentinel: each takes
    its node from the freelist and none allocates. *)
Lemma exec_enqueues_reusing ops output s M F vs :
  Rep s M F vs -> forallb enqueues ops = true -> length ops < length F ->
  exists h s' M' F' vs',
    exec dflt ops output s = Returns (h, s') /\ calls h = ops /\
    Rep s' M' F' vs' /\
    allocations s' = allocations s /\
    forallb reused_node h = true.
Proof.
  revert output s M F vs. induction ops as [|o ops IH]; intros output s M F vs H Hops Hlen.
  - by exists [], s, M, F, vs.
  - apply andb_prop in Hops as [[v Ho]%Is_true_true_2%Is_true_true_1%enqueues_is_enqueue Hops].
    destruct (enqueue_spec s M F vs o v output H Ho)
      as (s' & tr & x & F' & Hcall & H' & [(HF & _)|(-> & Hal & Htr1 & Htr2)]);
      [simpl in Hlen; lia|].
    destruct (IH output s' _ _ _ H' Hops) as (h & s'' & M'' & F'' & vs'' & Hex & Hc & H'' & Hal' & Hre);
      [simpl in Hlen; lia|].
    exists ((o, done, tr) :: h), s'', M'', F'', vs''.
    split_and!; [|by simpl; f_equal|done| |].
    + by eapply exec_cons.
    + by rewrite Hal'.
    + simpl. rewrite Hre. unfold reused_node. simpl. by rewrite Htr1, Htr2.
Qed.

(** ** Calls on arbitrary states *)

(** Wrapping the result does not change a run. *)
Lemma run_bind_ret {R S} (f : R -> S) n (t : prog R) s :
  run dflt n (ITree.bind t (fun r => Ret (f r))) s =
  match run dflt n t s with
  | Returns (r, s', tr) => Returns (f r, s', tr)
  | Undefined => Undefined
  | OutOfFuel => OutOfFuel
  end.
Proof.
  revert t s. induction n as [|n IH]; intros t s; [done|].
  rewrite !run_unfold, Shallow.observe_bind.
  destruct (observe t) as [r|t'|X e k]; [done|apply IH|]. cbn.
  destruct (handle dflt e s) as [[x s']|]; [|done].
  rewrite IH. by destruct (run dflt n (k x) s') as [[[??]?]| |].
Qed.

(** Alone on a queue whose [_tail] is null, [mcDequeue] exchanges and
    yields for ever. *)
Lemma mcDequeue_spins n output ns hd ftl fhd :
  run dflt n (mcDequeue output) (mkQueue ns hd ftl nullptr fhd) = OutOfFuel.
Proof.
  induction n as [n IH] using lt_wf_ind.
  destruct n as [|[|[|n]]]; try done.
  unfold mcDequeue. rewrite run_unfold. cbn. rewrite run_unfold. cbn. rewrite run_unfold. cbn.
  fold (mcDequeue output). rewrite IH by lia. done.
Qed.

(** Case analysis of a run on an arbitrary state: unfold one step, reuse a
    lookup already made, or split on the pointer or node the next access
    reads. *)
Ltac inv_step H :=
  first
  [ match type of H with
    | context [run _ (S ?n) ?t ?s] => rewrite (run_unfold n t s) in H; cbn in H
    end
  | match goal with
    | E : ?l !! ?a = _ |- _ => rewrite E in H; cbn in H
    end
  | match type of H with
    | context [deref _ ?p] => is_var p; destruct p; cbn in H
    | context [mbind _ (?l !! ?a)] => destruct (l !! a) as [[? [?|]]|] eqn:?; cbn in H
    | context [decide ?P] => destruct (decide P); [|done]; cbn in H
    end ].

Ltac inv_run H := unfold call, max_steps in H; repeat inv_step H.

(** What a dequeue that returned is: either it found [next] of the
    sentinel null (or, for [mcDequeueLight], [_tail] itself) and left
    everything as it was, or it moved the payload of the successor out,
    made the successor the new sentinel and retired the old one. *)
Lemma dequeue_cases s o output b output' s' tr :
  dequeues o = true ->
  call dflt (code o output) s = Returns (dequeued b output', s', tr) ->
  (b = false /\ s' = s /\ output' = output /\
   match o with
   | op_scDequeue =>
       exists t, tr = [Ev (Load Tail relaxed) (Some t);
                       Ev (NextLoad (Some t) acquire) nullptr]
   | op_mcDequeue =>
       exists t, tr = [Ev (Exchange Tail nullptr acq_rel) (Some t);
                       Ev (NextLoad (Some t) acquire) nullptr;
                       Ev (Exchange Tail (Some t) acq_rel) nullptr]
   | _ =>
       (_tail s = nullptr /\ tr = [Ev (Exchange Tail nullptr acq_rel) nullptr]) \/
       exists t, tr = [Ev (Exchange Tail nullptr acq_rel) (Some t);
                       Ev (NextLoad (Some t) acquire) nullptr;
                       Ev (Exchange Tail (Some t) acq_rel) nullptr]
   end)
  \/
  (b = true /\
   exists t n ndt ndn,
     _tail s = Some t /\ nodes s !! t = Some ndt /\ next ndt = Some n /\
     nodes s !! n = Some ndn /\ output' = data ndn /\
     _tail s' = Some n /\ _head s' = _head s /\ _freeListHead s' = Some t).
Proof.
  intros Ho H. destruct s as [ns hd ftl tl fhd].
  destruct o; try done; cbn [code] in H; destruct tl as [t|].
  4: { unfold call in H. rewrite run_bind_ret in H. by rewrite mcDequeue_spins in H. }
  all: unfold scDequeue, mcDequeue, mcDequeueLight, freeListEnqueue in H.
  all: inv_run H; simplify_eq;
    first
      [ right; split; [done|]; eexists _, _, _, _; by split_and!
      | left; split_and!; [done..|];
        first [ by eexists | left; by split | right; by eexists ] ].
Qed.

(** An enqueue that returned has stored the node it acquired, a non-null
    pointer, into [_head] and has not touched [_tail]. *)
Lemma enqueue_cases s o output r s' tr :
  enqueues o = true ->
  call dflt (code o output) s = Returns (r, s', tr) ->
  r = done /\ _tail s' = _tail s /\ exists x, _head s' = Some x.
Proof.
  intros Ho H. destruct s as [ns hd ftl tl fhd].
  destruct o; try done; cbn [code] in H;
    unfold spEnqueue, mpEnqueue, acquireOrAllocate, freeListTryDequeue in H.
  all: inv_run H; simplify_eq; by eauto.
Qed.

(** Sixteen steps are enough: a larger budget gives the same outcome. *)
Lemma call_adequate o output s n :
  max_steps <= n -> run dflt n (code o output) s = call dflt (code o output) s.
Proof.
  intros Hn. destruct (call dflt (code o output) s) as [x| |] eqn:H.
  - unfold call in H. rewrite <- H. apply run_mono; [by rewrite H|done].
  - unfold call in H. rewrite <- H. apply run_mono; [by rewrite H|done].
  - destruct s as [ns hd ftl tl fhd].
    destruct o; cbn [code] in H |- *.
    3,4,5: destruct tl as [t|].
    6: { by rewrite run_bind_ret, mcDequeue_spins. }
    all: exfalso.
    all: unfold spEnqueue, mpEnqueue, acquireOrAllocate, freeListTryDequeue,
           scDequeue, mcDequeue, mcDequeueLight, freeListEnqueue in H.
    all: by inv_run H.
Qed.


Lemma exec_reachable ops output s h s' :
  reachable dflt s -> exec dflt ops output s = Returns (h, s') -> reachable dflt s'.
Proof.
  revert output s h. induction ops as [|o ops IH]; intros output s h Hs Hex; simpl in Hex.
  - by simplify_eq.
  - destruct (call dflt (code o output) s) as [[[r s1] tr]| |] eqn:Hcall; try done.
    destruct (exec dflt ops (output_after r output) s1) as [[h1 s2]| |] eqn:Hex1; try done.
    simplify_eq. eapply IH; [|exact Hex1]. by eapply reachable_call.
Qed.

Lemma reachable_Rep s : reachable dflt s -> exists M F, Rep s M F (contents s).
Proof.
  induction 1 as [|s o output r s' tr _ (M & F & H) Hcall].
  - exists [0], [1]. rewrite (Rep_contents _ _ _ _ Rep_fresh). apply Rep_fresh.
  - destruct (operation_cases o) as [[v Ho]|Ho].
    + destruct (enqueue_spec s M F _ o v output H Ho) as (s1 & tr1 & x & F' & Hcall1 & H' & _).
      rewrite Hcall in Hcall1. simplify_eq.
      exists (M ++ [x]), F'. by rewrite (Rep_contents _ _ _ _ H').
    + pose proof (dequeue_spec s M F _ o output H Ho) as Hd.
      destruct (contents s) as [|v vs].
      * destruct Hd as (tr1 & Hcall1). rewrite Hcall in Hcall1. simplify_eq.
        exists M, F. by rewrite (Rep_contents _ _ _ _ H).
      * destruct Hd as (s1 & tr1 & t & M' & Hcall1 & -> & H' & _).
        rewrite Hcall in Hcall1. simplify_eq.
        exists M', (F ++ [t]). by rewrite (Rep_contents _ _ _ _ H').
Qed.


Lemma Rep_reachable_ends s M F vs :
  Rep s M F vs -> _head s <> nullptr /\ _tail s <> nullptr.
Proof.
  intros H. rewrite (rep_head _ _ _ _ H), (rep_tail _ _ _ _ H).
  pose proof (rep_main_ne _ _ _ _ H) as Hne. split.
  - intros Hl%last_None. done.
  - by destruct M.
Qed.

Lemma call_code_dequeue (member : T -> prog (bool * T)) output s b output' s' tr :
  run dflt max_steps (ITree.bind (member output) (fun r => Ret (dequeued r.1 r.2))) s
    = Returns (dequeued b output', s', tr) <->
  call dflt (member output) s = Returns ((b, output'), s', tr).
Proof.
  unfold call. rewrite run_bind_ret.
  destruct (run dflt max_steps (member output) s) as [[[[b0 o0] s0] tr0]| |]; simpl;
    split; intros; by simplify_eq.
Qed.

(** C3 (head and tail are never null between calls).  In every state a
    client reaches from the constructed queue by calls of the public member
    functions, [_head] and [_tail] are non-null; and each public member
    function, taken as one step from any state in which both are non-null,
    returns only in a state in which both are non-null again.  This covers
    [mcDequeue] and [mcDequeueLight], whose first access exchanges [_tail]
    with null: they store a non-null pointer back before they return. *)
Theorem head_and_tail_never_null :
  (forall s, reachable dflt s -> _head s <> nullptr /\ _tail s <> nullptr) /\
  (forall s o output r s' tr,
     _head s <> nullptr -> _tail s <> nullptr ->
     call dflt (code o output) s = Returns (r, s', tr) ->
     _head s' <> nullptr /\ _tail s' <> nullptr).
Proof.
  split.
  - intros s (M & F & H)%reachable_Rep. by eapply Rep_reachable_ends.
  - intros s o output r s' tr Hh Ht Hcall.
    destruct (enqueues o) eqn:Ho.
    + destruct (enqueue_cases _ _ _ _ _ _ Ho Hcall) as (_ & -> & x & ->). done.
    + assert (exists b output', r = dequeued b output') as (b & output' & ->).
      { unfold call in Hcall. destruct o; try done; cbn [code] in Hcall;
          rewrite run_bind_ret in Hcall;
          match type of Hcall with
          | context [run ?d ?n ?t ?s] => destruct (run d n t s) as [[[[??]?]?]| |]
          end; simplify_eq; eauto. }
      destruct (dequeue_cases s o output b output' s' tr) as
        [(_ & -> & _)|(_ & t & n & ndt & ndn & _ & _ & _ & _ & _ & -> & -> & _)];
        [by unfold dequeues; rewrite Ho|done|done..].
Qed.

(** Inside an [mcDequeue] or [mcDequeueLight] the slot is null: the first
    atomic step of either leaves [_tail] null until the same call stores a
    pointer back. *)
Lemma mc_dequeues_hold_tail s output :
  (exists rest, step dflt 2 (mcDequeue output) s = Returns (inr rest, set Tail nullptr s)) /\
  (exists rest, step dflt 2 (mcDequeueLight output) s = Returns (inr rest, set Tail nullptr s)).
Proof. split; eexists; reflexivity. Qed.

(** C4 ([mcDequeueLight]).  On a state a client has reached, the call
    returns [true] exactly when the queue holds an element: it then writes
    the front element to [output] and leaves the rest; on the empty queue
    it returns [false] after putting back the tail it took.  When the tail
    slot holds null (another consumer holds it) the call makes its one
    exchange and returns [false] at once: the exchange is its only access,
    and nothing is changed. *)
Theorem mcDequeueLight_result (s : queue T) (output : T) :
  reachable dflt s ->
  match contents s with
  | [] =>
      exists t,
        call dflt (mcDequeueLight output) s
        = Returns ((false, output), s,
                   [Ev (Exchange Tail nullptr acq_rel) (Some t);
                    Ev (NextLoad (Some t) acquire) nullptr;
                    Ev (Exchange Tail (Some t) acq_rel) nullptr])
  | v :: vs =>
      exists s' tr,
        call dflt (mcDequeueLight output) s = Returns ((true, v), s', tr) /\
        contents s' = vs
  end /\
  call dflt (mcDequeueLight output) (set Tail nullptr s)
  = Returns ((false, output), set Tail nullptr s,
             [Ev (Exchange Tail nullptr acq_rel) nullptr]).
Proof.
  intros (M & F & H)%reachable_Rep. split; [|by destruct s].
  assert (Ho : is_dequeue (op_mcDequeueLight (T:=T))) by (unfold is_dequeue; auto).
  pose proof (dequeue_spec s M F _ _ output H Ho) as Hd.
  destruct (contents s) as [|v vs].
  - destruct Hd as (tr & Hcall).
    destruct (dequeue_cases _ op_mcDequeueLight _ _ _ _ _ eq_refl Hcall)
      as [(_ & _ & _ & [(Hnull & _)|(t & ->)])|(? & _)]; [| |done].
    + by destruct (Rep_reachable_ends _ _ _ _ H).
    + exists t. by apply call_code_dequeue in Hcall.
  - destruct Hd as (s' & tr & t & M' & Hcall & -> & H' & _).
    exists s', tr. split; [by apply call_code_dequeue in Hcall|].
    by eapply Rep_contents.
Qed.

(** C10 (failed dequeues change nothing).  When [scDequeue], [mcDequeue]
    or [mcDequeueLight] returns [false], on any state, the whole object
    (the four pointers and every node, hence the main list and the
    freelist) is as it was before the call and [output] keeps its value;
    the accesses made are loads and, in the multi-consumer dequeues, the
    exchange that takes the tail and, on the empty branch, the exchange
    that puts the same pointer back. *)
Theorem failed_dequeue_changes_nothing (s : queue T) (o : operation T)
    (output output' : T) (s' : queue T) (tr : list (event T)) :
  dequeues o = true ->
  call dflt (code o output) s = Returns (dequeued false output', s', tr) ->
  s' = s /\ output' = output /\
  match o with
  | op_scDequeue =>
      exists t, tr = [Ev (Load Tail relaxed) (Some t);
                      Ev (NextLoad (Some t) acquire) nullptr]
  | op_mcDequeue =>
      exists t, tr = [Ev (Exchange Tail nullptr acq_rel) (Some t);
                      Ev (NextLoad (Some t) acquire) nullptr;
                      Ev (Exchange Tail (Some t) acq_rel) nullptr]
  | _ =>
      (_tail s = nullptr /\ tr = [Ev (Exchange Tail nullptr acq_rel) nullptr]) \/
      exists t, tr = [Ev (Exchange Tail nullptr acq_rel) (Some t);
                      Ev (NextLoad (Some t) acquire) nullptr;
                      Ev (Exchange Tail (Some t) acq_rel) nullptr]
  end.
Proof.
  intros Ho Hcall.
  by destruct (dequeue_cases _ _ _ _ _ _ _ Ho Hcall) as [(_ & ? & ? & ?)|(? & _)].
Qed.

(** C2 (conservation).  Whatever calls a client makes on a constructed
    queue, every one returns; the values its successful dequeues returned
    form a sub-multiset of the values it enqueued, and once the queue is
    empty again the two multisets are equal. *)
Theorem conservation (ops : list (operation T)) (output : T) :
  exists h s,
    exec dflt ops output (fresh dflt) = Returns (h, s) /\
    calls h = ops /\
    dequeued_values h ⊆+ enqueued h /\
    (contents s = [] -> dequeued_values h ≡ₚ enqueued h).
Proof.
  destruct (exec_fifo ops output _ _ _ _ Rep_fresh) as (h & s & M & F & vs & Hex & Hc & H & Heq).
  exists h, s. simpl in Heq. rewrite (Rep_contents _ _ _ _ H). split_and!; try done.
  - rewrite Heq. apply submseteq_inserts_r. done.
  - intros ->. by rewrite Heq, app_nil_r.
Qed.

(** C8 (freelist reuse).  [K] enqueues, then [K] dequeues, then [K]
    enqueues on a constructed queue all return and leave [K + 2] nodes
    allocated, the two sentinels of the constructor included: every dequeue
    of the second round pushes the node it retires onto the freelist, and
    every enqueue of the third round takes its node from the freelist by a
    successful [compare_exchange_strong] of [freeListTryDequeue] and
    performs no [new]. *)
Theorem freelist_reuse (K : nat) (round1 round2 round3 : list (operation T)) (output : T) :
  length round1 = K -> length round2 = K -> length round3 = K ->
  forallb enqueues round1 = true ->
  forallb dequeues round2 = true ->
  forallb enqueues round3 = true ->
  exists h1 h2 h3 s,
    exec dflt (round1 ++ round2 ++ round3) output (fresh dflt) = Returns (h1 ++ h2 ++ h3, s) /\
    calls h1 = round1 /\ calls h2 = round2 /\ calls h3 = round3 /\
    allocations s = K + 2 /\
    forallb retired_node h2 = true /\
    forallb reused_node h3 = true.
Proof.
  intros HK1 HK2 HK3 H1 H2 H3.
  destruct (exec_enqueues_allocating round1 output _ _ _ _ Rep_fresh H1)
    as (h1 & s1 & M1 & vs1 & Hex1 & Hc1 & Hrep1 & Hlen1 & Hal1).
  destruct (exec_dequeues_hitting round2 (final_output h1 output) _ _ _ _ Hrep1 H2)
    as (h2 & s2 & M2 & F2 & vs2 & Hex2 & Hc2 & Hrep2 & _ & Hlen2 & Hal2 & Hret);
    [simpl in Hlen1; lia|].
  destruct (exec_enqueues_reusing round3 (final_output h2 (final_output h1 output))
              _ _ _ _ Hrep2 H3)
    as (h3 & s3 & M3 & F3 & vs3 & Hex3 & Hc3 & Hrep3 & Hal3 & Hre);
    [simpl in Hlen2; lia|].
  exists h1, h2, h3, s3. split_and!; try done.
  - eapply exec_app; [exact Hex1|]. eapply exec_app; [exact Hex2|exact Hex3].
  - rewrite Hal3, Hal2, Hal1, HK1. rewrite fresh_eq. simpl. lia.
Qed.

(** X9 (calls run alone come to an end).  Run alone, a call is never held
    up: on any state of the object, each
    public member function returns or meets undefined behaviour within
    [max_steps] steps, so that a larger budget changes nothing.  The one
    exception is [mcDequeue] on a null [_tail], which no budget brings to
    an end. *)
Theorem uncontended_calls_end (s : queue T) (o : operation T) (output : T) :
  (o = op_mcDequeue /\ _tail s = nullptr /\
   forall n, run dflt n (code o output) s = OutOfFuel) \/
  (call dflt (code o output) s <> OutOfFuel /\
   forall n, max_steps <= n ->
     run dflt n (code o output) s = call dflt (code o output) s).
Proof.
  destruct (call dflt (code o output) s) as [x| |] eqn:H.
  - right. split; [done|]. intros n Hn. rewrite <- H. unfold call.
    apply run_mono; [|done]. unfold call in H. by rewrite H.
  - right. split; [done|]. intros n Hn. rewrite <- H. unfold call.
    apply run_mono; [|done]. unfold call in H. by rewrite H.
  - left. destruct s as [ns hd ftl tl fhd].
    destruct o; cbn [code] in H |- *.
    3,4,5: destruct tl as [t|].
    6: { split_and!; [done|done|]. intros n. by rewrite run_bind_ret, mcDequeue_spins. }
    all: exfalso.
    all: unfold spEnqueue, mpEnqueue, acquireOrAllocate, freeListTryDequeue,
           scDequeue, mcDequeue, mcDequeueLight, freeListEnqueue in H.
    all: by inv_run H.
Qed.

End Sequential.

(** C1 (sequential round trip).  On a constructed queue, [spEnqueue] of 1,
    2 and 3 followed by four [scDequeue] calls gives [(true, 1)],
    [(true, 2)], [(true, 3)] and then [false], the last call leaving
    [output] as it was. *)
Theorem round_trip (output : Z) :
  exists h s,
    exec 0%Z [op_spEnqueue 1%Z; op_spEnqueue 2%Z; op_spEnqueue 3%Z;
              op_scDequeue; op_scDequeue; op_scDequeue; op_scDequeue]
         output (fresh 0%Z) = Returns (h, s) /\
    results h = [done; done; done;
                 dequeued true 1%Z; dequeued true 2%Z; dequeued true 3%Z;
                 dequeued false 3%Z].
Proof. eexists _, _. split; vm_compute; reflexivity. Qed.

Lemma freelist_reuse_witness :
  exists h1 h2 h3 s,
    exec 0%Z ([op_spEnqueue 5%Z; op_mpEnqueue 6%Z] ++ [op_scDequeue; op_mcDequeue]
              ++ [op_mpEnqueue 7%Z; op_spEnqueue 8%Z]) 0%Z (fresh 0%Z)
    = Returns (h1 ++ h2 ++ h3, s) /\
    calls h1 = [op_spEnqueue 5%Z; op_mpEnqueue 6%Z] /\
    calls h2 = [op_scDequeue; op_mcDequeue] /\
    calls h3 = [op_mpEnqueue 7%Z; op_spEnqueue 8%Z] /\
    allocations s = 2 + 2 /\
    forallb retired_node h2 = true /\
    forallb reused_node h3 = true.
Proof.
  apply (freelist_reuse 0%Z 2); reflexivity.
Defined.

Lemma holding_7_reachable : reachable 0%Z holding_7.
Proof.
  apply (exec_reachable 0%Z [op_spEnqueue 7%Z] 0%Z (fresh 0%Z)
           (match exec 0%Z [op_spEnqueue 7%Z] 0%Z (fresh 0%Z) with
            | Returns (h, _) => h
            | _ => []
            end)).
  - apply reachable_fresh.
  - vm_compute. reflexivity.
Qed.

Lemma mcDequeueLight_result_witness :
  reachable 0%Z holding_7 /\
  (exists s' tr,
     call 0%Z (mcDequeueLight 0%Z) holding_7 = Returns ((true, 7%Z), s', tr) /\
     contents s' = []) /\
  call 0%Z (mcDequeueLight 0%Z) (set Tail nullptr holding_7)
  = Returns ((false, 0%Z), set Tail nullptr holding_7,
             [Ev (Exchange Tail nullptr acq_rel) nullptr]).
Proof.
  split; [exact holding_7_reachable|].
  apply (mcDequeueLight_result 0%Z holding_7 0%Z holding_7_reachable).
Defined.

Lemma failed_dequeue_changes_nothing_witness :
  dequeues (op_mcDequeue (T:=Z)) = true /\
  call 0%Z (code op_mcDequeue 5%Z) (fresh 0%Z)
  = Returns (dequeued false 5%Z, fresh 0%Z,
             [Ev (Exchange Tail nullptr acq_rel) (Some 0);
              Ev (NextLoad (Some 0) acquire) nullptr;
              Ev (Exchange Tail (Some 0) acq_rel) nullptr]) /\
  fresh 0%Z = fresh 0%Z /\ 5%Z = 5%Z /\
  exists t,
    [Ev (Exchange Tail nullptr acq_rel) (Some 0);
     Ev (NextLoad (Some 0) acquire) nullptr;
     Ev (Exchange Tail (Some 0) acq_rel) nullptr]
    = [Ev (T:=Z) (Exchange Tail nullptr acq_rel) (Some t);
       Ev (NextLoad (Some t) acquire) nullptr;
       Ev (Exchange Tail (Some t) acq_rel) nullptr].
Proof.
  split; [reflexivity|]. split; [vm_compute; reflexivity|].
  apply (failed_dequeue_changes_nothing 0%Z (fresh 0%Z) op_mcDequeue 5%Z 5%Z (fresh 0%Z)).
  - reflexivity.
  - vm_compute. reflexivity.
Defined.

(** A consumer that has made the first step of [mcDequeue] holds the tail:
    until it goes on, [mcDequeueLight] of a second consumer returns [false]
    although the queue holds 7, and [mcDequeue] of a second consumer keeps
    spinning. *)
Example contended_queue :
  exists rest held,
    step 0%Z 2 (mcDequeue 0%Z) holding_7
    = Returns (inr rest, held) /\
    _tail held = nullptr /\
    call 0%Z (mcDequeueLight 0%Z) held
    = Returns ((false, 0%Z), held, [Ev (Exchange Tail nullptr acq_rel) nullptr]) /\
    (forall n, run 0%Z n (mcDequeue 0%Z) held = OutOfFuel) /\
    exists s' tr, run 0%Z max_steps rest held = Returns ((true, 7%Z), s', tr).
Proof.
  eexists _, _. split; [reflexivity|]. split_and!.
  - reflexivity.
  - reflexivity.
  - intros n. apply mcDequeue_spins.
  - eexists _, _. vm_compute. reflexivity.
Qed.

(** * The unbounded linked queue: what its clients can rely on *)

Section Clients.

Context {T : Type} (dflt : T).

Implicit Types (s : queue T) (ns : list (listNode T)) (M F : list nat) (vs : list T).

Lemma Rep_main_length s M F vs : Rep s M F vs -> length M = S (length vs).
Proof.
  intros H. pose proof (rep_payloads _ _ _ _ H) as Hp.
  apply Forall2_length in Hp. pose proof (rep_main_ne _ _ _ _ H).
  destruct M; [done|]. simpl in *. lia.
Qed.

(** Every node of the arena is on the main list or on the freelist. *)
Lemma reachable_accounted s :
  reachable dflt s ->
  exists M F, Rep s M F (contents s) /\ allocations s = length M + length F.
Proof.
  induction 1 as [|s o output r s' tr _ (M & F & H & Hal) Hcall].
  - exists [0], [1]. rewrite (Rep_contents _ _ _ _ (Rep_fresh dflt)).
    split; [apply Rep_fresh|]. by rewrite fresh_eq.
  - destruct (operation_cases o) as [[v Ho]|Ho].
    + destruct (enqueue_spec dflt s M F _ o v output H Ho)
        as (s1 & tr1 & x & F' & Hcall1 & H' & Hcase).
      rewrite Hcall in Hcall1. simplify_eq.
      exists (M ++ [x]), F'. rewrite (Rep_contents _ _ _ _ H'). split; [done|].
      rewrite length_app. simpl.
      destruct Hcase as [(HF & -> & Hal' & _)|(-> & Hal' & _)]; rewrite Hal', Hal; simpl; lia.
    + pose proof (dequeue_spec dflt s M F _ o output H Ho) as Hd.
      destruct (contents s) as [|v vs].
      * destruct Hd as (tr1 & Hcall1). rewrite Hcall in Hcall1. simplify_eq.
        exists M, F. by rewrite (Rep_contents _ _ _ _ H).
      * destruct Hd as (s1 & tr1 & t & M' & Hcall1 & -> & H' & Hal' & _).
        rewrite Hcall in Hcall1. simplify_eq.
        exists M', (F ++ [t]). rewrite (Rep_contents _ _ _ _ H'). split; [done|].
        rewrite Hal', Hal, length_app. simpl. lia.
Qed.

Lemma accounted_permutation s M F vs :
  Rep s M F vs -> allocations s = length M + length F ->
  M ++ F ≡ₚ seq 0 (allocations s).
Proof.
  intros H Hal. apply submseteq_length_Permutation.
  - apply NoDup_submseteq; [apply H|].
    intros a Ha. apply elem_of_seq. split; [lia|]. simpl. unfold allocations.
    apply elem_of_app in Ha as [Ha|Ha].
    + eapply chain_lt; [apply (rep_main _ _ _ _ H)|done].
    + eapply chain_lt; [apply (rep_free _ _ _ _ H)|done].
  - rewrite length_seq, length_app. lia.
Qed.

(** X5 (nodes are neither lost nor shared).  In every state a client
    reaches,
    the main list and the freelist together hold every node the queue has
    allocated, each exactly once. *)
Theorem nodes_partitioned s :
  reachable dflt s ->
  main_list s ++ free_list s ≡ₚ seq 0 (allocations s).
Proof.
  intros (M & F & H & Hal)%reachable_accounted.
  rewrite (Rep_main_list _ _ _ _ H), (Rep_free_list _ _ _ _ H).
  by eapply accounted_permutation.
Qed.

(** X1 (first in, first out).  Whatever calls a client makes from a state
    it has reached, all return, and what the queue held followed by the values
    enqueued is, in this order, the values dequeued followed by what the
    queue holds at the end. *)
Theorem fifo_order s (ops : list (operation T)) (output : T) :
  reachable dflt s ->
  exists h s',
    exec dflt ops output s = Returns (h, s') /\
    calls h = ops /\
    contents s ++ enqueued h = dequeued_values h ++ contents s'.
Proof.
  intros (M & F & H)%reachable_Rep.
  destruct (exec_fifo dflt ops output _ _ _ _ H) as (h & s' & M' & F' & vs' & Hex & Hc & H' & Heq).
  exists h, s'. by rewrite (Rep_contents _ _ _ _ H').
Qed.

(** ** The members of each kind are interchangeable when run alone *)

Lemma call_code_enqueue (member : prog unit) s s' tr :
  run dflt max_steps (ITree.bind member (fun _ => Ret (done (T:=T)))) s = Returns (done, s', tr) <->
  call dflt member s = Returns (tt, s', tr).
Proof.
  unfold call. rewrite (run_bind_ret dflt (fun _ : unit => done)).
  destruct (run dflt max_steps member s) as [[[[] s0] tr0]| |]; simpl;
    split; intros; by simplify_eq.
Qed.

Lemma enqueue_outcome s M F vs input output :
  Rep s M F vs ->
  exists s',
    (forall o, is_enqueue o input ->
       exists tr, call dflt (code o output) s = Returns (done, s', tr)) /\
    contents s' = vs ++ [input].
Proof.
  intros H.
  destruct (last M) as [h|] eqn:Hlast;
    [|apply last_None in Hlast; by destruct (rep_main_ne _ _ _ _ H)].
  destruct (chain_last _ _ _ (rep_main _ _ _ _ H) Hlast) as (ndh & Hh & _).
  pose proof (rep_free _ _ _ _ H) as Hfree.
  pose proof (rep_nodup _ _ _ _ H) as Hnd.
  destruct s as [ns hd ftl tl fhd].
  pose proof (rep_head _ _ _ _ H) as Hhd.
  pose proof (rep_free_tail _ _ _ _ H) as Hftl.
  cbn [nodes _head _tail _freeListTail _freeListHead] in *. subst hd ftl. rewrite Hlast in *.
  destruct F as [|f [|g F'']]; [by destruct (rep_free_ne _ _ _ _ H)| |].
  - destruct (chain_lookup _ _ 0 f Hfree eq_refl) as (ndf & Hf & Hnext).
    eexists. split.
    + intros o Ho.
      destruct (call_enqueue_alloc dflt ns h tl fhd f ndf ndh o input output Ho Hf Hnext Hh)
        as (tr & Hcall & _).
      exists tr. exact Hcall.
    + eapply Rep_contents, Rep_enqueue_alloc; eauto.
  - destruct (chain_lookup _ _ 0 f Hfree eq_refl) as (ndf & Hf & Hnext).
    assert (h <> f).
    { intros ->. apply NoDup_app in Hnd as (_ & Hdisj & _).
      apply (Hdisj f); [by apply last_Some_elem_of|left]. }
    eexists. split.
    + intros o Ho.
      destruct (call_enqueue_reuse dflt ns h tl fhd f g ndf ndh o input output Ho Hf Hnext Hh)
        as (tr & Hcall & _); [done|].
      exists tr. exact Hcall.
    + eapply Rep_contents, Rep_enqueue_reuse; eauto.
Qed.

Lemma dequeue_outcome s M F vs output :
  Rep s M F vs ->
  exists b output' s',
    (forall o, is_dequeue o ->
       exists tr, call dflt (code o output) s = Returns (dequeued b output', s', tr)) /\
    match vs with
    | [] => b = false /\ output' = output /\ s' = s
    | v :: vs' => b = true /\ output' = v /\ contents s' = vs'
    end.
Proof.
  intros H.
  pose proof (rep_main _ _ _ _ H) as Hmain.
  pose proof (rep_nodup _ _ _ _ H) as Hnd.
  pose proof (rep_payloads _ _ _ _ H) as Hpay.
  apply NoDup_app in Hnd as (_ & Hdisj & _).
  destruct M as [|t M0]; [by destruct (rep_main_ne _ _ _ _ H)|].
  specialize (Hdisj t (list_elem_of_here _ _)).
  destruct (chain_lookup _ _ 0 t Hmain eq_refl) as (ndt & Ht & Hnext).
  destruct s as [ns hd ftl tl fhd].
  pose proof (rep_tail _ _ _ _ H) as Htl.
  pose proof (rep_free_head _ _ _ _ H) as Hfhd.
  cbn [nodes _head _tail _freeListTail _freeListHead] in *. subst tl.
  unfold payloads in Hpay. simpl in Hpay, Hnext.
  destruct Hpay as [|n v M' vs' Hv Hpay].
  - exists false, output, (mkQueue ns hd ftl (Some t) fhd). split; [|done].
    intros o Ho. by apply call_dequeue_empty with (ndt := ndt).
  - simpl in Hnext.
    destruct (ns !! n) as [ndn|] eqn:Hn; simplify_eq/=.
    destruct (last F) as [fh|] eqn:Hlast;
      [|apply last_None in Hlast; by destruct (rep_free_ne _ _ _ _ H)].
    destruct (chain_last _ _ _ (rep_free _ _ _ _ H) Hlast) as (ndfh & Hfh & _).
    cbn [nodes] in Hfh.
    assert (fh <> t).
    { intros ->. apply Hdisj. by apply last_Some_elem_of. }
    eexists true, (data ndn), _. split.
    + intros o Ho.
      destruct (call_dequeue_some dflt ns hd ftl t n fh ndt ndn ndfh o output Ho Ht Hnext Hn Hfh)
        as (tr & Hcall & _); [done|].
      exists tr. exact Hcall.
    + split_and!; [done|done|].
      eapply Rep_contents, Rep_dequeue; eauto.
Qed.

(** X3 (the enqueues agree).  Run alone on a state a client has reached,
    [spEnqueue] and [mpEnqueue]
    of the same value both return and leave the same object, which holds
    the value behind what the queue held. *)
Theorem enqueues_agree s (input : T) :
  reachable dflt s ->
  exists s',
    (exists tr, call dflt (spEnqueue input) s = Returns (tt, s', tr)) /\
    (exists tr, call dflt (mpEnqueue input) s = Returns (tt, s', tr)) /\
    contents s' = contents s ++ [input].
Proof.
  intros (M & F & H)%reachable_Rep.
  destruct (enqueue_outcome s M F _ input input H) as (s' & Hall & Hc).
  exists s'. split_and!; [| |done].
  - destruct (Hall (op_spEnqueue input)) as (tr & Hcall); [by left|].
    exists tr. by apply call_code_enqueue.
  - destruct (Hall (op_mpEnqueue input)) as (tr & Hcall); [by right|].
    exists tr. by apply call_code_enqueue.
Qed.

(** X2 (the dequeues agree).  Run alone on a state a client has reached,
    [scDequeue], [mcDequeue] and
    [mcDequeueLight] all return the same [bool], leave the same value in
    [output] and leave the same object: [false] and no change on the empty
    queue, otherwise [true], the front element, and the rest in the
    queue. *)
Theorem dequeues_agree s (output : T) :
  reachable dflt s ->
  exists b output' s',
    (exists tr, call dflt (scDequeue output) s = Returns ((b, output'), s', tr)) /\
    (exists tr, call dflt (mcDequeue output) s = Returns ((b, output'), s', tr)) /\
    (exists tr, call dflt (mcDequeueLight output) s = Returns ((b, output'), s', tr)) /\
    match contents s with
    | [] => b = false /\ output' = output /\ s' = s
    | v :: vs => b = true /\ output' = v /\ contents s' = vs
    end.
Proof.
  intros (M & F & H)%reachable_Rep.
  destruct (dequeue_outcome s M F _ output H) as (b & output' & s' & Hall & Hc).
  exists b, output', s'. split_and!; [| | |done].
  - destruct (Hall op_scDequeue) as (tr & Hcall); [by left|].
    exists tr. by apply (call_code_dequeue dflt scDequeue).
  - destruct (Hall op_mcDequeue) as (tr & Hcall); [by right; left|].
    exists tr. by apply (call_code_dequeue dflt mcDequeue).
  - destruct (Hall op_mcDequeueLight) as (tr & Hcall); [by right; right|].
    exists tr. by apply (call_code_dequeue dflt mcDequeueLight).
Qed.

(** ** A consumer that meets a held tail *)

(** X10 (a held tail).  The first access of [mcDequeue] leaves [_tail] null
    until the call
    stores a pointer back.  In that state, whatever the rest of the object,
    [scDequeue] dereferences the null pointer it loads, and [mcDequeue],
    run alone, exchanges and yields without ever returning. *)
Theorem dequeues_on_held_tail s (output output2 : T) :
  (exists rest,
     step dflt 2 (mcDequeue output) s = Returns (inr rest, set Tail nullptr s)) /\
  call dflt (scDequeue output2) (set Tail nullptr s) = Undefined /\
  (forall n, run dflt n (mcDequeue output2) (set Tail nullptr s) = OutOfFuel).
Proof.
  split_and!.
  - eexists. reflexivity.
  - by destruct s.
  - intros n. destruct s. apply mcDequeue_spins.
Qed.

(** ** Where the nodes go *)

(** X4 (node recycling).  Nodes are recycled first in, first out.  From a
    state a client has
    reached, an enqueue links one node behind the main list: the node at
    the front of the freelist when the freelist holds more than its
    sentinel, and otherwise a newly allocated one, the freelist staying as
    it is.  A dequeue that returns [true] takes the old sentinel off the
    main list and puts it at the back of the freelist, allocating nothing;
    a dequeue that returns [false] changes nothing. *)
Theorem node_recycling s (o : operation T) (output : T) r s' tr :
  reachable dflt s ->
  call dflt (code o output) s = Returns (r, s', tr) ->
  match r with
  | done =>
      exists x,
        main_list s' = main_list s ++ [x] /\
        match free_list s with
        | [] => False
        | [_] =>
            free_list s' = free_list s /\ x = allocations s /\
            allocations s' = S (allocations s)
        | f :: F' =>
            x = f /\ free_list s' = F' /\ allocations s' = allocations s
        end
  | dequeued true _ =>
      exists t,
        main_list s = t :: main_list s' /\ free_list s' = free_list s ++ [t] /\
        allocations s' = allocations s
  | dequeued false _ => s' = s
  end.
Proof.
  intros (M & F & H & Hal)%reachable_accounted Hcall.
  rewrite (Rep_main_list _ _ _ _ H), (Rep_free_list _ _ _ _ H).
  destruct (operation_cases o) as [[v Ho]|Ho].
  - destruct (enqueue_spec dflt s M F _ o v output H Ho)
      as (s1 & tr1 & x & F' & Hcall1 & H' & Hcase).
    rewrite Hcall in Hcall1. simplify_eq.
    rewrite (Rep_main_list _ _ _ _ H'), (Rep_free_list _ _ _ _ H').
    exists x. split; [done|].
    destruct Hcase as [(HF & -> & Hal' & _)|(-> & Hal' & _)].
    + destruct F as [|f [|]]; simplify_eq/=. split_and!; [done| |done].
      pose proof (accounted_permutation _ _ _ _ H Hal) as Hperm.
      pose proof (rep_nodup _ _ _ _ H') as Hnd.
      assert (Hx : x ∉ M ++ [f]).
      { rewrite <- app_assoc in Hnd. apply NoDup_app in Hnd as (_ & Hd & Hnd).
        intros [Hin|Hin]%elem_of_app.
        - apply (Hd x Hin). left.
        - apply list_elem_of_singleton in Hin as ->. apply NoDup_cons in Hnd as [Hn _].
          apply Hn. left. }
      rewrite Hperm, elem_of_seq in Hx.
      assert (x < allocations s1).
      { eapply chain_lt; [apply (rep_main _ _ _ _ H')|]. apply elem_of_app. right. left. }
      lia.
    + pose proof (rep_free_ne _ _ _ _ H'). by destruct F'.
  - pose proof (dequeue_spec dflt s M F _ o output H Ho) as Hd.
    destruct (contents s) as [|v vs].
    + destruct Hd as (tr1 & Hcall1). rewrite Hcall in Hcall1. by simplify_eq.
    + destruct Hd as (s1 & tr1 & t & M' & Hcall1 & -> & H' & Hal' & _).
      rewrite Hcall in Hcall1. simplify_eq.
      rewrite (Rep_main_list _ _ _ _ H'), (Rep_free_list _ _ _ _ H').
      by exists t.
Qed.

(** ** Memory footprint *)

Lemma high_water_ge (n : nat) (h : list (entry T)) : n <= high_water n h.
Proof. destruct h; simpl; lia. Qed.

Lemma exec_footprint ops output s M F vs :
  Rep s M F vs -> allocations s = length M + length F ->
  exists h s',
    exec dflt ops output s = Returns (h, s') /\
    calls h = ops /\
    allocations s' = Nat.max (allocations s) (2 + high_water (length vs) h).
Proof.
  revert output s M F vs. induction ops as [|o ops IH]; intros output s M F vs H Hal.
  - exists [], s. split_and!; try done. simpl.
    pose proof (Rep_main_length _ _ _ _ H). pose proof (rep_free_ne _ _ _ _ H).
    destruct F; [done|]. simpl in *. lia.
  - pose proof (Rep_main_length _ _ _ _ H) as HM.
    assert (HF : 1 <= length F).
    { pose proof (rep_free_ne _ _ _ _ H). destruct F; [done|]. simpl. lia. }
    destruct (operation_cases o) as [[v Ho]|Ho].
    + destruct (enqueue_spec dflt s M F vs o v output H Ho)
        as (s' & tr & x & F' & Hcall & H' & Hcase).
      assert (Hal' : allocations s' = length (M ++ [x]) + length F').
      { rewrite length_app. simpl.
        destruct Hcase as [(HF1 & -> & -> & _)|(-> & -> & _)]; cbn [length] in *; lia. }
      destruct (IH output s' _ _ _ H' Hal') as (h & s'' & Hex & Hc & Hfp).
      exists ((o, done, tr) :: h), s''. split_and!; [|by simpl; f_equal|].
      * by eapply exec_cons.
      * rewrite Hfp, length_app, Nat.add_1_r. cbn [high_water held_after fst snd].
        pose proof (high_water_ge (S (length vs)) h).
        destruct Hcase as [(HF1 & -> & Hs & _)|(-> & Hs & _)]; rewrite Hs;
          cbn [length] in *; lia.
    + pose proof (dequeue_spec dflt s M F vs o output H Ho) as Hd.
      destruct vs as [|v vs].
      * destruct Hd as (tr & Hcall).
        destruct (IH output s _ _ _ H Hal) as (h & s'' & Hex & Hc & Hfp).
        exists ((o, dequeued false output, tr) :: h), s''.
        split_and!; [|by simpl; f_equal|].
        -- by eapply exec_cons.
        -- rewrite Hfp. cbn [high_water held_after fst snd length].
           pose proof (high_water_ge 0 h). lia.
      * destruct Hd as (s' & tr & t & M' & Hcall & -> & H' & Hs & _).
        assert (Hal' : allocations s' = length M' + length (F ++ [t])).
        { rewrite Hs, Hal, length_app. simpl. lia. }
        destruct (IH v s' _ _ _ H' Hal') as (h & s'' & Hex & Hc & Hfp).
        exists ((o, dequeued true v, tr) :: h), s''.
        split_and!; [|by simpl; f_equal|].
        -- by eapply exec_cons.
        -- rewrite Hfp, Hs. cbn [high_water held_after fst snd length pred] in *.
           pose proof (high_water_ge (length vs) h). lia.
Qed.

(** X6 (memory footprint).  The queue allocates a node only when it holds
    more elements than it ever held before: after any calls on a constructed queue the number of
    nodes allocated, the two sentinels of the constructor included, is two
    more than the largest number of elements the queue held at once. *)
Theorem allocations_are_high_water (ops : list (operation T)) (output : T) :
  exists h s,
    exec dflt ops output (fresh dflt) = Returns (h, s) /\
    calls h = ops /\
    allocations s = 2 + high_water 0 h.
Proof.
  destruct (exec_footprint ops output _ _ _ _ (Rep_fresh dflt)) as (h & s & Hex & Hc & Hfp).
  { by rewrite fresh_eq. }
  exists h, s. split_and!; [done|done|].
  rewrite Hfp, fresh_eq. cbn [allocations nodes length]. lia.
Qed.

(** ** Two producers and the freelist *)

(** X11 (ABA on the freelist).  [freeListTryDequeue] compares
    [_freeListTail] with the node it loaded,
    not with the state of the list, and a node comes back to the front of
    the freelist after it has been reused and retired again.  Three threads
    share an empty queue whose freelist holds two retired nodes behind its
    sentinel.  Thread 0 starts [mpEnqueue v9] and is preempted after it has
    loaded [_freeListTail] and the [next] of that node; thread 1 enqueues
    [v1] and [v2], thread 2 dequeues both, thread 1 enqueues [v3] and [v4]:
    [_freeListTail] is the node thread 0 loaded once more.  Thread 0 goes
    on: its [compare_exchange_strong] succeeds and sets [_freeListTail] to
    the node that is now the sentinel of the main list.  Thread 1 then
    enqueues [v5], for which it is handed that sentinel and clears its
    [next].  All six enqueues have returned and two elements have been
    dequeued, but the queue is empty: the next dequeue returns [false], and
    [v3], [v4], [v9] and [v5] are lost. *)
Theorem freelist_aba_loses_elements (v1 v2 v3 v4 v5 v9 output : T) :
  exists s0 threads s1 threads' s2,
    reachable dflt s0 /\ contents s0 = [] /\
    interleave dflt
      ([0; 0] ++ replicate 14 1 ++ replicate 14 2 ++ replicate 14 1 ++
       replicate 5 0 ++ replicate 7 1)
      [client [op_mpEnqueue v9] output;
       client [op_mpEnqueue v1; op_mpEnqueue v2; op_mpEnqueue v3; op_mpEnqueue v4;
               op_mpEnqueue v5] output;
       client [op_scDequeue; op_scDequeue; op_scDequeue] output] s0
    = Returns (threads, s1) /\
    returned max_steps <$> take 2 threads = [Some [done]; Some [done; done; done; done; done]] /\
    interleave dflt [2; 2] threads s1 = Returns (threads', s2) /\
    returned max_steps <$> threads'
    = [Some [done]; Some [done; done; done; done; done];
       Some [dequeued true v1; dequeued true v2; dequeued false v2]] /\
    contents s2 = [] /\
    (exists a, main_list s2 = [a] /\ a ∈ free_list s2).
Proof.
  eexists (mkQueue [mkNode dflt (Some 2); mkNode dflt (Some 0);
                    mkNode dflt None; mkNode dflt None]
                   (Some 3) (Some 1) (Some 3) (Some 2)), _, _, _, _.
  split_and!.
  - apply (exec_reachable dflt [op_spEnqueue dflt; op_spEnqueue dflt; op_scDequeue; op_scDequeue]
             output (fresh dflt)
             (match exec dflt [op_spEnqueue dflt; op_spEnqueue dflt; op_scDequeue; op_scDequeue]
                          output (fresh dflt) with
              | Returns (h, _) => h
              | _ => []
              end)); [constructor|].
    vm_compute. reflexivity.
  - reflexivity.
  - vm_compute. reflexivity.
  - vm_compute. reflexivity.
  - vm_compute. reflexivity.
  - vm_compute. reflexivity.
  - vm_compute. reflexivity.
  - exists 0. split; [vm_compute; reflexivity|]. vm_compute.
    do 3 right. left.
Qed.

End Clients.

(** A client thread scheduled alone makes the calls of [exec]: the round
    trip of three enqueues and four dequeues, step by step. *)
Example client_scheduled_alone :
  exists threads s,
    interleave 0%Z (replicate 41 0)
      [client [op_spEnqueue 1%Z; op_spEnqueue 2%Z; op_spEnqueue 3%Z;
               op_scDequeue; op_scDequeue; op_scDequeue; op_scDequeue] 0%Z]
      (fresh 0%Z) = Returns (threads, s) /\
    returned max_steps <$> threads
    = [Some [done; done; done; dequeued true 1%Z; dequeued true 2%Z; dequeued true 3%Z;
             dequeued false 3%Z]] /\
    exists h, exec 0%Z [op_spEnqueue 1%Z; op_spEnqueue 2%Z; op_spEnqueue 3%Z;
                        op_scDequeue; op_scDequeue; op_scDequeue; op_scDequeue]
                   0%Z (fresh 0%Z) = Returns (h, s).
Proof. eexists _, _. split_and!; [vm_compute; reflexivity..|]. eexists. vm_compute. reflexivity. Qed.

Lemma nodes_partitioned_witness :
  reachable 0%Z holding_7 /\
  main_list holding_7 ++ free_list holding_7 ≡ₚ seq 0 (allocations holding_7).
Proof.
  split; [exact holding_7_reachable|].
  apply (nodes_partitioned 0%Z holding_7 holding_7_reachable).
Defined.

Lemma fifo_order_witness :
  reachable 0%Z holding_7 /\
  exists h s',
    exec 0%Z [op_mpEnqueue 8%Z; op_mcDequeue; op_scDequeue; op_mcDequeueLight] 0%Z holding_7
    = Returns (h, s') /\
    calls h = [op_mpEnqueue 8%Z; op_mcDequeue; op_scDequeue; op_mcDequeueLight] /\
    contents holding_7 ++ enqueued h = dequeued_values h ++ contents s'.
Proof.
  split; [exact holding_7_reachable|].
  apply (fifo_order 0%Z holding_7 _ 0%Z holding_7_reachable).
Defined.

Lemma enqueues_agree_witness :
  reachable 0%Z holding_7 /\
  exists s',
    (exists tr, call 0%Z (spEnqueue 8%Z) holding_7 = Returns (tt, s', tr)) /\
    (exists tr, call 0%Z (mpEnqueue 8%Z) holding_7 = Returns (tt, s', tr)) /\
    contents s' = contents holding_7 ++ [8%Z].
Proof.
  split; [exact holding_7_reachable|].
  apply (enqueues_agree 0%Z holding_7 8%Z holding_7_reachable).
Defined.

Lemma dequeues_agree_witness :
  reachable 0%Z holding_7 /\
  exists b output' s',
    (exists tr, call 0%Z (scDequeue 0%Z) holding_7 = Returns ((b, output'), s', tr)) /\
    (exists tr, call 0%Z (mcDequeue 0%Z) holding_7 = Returns ((b, output'), s', tr)) /\
    (exists tr, call 0%Z (mcDequeueLight 0%Z) holding_7 = Returns ((b, output'), s', tr)) /\
    b = true /\ output' = 7%Z /\ contents s' = [].
Proof.
  split; [exact holding_7_reachable|].
  apply (dequeues_agree 0%Z holding_7 0%Z holding_7_reachable).
Defined.

Lemma node_recycling_witness :
  reachable 0%Z holding_7 /\
  (exists tr s',
     call 0%Z (code op_scDequeue 0%Z) holding_7 = Returns (dequeued true 7%Z, s', tr) /\
     exists t,
       main_list holding_7 = t :: main_list s' /\
       free_list s' = free_list holding_7 ++ [t] /\
       allocations s' = allocations holding_7).
Proof.
  split; [exact holding_7_reachable|].
  assert (exists tr s',
            call 0%Z (code op_scDequeue 0%Z) holding_7 = Returns (dequeued true 7%Z, s', tr))
    as (tr & s' & Hcall) by (eexists _, _; vm_compute; reflexivity).
  exists tr, s'. split; [exact Hcall|].
  exact (node_recycling 0%Z holding_7 op_scDequeue 0%Z _ s' tr holding_7_reachable Hcall).
Defined.

(** * The freelist and the destructor *)

Section Destructor.

Context {T : Type} (dflt : T).

Implicit Types (s : queue T) (d : dying T) (ns : list (listNode T)) (M F : list nat).

(** ** [freeListTryDequeue] on known states *)

Lemma call_freeListTryDequeue_last ns (hd tl fhd : ptr) f ndf :
  ns !! f = Some ndf -> next ndf = None ->
  call dflt freeListTryDequeue (mkQueue ns hd (Some f) tl fhd)
  = Returns (nullptr, mkQueue ns hd (Some f) tl fhd,
             [Ev (Load FreeListTail relaxed) (Some f);
              Ev (NextLoad (Some f) acquire) nullptr]).
Proof.
  intros Hf Hn. unfold call, max_steps, freeListTryDequeue.
  rewrite run_unfold. cbn. rewrite run_unfold. cbn. rewrite Hf. cbn. rewrite Hn.
  rewrite run_unfold. cbn. reflexivity.
Qed.

Lemma call_freeListTryDequeue_front ns (hd tl fhd : ptr) f g ndf :
  ns !! f = Some ndf -> next ndf = Some g ->
  call dflt freeListTryDequeue (mkQueue ns hd (Some f) tl fhd)
  = Returns (Some f, mkQueue ns hd (Some g) tl fhd,
             [Ev (Load FreeListTail relaxed) (Some f);
              Ev (NextLoad (Some f) acquire) (Some g);
              Ev (CompareExchangeStrong FreeListTail (Some f) (Some g)) (true, Some f)]).
Proof.
  intros Hf Hn. unfold call, max_steps, freeListTryDequeue.
  rewrite run_unfold. cbn. rewrite run_unfold. cbn. rewrite Hf. cbn. rewrite Hn.
  rewrite run_unfold. cbn. rewrite decide_True by done. cbn.
  rewrite run_unfold. cbn. reflexivity.
Qed.

(** X7 (the freelist is a queue of nodes).  [freeListTryDequeue] on a state
    a client has reached returns null, changing nothing, when the freelist
    holds only its sentinel; otherwise it returns the sentinel, the node
    that has been on the freelist longest, and makes its successor the
    sentinel, changing nothing else. *)
Theorem freeListTryDequeue_oldest s :
  reachable dflt s ->
  match free_list s with
  | f :: g :: _ =>
      exists tr,
        call dflt freeListTryDequeue s
        = Returns (Some f, set FreeListTail (Some g) s, tr)
  | _ => exists tr, call dflt freeListTryDequeue s = Returns (nullptr, s, tr)
  end.
Proof.
  intros (M & F & H)%(reachable_Rep dflt).
  rewrite (Rep_free_list _ _ _ _ H).
  pose proof (rep_free _ _ _ _ H) as Hfree.
  pose proof (rep_free_tail _ _ _ _ H) as Hftl.
  destruct s as [ns hd ftl tl fhd]. cbn [nodes _freeListTail] in *.
  destruct F as [|f [|g F']]; [by destruct (rep_free_ne _ _ _ _ H)| |].
  - destruct (chain_lookup _ _ 0 f Hfree eq_refl) as (ndf & Hf & Hnext).
    simpl in Hftl. subst ftl. eexists. by eapply call_freeListTryDequeue_last.
  - destruct (chain_lookup _ _ 0 f Hfree eq_refl) as (ndf & Hf & Hnext).
    simpl in Hftl. subst ftl. eexists. by eapply call_freeListTryDequeue_front.
Qed.

(** ** Running the destructor *)

Lemma run_dying_unfold {R} n (t : itree (atomicE +' deleteE) R) d :
  run_dying dflt (S n) t d =
  match observe t with
  | RetF r => Returns (r, d)
  | TauF t' => run_dying dflt n t' d
  | VisF e k =>
      match handle_dying dflt e d with
      | None => Undefined
      | Some (x, d') => run_dying dflt n (k x) d'
      end
  end.
Proof. reflexivity. Qed.

Lemma run_dying_mono {R} n m (t : itree (atomicE +' deleteE) R) d x :
  run_dying dflt n t d = Returns x -> n <= m -> run_dying dflt m t d = Returns x.
Proof.
  revert m t d. induction n as [|n IH]; intros m t d Hn Hle; [done|].
  destruct m as [|m]; [lia|].
  rewrite run_dying_unfold in *.
  destruct (observe t) as [r|t'|X e k]; [done|apply IH; [done|lia]|].
  destruct (handle_dying dflt e d) as [[y d']|]; [|done].
  apply IH; [done|lia].
Qed.

(** Sequencing: the code before [;;] runs to its end, then the code
    after it. *)
Lemma run_dying_bind {R S} n m (t : itree (atomicE +' deleteE) R)
    (k : R -> itree (atomicE +' deleteE) S) d r d' x :
  run_dying dflt n t d = Returns (r, d') ->
  run_dying dflt m (k r) d' = Returns x ->
  run_dying dflt (n + m) (ITree.bind t k) d = Returns x.
Proof.
  revert t d. induction n as [|n IH]; intros t d Ht Hk; [done|].
  rewrite run_dying_unfold in Ht. cbn [Nat.add].
  rewrite run_dying_unfold, Shallow.observe_bind.
  destruct (observe t) as [r0|t'|X e h].
  - simplify_eq. destruct m as [|m]; [done|].
    rewrite <- run_dying_unfold. eapply run_dying_mono; [exact Hk|lia].
  - cbn. by apply IH.
  - cbn. destruct (handle_dying dflt e d) as [[y d1]|]; [|done]. by apply IH.
Qed.

Lemma observe_within {R} (p : prog R) :
  observe (within (T:=T) p) =
  match observe p with
  | RetF r => RetF r
  | TauF p' => TauF (within p')
  | VisF e k => VisF (inl1 e) (fun x => within (k x))
  end.
Proof.
  unfold within.
  change (observe (translate ?h p))
    with (observe (translateF h (fun t => translate h t) (observe p))).
  destruct (observe p); reflexivity.
Qed.

(** A member function called by the destructor runs as it does on a live
    queue, provided it goes through no deleted node. *)
Lemma run_dying_within {R} n (p : prog R) s gone r s' tr :
  run dflt n p s = Returns (r, s', tr) ->
  Forall (fun ev => dangling gone (went_through ev) = false) tr ->
  run_dying dflt n (within p) (mkDying s gone) = Returns (r, mkDying s' gone).
Proof.
  revert p s tr. induction n as [|n IH]; intros p s tr Hp Htr; [done|].
  rewrite run_unfold in Hp. rewrite run_dying_unfold, observe_within.
  destruct (observe p) as [r0|p'|X e k]; cbn.
  - by simplify_eq.
  - by eapply IH.
  - destruct (handle dflt e s) as [[y s1]|] eqn:He; [|done].
    destruct (run dflt n (k y) s1) as [[[r1 s2] tr1]| |] eqn:Hrun; try done.
    cbn in Hp. simplify_eq.
    apply Forall_cons_1 in Htr as [Hev Htr]. cbn in Hev. rewrite Hev. cbn.
    by eapply IH.
Qed.

Lemma run_dying_iter {I R} n (body : I -> itree (atomicE +' deleteE) (I + R)) i d :
  run_dying dflt n (ITree.iter body i) d =
  run_dying dflt n
    (ITree.bind (body i) (fun lr => match lr with
                                    | inl l => Tau (ITree.iter body l)
                                    | inr r => Ret r
                                    end)) d.
Proof. destruct n; reflexivity. Qed.

Lemma run_dying_access {X R} m (e : (atomicE +' deleteE) X)
    (k : X -> itree (atomicE +' deleteE) R) d :
  run_dying dflt (S m) (ITree.bind (ITree.trigger e) k) d =
  match handle_dying dflt e d with
  | None => Undefined
  | Some (x, d') => run_dying dflt m (k x) d'
  end.
Proof.
  rewrite run_dying_unfold. cbn.
  destruct (handle_dying dflt e d) as [[x d']|]; [|done].
  destruct m; reflexivity.
Qed.

Lemma not_dangling_nil (tr : list (event T)) :
  Forall (fun ev => dangling [] (went_through ev) = false) tr.
Proof.
  apply Forall_forall. intros ev _. unfold dangling.
  destruct (went_through ev); [|done].
  apply bool_decide_eq_false, not_elem_of_nil.
Qed.

Lemma handle_delete d a :
  a ∉ deleted d -> a < length (nodes (remains d)) ->
  handle_dying dflt (inr1 (Delete (Some a))) d
  = Some (tt, mkDying (remains d) (a :: deleted d)).
Proof. intros ??. cbn. by rewrite decide_True. Qed.

Lemma handle_load d a mo :
  handle_dying dflt (inl1 (Load a mo)) d = Some (get a (remains d), d).
Proof. by destruct d. Qed.

(** The loop that empties the queue returns, leaving the last sentinel
    alone on the main list and every other node on the freelist. *)
Lemma drain_returns vs : forall s M F output,
  Rep s M F vs ->
  exists n s' t F',
    run_dying dflt n (drain output) (mkDying s []) = Returns (tt, mkDying s' []) /\
    Rep s' [t] F' [] /\
    allocations s' = allocations s /\
    t :: F' ≡ₚ M ++ F.
Proof.
  induction vs as [|v vs IH]; intros s M F output H.
  - assert (Ho : is_dequeue (op_scDequeue (T:=T))) by by left.
    destruct (dequeue_spec dflt s M F [] op_scDequeue output H Ho) as (tr & Hcall).
    apply (call_code_dequeue dflt scDequeue) in Hcall. unfold call in Hcall.
    pose proof (run_dying_within _ _ _ [] _ _ _ Hcall (not_dangling_nil tr)) as Hw.
    pose proof (Rep_main_length _ _ _ _ H) as HM.
    destruct M as [|t [|]]; simplify_eq/=.
    exists (max_steps + 1 + 1), s, t, F. split_and!; try done.
    unfold drain. rewrite run_dying_iter.
    eapply run_dying_bind; [eapply run_dying_bind; [exact Hw|reflexivity]|reflexivity].
  - assert (Ho : is_dequeue (op_scDequeue (T:=T))) by by left.
    destruct (dequeue_spec dflt s M F (v :: vs) op_scDequeue output H Ho)
      as (s1 & tr & t & M' & Hcall & -> & H1 & Hal & _).
    apply (call_code_dequeue dflt scDequeue) in Hcall. unfold call in Hcall.
    pose proof (run_dying_within _ _ _ [] _ _ _ Hcall (not_dangling_nil tr)) as Hw.
    destruct (IH s1 M' (F ++ [t]) v H1) as (n & s' & t' & F' & Hrun & H' & Hal' & Hperm).
    exists (max_steps + 1 + S n), s', t', F'. split_and!; [|done|congruence|].
    + unfold drain. rewrite run_dying_iter.
      eapply run_dying_bind.
      * eapply run_dying_bind; [exact Hw|reflexivity].
      * rewrite run_dying_unfold. cbn. exact Hrun.
    + rewrite Hperm. simpl. rewrite (Permutation_app_comm F [t]). simpl.
      by rewrite Permutation_middle.
Qed.

(** The loop that empties the freelist returns: it deletes every node of
    the freelist but the last, going through none it has deleted. *)
Lemma delete_freelist_returns F0 : forall s l gone,
  chain (nodes s) (F0 ++ [l]) -> _freeListTail s = head (F0 ++ [l]) ->
  NoDup (F0 ++ [l]) -> (forall a, a ∈ F0 ++ [l] -> a ∉ gone) ->
  exists n s',
    run_dying dflt n delete_freelist (mkDying s gone)
    = Returns (tt, mkDying s' (reverse F0 ++ gone)) /\
    nodes s' = nodes s /\ _freeListHead s' = _freeListHead s.
Proof.
  induction F0 as [|f F0 IH]; intros s l gone Hc Hftl Hnd Hdisj.
  - destruct (chain_lookup _ _ 0 l Hc eq_refl) as (ndl & Hl & Hnext).
    destruct s as [ns hd ftl tl fhd]. cbn in Hl, Hnext, Hftl. subst ftl.
    pose proof (call_freeListTryDequeue_last ns hd tl fhd l ndl Hl Hnext) as Hcall.
    unfold call in Hcall.
    eapply (run_dying_within _ _ _ gone) in Hcall.
    2: { repeat constructor. cbn. apply bool_decide_eq_false, Hdisj. left. }
    exists (max_steps + 1 + 1), (mkQueue ns hd (Some l) tl fhd). split_and!; [|done|done].
    unfold delete_freelist. rewrite run_dying_iter.
    eapply run_dying_bind; [eapply run_dying_bind; [exact Hcall|reflexivity]|reflexivity].
  - change ((f :: F0) ++ [l]) with (f :: (F0 ++ [l])) in *.
    destruct (chain_lookup _ _ 0 f Hc eq_refl) as (ndf & Hf & Hnext).
    destruct s as [ns hd ftl tl fhd]. cbn in Hf, Hnext, Hftl. subst ftl.
    destruct (F0 ++ [l]) as [|g rest] eqn:Hrest; [by destruct F0|].
    cbn in Hnext.
    pose proof (call_freeListTryDequeue_front ns hd tl fhd f g ndf Hf Hnext) as Hcall.
    unfold call in Hcall.
    eapply (run_dying_within _ _ _ gone) in Hcall.
    2: { repeat constructor. cbn. apply bool_decide_eq_false, Hdisj. left. }
    apply NoDup_cons in Hnd as [Hfr Hnd].
    destruct (IH (mkQueue ns hd (Some g) tl fhd) l (f :: gone)) as (n & s' & Hrun & Hns & Hfh).
    + rewrite Hrest. by eapply chain_tail.
    + by rewrite Hrest.
    + by rewrite Hrest.
    + rewrite Hrest. intros a Ha [->|Hg]%elem_of_cons; [done|].
      apply (Hdisj a); [by right|done].
    + exists (max_steps + 2 + S n), s'. split_and!; [|done|done].
      rewrite reverse_cons, <- app_assoc. cbn [app].
      unfold delete_freelist. rewrite run_dying_iter.
      eapply (run_dying_bind (max_steps + 2) (S n)).
      * eapply (run_dying_bind max_steps 2); [exact Hcall|].
        cbn match. rewrite run_dying_access, handle_delete; [reflexivity| |].
        -- apply Hdisj. left.
        -- by eapply lookup_lt_Some.
      * rewrite run_dying_unfold. cbn. exact Hrun.
Qed.

(** X8 (destruction).  The destructor returns, having deleted every node
    the queue had
    allocated exactly once: run on a state a client has reached it goes
    through no node it has deleted, deletes no node twice, and the nodes
    it has deleted when it returns are all the nodes of the arena. *)
Theorem destructor_deletes_every_node s :
  reachable dflt s ->
  exists n d,
    (forall m, n <= m ->
       run_dying dflt m (destructor dflt) (mkDying s []) = Returns (tt, d)) /\
    deleted d ≡ₚ seq 0 (allocations s) /\
    allocations (remains d) = allocations s.
Proof.
  intros (M & F & H & Hal)%(reachable_accounted dflt).
  destruct (drain_returns _ s M F dflt H) as (n1 & s1 & t & F1 & Hdrain & H1 & Hal1 & Hperm).
  pose proof (rep_nodup _ _ _ _ H1) as Hnd. simpl in Hnd.
  apply NoDup_cons in Hnd as [HtF Hnd].
  assert (exists F0 l, F1 = F0 ++ [l]) as (F0 & l & ->).
  { destruct F1 as [|x F1] using rev_ind; [by destruct (rep_free_ne _ _ _ _ H1)|eauto]. }
  destruct (delete_freelist_returns F0 s1 l [t]) as (n2 & s2 & Hfree & Hns & Hfh).
  { apply H1. } { apply H1. } { done. }
  { intros a Ha Hat%list_elem_of_singleton. by subst. }
  pose proof (rep_head _ _ _ _ H1) as Hhd. simpl in Hhd.
  pose proof (rep_free_head _ _ _ _ H1) as Hfhd. rewrite last_snoc in Hfhd.
  assert (Htlt : t < length (nodes s1)).
  { eapply chain_lt; [apply (rep_main _ _ _ _ H1)|left]. }
  assert (Hllt : l < length (nodes s1)).
  { eapply chain_lt; [apply (rep_free _ _ _ _ H1)|]. apply elem_of_app. right. left. }
  eexists (n1 + (1 + (1 + (n2 + (1 + 2))))), _. split_and!.
  - intros m Hm. eapply run_dying_mono; [|exact Hm].
    unfold destructor. eapply run_dying_bind; [exact Hdrain|].
    cbn [Nat.add]. rewrite run_dying_access, handle_load. cbn [get remains]. rewrite Hhd.
    rewrite run_dying_access, handle_delete; [|apply not_elem_of_nil|done].
    cbn [remains deleted].
    eapply run_dying_bind; [exact Hfree|].
    cbn [Nat.add]. rewrite run_dying_access, handle_load. cbn [get remains].
    rewrite Hfh, Hfhd.
    rewrite run_dying_unfold. cbn [observe _observe ITree.trigger].
    rewrite handle_delete; [reflexivity| |by cbn [remains]; rewrite Hns].
    cbn [deleted]. intros [Hin|Hin]%elem_of_app.
    + rewrite elem_of_reverse in Hin. apply NoDup_app in Hnd as (_ & Hd & _).
      apply (Hd l Hin). left.
    + apply list_elem_of_singleton in Hin. subst.
      apply HtF, elem_of_app. right. left.
  - cbn [deleted]. rewrite <- (accounted_permutation s M F _ H Hal), <- Hperm.
    rewrite reverse_Permutation.
    rewrite (Permutation_app_comm F0 [t]), (Permutation_app_comm (t :: F0)  [l]). done.
  - cbn [remains]. unfold allocations in *. by rewrite Hns.
Qed.

End Destructor.

Lemma freeListTryDequeue_oldest_witness :
  reachable 0%Z holding_7 /\
  exists tr, call 0%Z freeListTryDequeue holding_7 = Returns (nullptr, holding_7, tr).
Proof.
  split; [exact holding_7_reachable|].
  apply (freeListTryDequeue_oldest 0%Z holding_7 holding_7_reachable).
Defined.

Lemma destructor_deletes_every_node_witness :
  reachable 0%Z holding_7 /\
  exists n d,
    (forall m, n <= m ->
       run_dying 0%Z m (destructor 0%Z) (mkDying holding_7 []) = Returns (tt, d)) /\
    deleted d ≡ₚ seq 0 (allocations holding_7) /\
    allocations (remains d) = allocations holding_7.
Proof.
  split; [exact holding_7_reachable|].
  apply (destructor_deletes_every_node 0%Z holding_7 holding_7_reachable).
Defined.

(** The destructor on the queue that holds 7: the element is dropped, node
    2, which carried it, is the last main-list node and deleted first, then
    node 1, then the last freelist node, 0. *)
Example destructor_on_holding_7 :
  exists s,
    run_dying 0%Z 40 (destructor 0%Z) (mkDying holding_7 [])
    = Returns (tt, mkDying s [0; 1; 2]).
Proof. eexists. vm_compute. reflexivity. Qed.

(** * The sharded queue *)

Import multilist_vector_queue.

Section Hitlist.

(** Swapping the slot [it], behind [l1 ++ a :: l2], with the slot [it2],
    behind [l1]. *)
Lemma iter_swap_middle (l1 l2 l3 : list nat) (a b : nat) :
  iter_swap (length l1 + S (length l2)) (length l1) (l1 ++ a :: l2 ++ b :: l3)
  = l1 ++ b :: l2 ++ a :: l3.
Proof.
  unfold iter_swap.
  assert (H1 : (l1 ++ a :: l2 ++ b :: l3) !! (length l1 + S (length l2)) = Some b).
  { rewrite lookup_app_r by lia.
    replace (length l1 + S (length l2) - length l1) with (S (length l2)) by lia.
    simpl. by rewrite list_lookup_middle. }
  assert (H2 : (l1 ++ a :: l2 ++ b :: l3) !! length l1 = Some a)
    by by rewrite list_lookup_middle.
  rewrite H1, H2.
  rewrite (insert_app_r l1 (a :: l2 ++ b :: l3) (S (length l2)) a). simpl.
  rewrite (insert_app_r_alt l1) by lia. rewrite Nat.sub_diag. simpl. do 2 f_equal.
  rewrite (insert_app_r_alt l2) by lia. by rewrite Nat.sub_diag.
Qed.

(** The swaps from slot [length l1] up to the hit slot move the hit [y] to
    slot [length l1] and every slot between one place to the right. *)
Lemma swaps_rotate (p2 l1 post : list nat) (y : nat) :
  foldl (fun h it2 => iter_swap (length l1 + length p2) it2 h)
        (l1 ++ p2 ++ y :: post) (seq (length l1) (length p2))
  = l1 ++ y :: p2 ++ post.
Proof.
  revert l1 y. induction p2 as [|z p2 IH]; intros l1 y; [done|].
  simpl.
  replace (length l1 + S (length p2)) with (length (l1 ++ [y]) + length p2)
    by (rewrite length_app; simpl; lia).
  pose proof (iter_swap_middle l1 p2 post z y) as Hswap.
  replace (length l1 + S (length p2)) with (length (l1 ++ [y]) + length p2) in Hswap
    by (rewrite length_app; simpl; lia).
  rewrite Hswap.
  replace (S (length l1)) with (length (l1 ++ [y])) by (rewrite length_app; simpl; lia).
  replace (l1 ++ y :: p2 ++ z :: post) with ((l1 ++ [y]) ++ p2 ++ z :: post)
    by (by rewrite <- app_assoc).
  rewrite IH. by rewrite <- app_assoc.
Qed.

(** The update moves the hit to the front and keeps the order of the
    rest. *)
Lemma hit_update_rotate (h : list nat) (k i : nat) :
  h !! k = Some i -> hit_update k h = i :: take k h ++ drop (S k) h.
Proof.
  intros Hk. unfold hit_update.
  assert (Hlen : length (take k h) = k).
  { rewrite length_take. apply lookup_lt_Some in Hk. lia. }
  pose proof (swaps_rotate (take k h) [] (drop (S k) h) i) as H.
  simpl in H. rewrite Hlen in H. by rewrite take_drop_middle in H.
Qed.

End Hitlist.

Section Sharded.

Context {T Q : Type} `{!list_queue.members T Q}.

Implicit Types (st : program Q) (l : list (subcall T)).

Lemma bind_returns {A B} (m : M A) (k : A -> M B) st b st'' l :
  bind m k st = Returns (b, st'', l) ->
  exists a st' l1 l2,
    m st = Returns (a, st', l1) /\ k a st' = Returns (b, st'', l2) /\ l = l1 ++ l2.
Proof.
  unfold bind. intros Hb.
  destruct (m st) as [[[a st'] l1]| |]; try done.
  destruct (k a st') as [[[b' st3] l2]| |] eqn:Hk; try done.
  simplify_eq. by eexists _, _, _, _.
Qed.

(** A call on a subqueue changes that subqueue only, and is logged. *)
Lemma on_subqueue_returns {A} index (mem : Q -> outcome (A * Q)) (logged : A -> subcall T)
    st a st' l :
  on_subqueue index mem logged st = Returns (a, st', l) ->
  l = [logged a] /\
  thread_statics st' = thread_statics st /\
  _enqueue_indx (object st') = _enqueue_indx (object st) /\
  exists q q', _q (object st) !! index = Some q /\ mem q = Returns (a, q') /\
               _q (object st') = <[index := q']> (_q (object st)).
Proof.
  unfold on_subqueue. intros Hc.
  destruct (_q (object st) !! index) as [q|]; [|done].
  destruct (mem q) as [[a' q']| |] eqn:Hm; try done.
  simplify_eq. split_and!; try done. by exists q, q'.
Qed.

(** ** The scan *)


(** ** The thread-local hitlists *)

Lemma statics_of_insert t x (o : multiqueue Q) (m : gmap nat statics) :
  statics_of t (mkProgram o (<[t := x]> m)) = x.
Proof. unfold statics_of. simpl. by rewrite lookup_insert_eq. Qed.

Lemma write_static_returns t upd st st' l :
  write_static t upd st = Returns (tt, st', l) ->
  l = [] /\ object st' = object st /\ statics_of t st' = upd (statics_of t st).
Proof.
  unfold write_static. intros. simplify_eq. split_and!; try done.
  apply statics_of_insert.
Qed.

Lemma static_hitlist_returns t field upd st h st' l :
  (forall h x, field (upd h x) = Some h) ->
  static_hitlist t field upd st = Returns (h, st', l) ->
  l = [] /\ object st' = object st /\
  h = current_hitlist field t st /\
  field (statics_of t st') = Some h.
Proof.
  intros Hupd. unfold static_hitlist, current_hitlist. intros Hs.
  apply bind_returns in Hs as (cached & st1 & l1 & l2 & Hread & Hrest & ->).
  unfold read_static in Hread. injection Hread as <- <- <-.
  destruct (field (statics_of t st)) as [h0|] eqn:Hf.
  - unfold ret in Hrest. by simplify_eq.
  - apply bind_returns in Hrest as (h1 & st2 & l3 & l4 & Hseq & Hrest & ->).
    unfold hitlist_sequence, bind, size, ret in Hseq. simplify_eq.
    apply bind_returns in Hrest as ([] & st3 & l5 & l6 & Hw & Hrest & ->).
    apply write_static_returns in Hw as (-> & Ho & Hs3).
    unfold ret in Hrest. simplify_eq. split_and!; try done.
    by rewrite Hs3.
Qed.



(** ** Termination of the dequeues *)


Lemma static_hitlist_total t field upd st :
  exists st',
    static_hitlist (T:=T) t field upd st = Returns (current_hitlist field t st, st', []) /\
    object st' = object st.
Proof.
  unfold static_hitlist, current_hitlist, bind, read_static.
  destruct (field (statics_of t st)); simpl; by eexists.
Qed.

Lemma permutation_in_range (h : list nat) N :
  h ≡ₚ seq 0 N -> Forall (fun i => i < N) h.
Proof.
  intros Hp. apply Forall_forall. intros i Hi. rewrite Hp in Hi.
  apply elem_of_seq in Hi. lia.
Qed.



(** ** Producer routing *)

(** The enqueues with an explicit index make one [mp_enqueue] call on that
    subqueue and touch neither the counter nor any thread-local variable;
    [sp_enqueue] and [mp_enqueue] are the same function there. *)
Lemma enqueue_at_bypasses c input index t st :
  sp_enqueue_at c input index t st = mp_enqueue_at c input index t st /\
  forall st' l,
    mp_enqueue_at c input index t st = Returns (tt, st', l) ->
    l = [called_mp_enqueue index input] /\
    thread_statics st' = thread_statics st /\
    _enqueue_indx (object st') = _enqueue_indx (object st) /\
    exists q q', _q (object st) !! index = Some q /\
                 list_queue.mp_enqueue input q = Returns q' /\
                 _q (object st') = <[index := q']> (_q (object st)).
Proof.
  split; [done|]. intros st' l Hc.
  unfold mp_enqueue_at, mp_enqueue_forward_at, sub_mp_enqueue in Hc.
  apply on_subqueue_returns in Hc as (-> & ? & ? & q & q' & ? & Hm & ?).
  split_and!; try done. exists q, q'. split_and!; try done.
  destruct (list_queue.mp_enqueue input q); by simplify_eq.
Qed.

(** The first pass of a thread through the declaration of [indx] in the
    forwarder [f] instantiated for [c] takes the counter modulo the number
    of subqueues and increments the counter. *)
Lemma static_indx_first f c t st :
  get_indx f c (statics_of t st) = None ->
  _q (object st) <> [] ->
  static_indx (T:=T) f c t st =
  Returns (Z.to_nat (_enqueue_indx (object st) mod Z.of_nat (length (_q (object st)))),
           mkProgram
             (mkMulti (_q (object st)) ((_enqueue_indx (object st) + 1) mod size_t_modulus))
             (<[t := set_indx f c
                       (Z.to_nat (_enqueue_indx (object st)
                                  mod Z.of_nat (length (_q (object st)))))
                       (statics_of t st)]> (thread_statics st)),
           []).
Proof.
  intros Hnone Hne. unfold static_indx, bind, read_static. rewrite Hnone.
  unfold fetch_add_enqueue_indx, size. simpl.
  destruct (decide (length (_q (object st)) = 0)) as [Hz|_].
  - by destruct (_q (object st)).
  - done.
Qed.

(** Later passes through the same declaration read the variable. *)
Lemma static_indx_cached f c t st indx :
  get_indx f c (statics_of t st) = Some indx ->
  static_indx (T:=T) f c t st = Returns (indx, st, []).
Proof. intros Hsome. unfold static_indx, bind, read_static. by rewrite Hsome. Qed.

(** [indx] of one forwarder instantiation is not [indx] of another. *)
Lemma set_indx_other f c f' c' i x :
  (f, c) <> (f', c') -> get_indx f' c' (set_indx f c i x) = get_indx f' c' x.
Proof. by destruct f, c, f', c'. Qed.

Lemma set_indx_same f c i x : get_indx f c (set_indx f c i x) = Some i.
Proof. by destruct f, c. Qed.

(** Where the two variables of a thread hold the same index, [sp_enqueue]
    and [mp_enqueue] are the same function. *)
Lemma sp_enqueue_mp_enqueue_cached c input t st indx :
  get_indx sp_forward c (statics_of t st) = Some indx ->
  get_indx mp_forward c (statics_of t st) = Some indx ->
  sp_enqueue c input t st = mp_enqueue c input t st.
Proof.
  intros Hsp Hmp.
  unfold sp_enqueue, mp_enqueue, sp_enqueue_forward, mp_enqueue_forward, bind.
  by rewrite (static_indx_cached _ _ _ _ _ Hsp), (static_indx_cached _ _ _ _ _ Hmp).
Qed.

End Sharded.

(** ** [CONQ::MPMCQueue] subqueues answer *)


(** ** The sharded queue over [CONQ::MPMCQueue] subqueues *)

(** C7 (producer routing), evaluated where the code departs from it.  On a
    queue of two subqueues thread 0 calls [sp_enqueue] and then
    [mp_enqueue], both without index, and thread 1 then calls [mp_enqueue]:
    the second enqueue of thread 0 goes to subqueue 1, not to the
    subqueue 0 of its first one, because [mp_enqueue_forward] initialises
    an [indx] of its own with a second [fetch_add]; and thread 1, the
    second producer thread, is given subqueue 2 mod 2 = 0.  The same
    happens between the [T&&] and [const T&] overloads of one function:
    the [T&&] enqueue of thread 1 goes to subqueue 1. *)
Theorem routing_is_per_entry_point :
  log_of (bind (sp_enqueue lvalue 10%Z 0) (fun _ =>
          bind (mp_enqueue lvalue 20%Z 0) (fun _ =>
          bind (mp_enqueue lvalue 30%Z 1) (fun _ =>
          mp_enqueue rvalue 40%Z 1)))) two_subqueues
  = Some [called_mp_enqueue 0 10%Z; called_mp_enqueue 1 20%Z;
          called_mp_enqueue 0 30%Z; called_mp_enqueue 1 40%Z].
Proof. vm_compute. reflexivity. Qed.

(** C9 ([sp_enqueue] against [mp_enqueue]), evaluated where the code
    departs from it.  After thread 0 has called [mp_enqueue] once on a
    queue of two subqueues, its [sp_enqueue] of a value goes to subqueue 1
    and moves the counter to 2, while its [mp_enqueue] of the same value
    goes to subqueue 0 and leaves the counter at 1: both call the
    subqueue's [mp_enqueue], but each forwarder reads its own
    [thread_local] index. *)
Theorem sp_enqueue_is_not_mp_enqueue :
  log_of (sp_enqueue lvalue 20%Z 0) (after (mp_enqueue lvalue 10%Z 0) two_subqueues)
    = Some [called_mp_enqueue 1 20%Z] /\
  log_of (mp_enqueue lvalue 20%Z 0) (after (mp_enqueue lvalue 10%Z 0) two_subqueues)
    = Some [called_mp_enqueue 0 20%Z] /\
  _enqueue_indx (object (after (sp_enqueue lvalue 20%Z 0)
                               (after (mp_enqueue lvalue 10%Z 0) two_subqueues))) = 2%Z /\
  _enqueue_indx (object (after (mp_enqueue lvalue 20%Z 0)
                               (after (mp_enqueue lvalue 10%Z 0) two_subqueues))) = 1%Z.
Proof. split_and!; vm_compute; reflexivity. Qed.

Lemma loaded_reachable : Forall (reachable 0%Z) (_q (object loaded)).
Proof.
  repeat constructor.
  - apply (exec_reachable 0%Z [op_mpEnqueue 42%Z] 0%Z (fresh 0%Z)
             (match exec 0%Z [op_mpEnqueue 42%Z] 0%Z (fresh 0%Z) with
              | Returns (h, _) => h
              | _ => []
              end)); [constructor|].
    vm_compute. reflexivity.
  - apply (exec_reachable 0%Z [op_mpEnqueue 43%Z] 0%Z (fresh 0%Z)
             (match exec 0%Z [op_mpEnqueue 43%Z] 0%Z (fresh 0%Z) with
              | Returns (h, _) => h
              | _ => []
              end)); [constructor|].
    vm_compute. reflexivity.
Qed.


(** That call: a miss on subqueue 0, a hit on subqueue 1, which moves to
    the front of the thread's hitlist. *)
Example mc_dequeue_on_loaded :
  log_of (mc_dequeue 0%Z 1) loaded
    = Some [called_mc_dequeue_light 0 false 0%Z; called_mc_dequeue_light 1 true 42%Z] /\
  mc_hitlist (statics_of 1 (after (mc_dequeue 0%Z 1) loaded)) = Some [1; 0; 2].
Proof. split; vm_compute; reflexivity. Qed.


(** * The sharded queue over subqueues that are queues *)

Section Shards.

Context {T Q : Type} `{!list_queue.members T Q}.
Context (wf : Q -> Prop) (holds : Q -> list T).

Implicit Types (st : program Q) (l : list (subcall T)).

#[local] Arguments hit_update : simpl never.

Lemma program_eta st :
  mkProgram (mkMulti (_q (object st)) (_enqueue_indx (object st))) (thread_statics st) = st.
Proof. by destruct st as [[??]?]. Qed.

Lemma shards_lookup st i q :
  _q (object st) !! i = Some q -> shards holds st !! i = Some (holds q).
Proof. intros Hq. unfold shards. by rewrite list_lookup_fmap, Hq. Qed.

(** A dequeue call on subqueue [i] that holds nothing. *)
Lemma on_subqueue_miss (dequeue : T -> Q -> outcome (bool * T * Q))
    (mk : bool * T -> subcall T) i q output st :
  _q (object st) !! i = Some q ->
  dequeue output q = Returns (false, output, q) ->
  on_subqueue i (dequeue output) mk st = Returns ((false, output), st, [mk (false, output)]).
Proof.
  intros Hq Hd. unfold on_subqueue. rewrite Hq, Hd.
  by rewrite (list_insert_id _ _ _ Hq), program_eta.
Qed.

(** The scan over subqueues that are queues: it returns at the first
    subqueue of [todo] that holds an element, with that element, and runs to
    the end when none does. *)
Lemma scan_fifo (dequeue : T -> Q -> outcome (bool * T * Q))
    (mk : nat -> bool * T -> subcall T) hitlist it todo output st :
  fifo_subqueues wf holds ->
  dequeue ∈ [list_queue.sc_dequeue; list_queue.mc_dequeue; list_queue.mc_dequeue_light] ->
  Forall wf (_q (object st)) ->
  Forall (fun i => i < length (_q (object st))) todo ->
  exists b output' hitlist' st' l,
    scan (fun i out => on_subqueue i (dequeue out) (mk i)) hitlist it todo output st
      = Returns ((b, output', hitlist'), st', l) /\
    Forall wf (_q (object st')) /\
    thread_statics st' = thread_statics st /\
    _enqueue_indx (object st') = _enqueue_indx (object st) /\
    if b then
      exists k i vs,
        todo !! k = Some i /\
        (forall j i', j < k -> todo !! j = Some i' -> shards holds st !! i' = Some []) /\
        shards holds st !! i = Some (output' :: vs) /\
        shards holds st' = <[i := vs]> (shards holds st) /\
        hitlist' = hit_update (it + k) hitlist /\
        l = map (fun i' => mk i' (false, output)) (take k todo) ++ [mk i (true, output')]
    else
      output' = output /\ st' = st /\
      Forall (fun i => shards holds st !! i = Some []) todo /\
      hitlist' = hitlist /\
      l = map (fun i => mk i (false, output)) todo.
Proof.
  intros Hfifo Hdeq Hwf. revert it.
  induction todo as [|i todo IH]; intros it Hin.
  - exists false, output, hitlist, st, []. by split_and!.
  - apply Forall_cons_1 in Hin as [Hi Hin].
    destruct (lookup_lt_is_Some_2 _ _ Hi) as [q Hq].
    pose proof (proj1 (Forall_lookup _ _) Hwf _ _ Hq) as Hwfq.
    destruct (Hfifo q Hwfq) as [_ Hd]. specialize (Hd dequeue output Hdeq).
    destruct (holds q) as [|v vs] eqn:Hholds.
    + destruct (IH (S it) Hin) as (b & output' & hitlist' & st' & l & Hscan & Hwf' & Hts & Hcnt & Hres).
      exists b, output', hitlist', st', (mk i (false, output) :: l).
      split_and!; try done.
      * cbn [scan]. unfold bind at 1.
        rewrite (on_subqueue_miss _ _ _ _ _ _ Hq Hd). cbn. by rewrite Hscan.
      * destruct b.
        -- destruct Hres as (k & i' & vs & Hk & Hbefore & Hat & Hafter & -> & ->).
           exists (S k), i', vs. split_and!; try done.
           ++ intros [|j] i'' Hj Hlook; simplify_eq/=.
              ** rewrite (shards_lookup _ _ _ Hq). by rewrite Hholds.
              ** apply (Hbefore j); [lia|done].
           ++ f_equal. lia.
        -- destruct Hres as (-> & -> & Hall & -> & ->). split_and!; try done.
           constructor; [|done]. rewrite (shards_lookup _ _ _ Hq). by rewrite Hholds.
    + destruct Hd as (q' & Hd & Hwfq' & Hholds').
      eexists true, v, (hit_update it hitlist), _, [mk i (true, v)].
      split_and!.
      * cbn [scan]. unfold bind at 1. unfold on_subqueue. rewrite Hq, Hd. cbn. reflexivity.
      * cbn. by apply Forall_insert.
      * done.
      * done.
      * exists 0, i, vs. split_and!; try done.
        -- intros j i' Hj. lia.
        -- rewrite (shards_lookup _ _ _ Hq). by rewrite Hholds.
        -- unfold shards. cbn. by rewrite list_fmap_insert, Hholds'.
        -- by rewrite Nat.add_0_r.
Qed.

Lemma hit_moves_to_front (h : list nat) N k i :
  h ≡ₚ seq 0 N -> h !! k = Some i ->
  hit_update (0 + k) h ≡ₚ seq 0 N /\ hit_update (0 + k) h !! 0 = Some i.
Proof.
  intros Hperm Hk. cbn [Nat.add]. rewrite (hit_update_rotate h k i Hk). split; [|done].
  rewrite <- Hperm. rewrite <- (take_drop_middle h k i Hk) at 3.
  by rewrite Permutation_middle.
Qed.

Lemma all_shards_empty (h : list nat) st :
  h ≡ₚ seq 0 (length (_q (object st))) ->
  Forall (fun i => shards holds st !! i = Some []) h ->
  Forall (fun vs => vs = []) (shards holds st).
Proof.
  intros Hperm Hall. apply Forall_lookup. intros i vs Hi.
  assert (Hin : i ∈ h).
  { rewrite Hperm. apply elem_of_seq. apply lookup_lt_Some in Hi.
    unfold shards in Hi. rewrite length_fmap in Hi. lia. }
  pose proof (proj1 (Forall_forall _ _) Hall i Hin) as Hi'. congruence.
Qed.

Lemma shards_length st : length (shards holds st) = length (_q (object st)).
Proof. unfold shards. by rewrite length_fmap. Qed.

Lemma static_hitlist_cached t field upd st :
  (forall h x, field (upd h x) = Some h) ->
  exists st',
    static_hitlist (T:=T) t field upd st = Returns (current_hitlist field t st, st', []) /\
    object st' = object st /\
    field (statics_of t st') = Some (current_hitlist field t st).
Proof.
  intros Hupd.
  destruct (static_hitlist_total (T:=T) t field upd st) as (st1 & Hsh & Ho1).
  exists st1. split_and!; [done|done|].
  by destruct (static_hitlist_returns _ _ _ _ _ _ _ Hupd Hsh) as (_ & _ & _ & ?).
Qed.

(** X12 ([sc_dequeue] takes from the first subqueue that holds an
    element).  [sc_dequeue] without index, called alone on subqueues that
    are queues by a thread whose hitlist is a permutation of [0, N): it returns
    [false], leaving the object and [output] as they were, exactly when
    every subqueue is empty; otherwise it returns [true] with the front
    element of the first subqueue in hitlist order that holds one, takes
    that element and no other off the subqueues, and moves that subqueue to
    the front of the hitlist, which remains a permutation of [0, N). *)
Theorem sc_dequeue_takes_first_nonempty (output : T) (t : nat) st :
  fifo_subqueues wf holds ->
  Forall wf (_q (object st)) ->
  current_hitlist sc_hitlist t st ≡ₚ seq 0 (length (_q (object st))) ->
  exists b output' st' l,
    sc_dequeue output t st = Returns ((b, output'), st', l) /\
    Forall wf (_q (object st')) /\
    current_hitlist sc_hitlist t st' ≡ₚ seq 0 (length (_q (object st'))) /\
    if b then
      exists k i vs,
        current_hitlist sc_hitlist t st !! k = Some i /\
        (forall j i', j < k -> current_hitlist sc_hitlist t st !! j = Some i' ->
                      shards holds st !! i' = Some []) /\
        shards holds st !! i = Some (output' :: vs) /\
        shards holds st' = <[i := vs]> (shards holds st) /\
        current_hitlist sc_hitlist t st' !! 0 = Some i
    else
      output' = output /\ object st' = object st /\
      Forall (fun vs => vs = []) (shards holds st).
Proof.
  intros Hfifo Hwf Hperm.
  set (h := current_hitlist sc_hitlist t st) in *.
  destruct (static_hitlist_cached t sc_hitlist set_sc_hitlist st) as (st1 & Hsh & Ho1 & Hf1);
    [done|]. fold h in Hsh, Hf1.
  destruct (scan_fifo list_queue.sc_dequeue (fun i r => called_sc_dequeue i r.1 r.2)
              h 0 h output st1 Hfifo)
    as (b & output' & h' & st2 & l & Hscan & Hwf2 & Hts & Hcnt & Hres).
  { set_solver. } { by rewrite Ho1. } { rewrite Ho1. by apply permutation_in_range. }
  assert (Hsh1 : shards holds st1 = shards holds st) by (unfold shards; by rewrite Ho1).
  unfold sc_dequeue, bind. rewrite Hsh. unfold sub_sc_dequeue. rewrite Hscan. cbn.
  destruct b; cbn.
  - destruct Hres as (k & i & vs & Hk & Hbefore & Hat & Hafter & -> & _).
    destruct (hit_moves_to_front h _ k i Hperm Hk) as [Hperm' Hfront].
    assert (Hlen : length (_q (object st2)) = length (_q (object st))).
    { rewrite <- !shards_length, Hafter, length_insert. by rewrite Hsh1. }
    eexists true, output', _, _. split; [reflexivity|]. cbn. split_and!; [done| |].
    + unfold current_hitlist. rewrite statics_of_insert. cbn. by rewrite Hlen.
    + exists k, i, vs. rewrite <- Hsh1. split_and!; try done.
      unfold current_hitlist. rewrite statics_of_insert. done.
  - destruct Hres as (-> & -> & Hall & -> & _).
    eexists false, output, _, _. split; [reflexivity|]. cbn.
    split_and!; [done| |done|done|].
    + unfold current_hitlist. rewrite Hf1. cbn. by rewrite Ho1.
    + rewrite <- Hsh1. eapply all_shards_empty; [|exact Hall]. by rewrite Ho1.
Qed.

(** X13 ([mc_dequeue] hits in its first pass).  [mc_dequeue] without index,
    called alone on subqueues that are queues:
    as for [sc_dequeue], with the thread's [mc_dequeue] hitlist.  A hit is
    always made in the first pass, by [mc_dequeue_light]; the second pass
    is only run when every subqueue is empty, and then finds them empty
    again, so that [false] is returned after two calls on each
    subqueue. *)
Theorem mc_dequeue_takes_first_nonempty (output : T) (t : nat) st :
  fifo_subqueues wf holds ->
  Forall wf (_q (object st)) ->
  current_hitlist mc_hitlist t st ≡ₚ seq 0 (length (_q (object st))) ->
  exists b output' st' l,
    mc_dequeue output t st = Returns ((b, output'), st', l) /\
    Forall wf (_q (object st')) /\
    current_hitlist mc_hitlist t st' ≡ₚ seq 0 (length (_q (object st'))) /\
    if b then
      Forall (fun c => callee c = to_mc_dequeue_light) l /\
      exists k i vs,
        current_hitlist mc_hitlist t st !! k = Some i /\
        (forall j i', j < k -> current_hitlist mc_hitlist t st !! j = Some i' ->
                      shards holds st !! i' = Some []) /\
        shards holds st !! i = Some (output' :: vs) /\
        shards holds st' = <[i := vs]> (shards holds st) /\
        current_hitlist mc_hitlist t st' !! 0 = Some i
    else
      output' = output /\ object st' = object st /\
      Forall (fun vs => vs = []) (shards holds st) /\
      length l = 2 * length (_q (object st)).
Proof.
  intros Hfifo Hwf Hperm.
  set (h := current_hitlist mc_hitlist t st) in *.
  destruct (static_hitlist_cached t mc_hitlist set_mc_hitlist st) as (st1 & Hsh & Ho1 & Hf1);
    [done|]. fold h in Hsh, Hf1.
  assert (Hwf1 : Forall wf (_q (object st1))) by by rewrite Ho1.
  assert (Hin1 : Forall (fun i => i < length (_q (object st1))) h).
  { rewrite Ho1. by apply permutation_in_range. }
  destruct (scan_fifo list_queue.mc_dequeue_light
              (fun i r => called_mc_dequeue_light i r.1 r.2) h 0 h output st1 Hfifo)
    as (b & output' & h' & st2 & l & Hscan & Hwf2 & Hts & Hcnt & Hres);
    [set_solver|done|done|].
  assert (Hsh1 : shards holds st1 = shards holds st) by (unfold shards; by rewrite Ho1).
  unfold mc_dequeue, bind. rewrite Hsh. unfold sub_mc_dequeue_light. rewrite Hscan. cbn.
  destruct b; cbn.
  - destruct Hres as (k & i & vs & Hk & Hbefore & Hat & Hafter & -> & ->).
    destruct (hit_moves_to_front h _ k i Hperm Hk) as [Hperm' Hfront].
    assert (Hlen : length (_q (object st2)) = length (_q (object st))).
    { rewrite <- !shards_length, Hafter, length_insert. by rewrite Hsh1. }
    eexists true, output', _, _. split; [reflexivity|]. cbn. split_and!; [done| | |].
    + unfold current_hitlist. rewrite statics_of_insert. cbn. by rewrite Hlen.
    + rewrite !app_nil_r. apply Forall_app. split; [|by repeat constructor].
      apply Forall_fmap, Forall_forall. done.
    + exists k, i, vs. rewrite <- Hsh1. split_and!; try done.
      unfold current_hitlist. rewrite statics_of_insert. done.
  - destruct Hres as (-> & -> & Hall & -> & ->).
    destruct (scan_fifo list_queue.mc_dequeue
                (fun i r => called_mc_dequeue i r.1 r.2) h 0 h output st1 Hfifo)
      as (b & output' & h' & st2 & l & Hscan2 & Hwf2' & Hts2 & Hcnt2 & Hres2);
      [set_solver|done|done|].
    unfold sub_mc_dequeue. rewrite Hscan2. cbn.
    destruct b; cbn.
    + exfalso. destruct Hres2 as (k & i & vs & Hk & _ & Hat & _).
      pose proof (proj1 (Forall_lookup _ _) Hall _ _ Hk) as Hempty. cbn in Hempty.
      congruence.
    + destruct Hres2 as (-> & -> & _ & -> & ->).
      eexists false, output, _, _. split; [reflexivity|]. cbn.
      split_and!; [done| |done|done| |].
      * unfold current_hitlist. rewrite Hf1. cbn. by rewrite Ho1.
      * rewrite <- Hsh1. eapply all_shards_empty; [|exact Hall]. by rewrite Ho1.
      * rewrite app_nil_r, length_app, !length_map.
        rewrite Hperm, length_seq. lia.
Qed.

(** X14 (the hitlist adapts).  When the subqueue at the front of the thread's
    hitlist holds an element, as it does after a hit on a subqueue that
    keeps being filled, [sc_dequeue] makes a single call, on that
    subqueue, takes its front element and leaves the hitlist as it is. *)
Theorem hitlist_adapts (output : T) (t : nat) st (i : nat) (v : T) (vs : list T) :
  fifo_subqueues wf holds ->
  Forall wf (_q (object st)) ->
  current_hitlist sc_hitlist t st !! 0 = Some i ->
  shards holds st !! i = Some (v :: vs) ->
  exists st',
    sc_dequeue output t st = Returns ((true, v), st', [called_sc_dequeue i true v]) /\
    shards holds st' = <[i := vs]> (shards holds st) /\
    current_hitlist sc_hitlist t st' = current_hitlist sc_hitlist t st.
Proof.
  intros Hfifo Hwf Hfront Hat.
  set (h := current_hitlist sc_hitlist t st) in *.
  destruct (static_hitlist_cached t sc_hitlist set_sc_hitlist st) as (st1 & Hsh & Ho1 & Hf1);
    [done|]. fold h in Hsh, Hf1.
  destruct h as [|i0 rest] eqn:Hh; simplify_eq/=.
  unfold shards in Hat. rewrite list_lookup_fmap in Hat.
  destruct (_q (object st) !! i) as [q|] eqn:Hq; simplify_eq/=.
  pose proof (proj1 (Forall_lookup _ _) Hwf _ _ Hq) as Hwfq.
  destruct (Hfifo q Hwfq) as [_ Hd].
  specialize (Hd list_queue.sc_dequeue output). rewrite Hat in Hd.
  destruct Hd as (q' & Hd & _ & Hq'); [set_solver|].
  unfold sc_dequeue, bind. rewrite Hsh. cbn [scan]. unfold bind.
  unfold sub_sc_dequeue, on_subqueue. rewrite Ho1, Hq, Hd. cbn.
  eexists. split_and!; [reflexivity| |].
  - unfold shards. cbn. by rewrite list_fmap_insert, Hq'.
  - unfold current_hitlist. by rewrite statics_of_insert.
Qed.

(** ** Enqueues *)

Lemma sub_mp_enqueue_appends index input st vs :
  fifo_subqueues wf holds ->
  Forall wf (_q (object st)) ->
  shards holds st !! index = Some vs ->
  exists st',
    sub_mp_enqueue index input st = Returns (tt, st', [called_mp_enqueue index input]) /\
    shards holds st' = <[index := vs ++ [input]]> (shards holds st) /\
    Forall wf (_q (object st')) /\
    thread_statics st' = thread_statics st /\
    _enqueue_indx (object st') = _enqueue_indx (object st).
Proof.
  intros Hfifo Hwf Hvs. unfold shards in Hvs. rewrite list_lookup_fmap in Hvs.
  destruct (_q (object st) !! index) as [q|] eqn:Hq; simplify_eq/=.
  pose proof (proj1 (Forall_lookup _ _) Hwf _ _ Hq) as Hwfq.
  destruct (Hfifo q Hwfq) as [He _]. destruct (He input) as (q' & Hcall & Hwfq' & Hholds).
  eexists. split_and!.
  - unfold sub_mp_enqueue, on_subqueue. rewrite Hq, Hcall. reflexivity.
  - unfold shards. cbn. by rewrite list_fmap_insert, Hholds.
  - cbn. by apply Forall_insert.
  - done.
  - done.
Qed.

Lemma enqueue_through_unfold f c input t st :
  enqueue_through f c input t st =
  bind (static_indx f c t) (fun indx => sub_mp_enqueue indx input) st.
Proof. by destruct f. Qed.

Lemma enqueue_through_cached f c input t st i :
  get_indx f c (statics_of t st) = Some i ->
  enqueue_through f c input t st = sub_mp_enqueue i input st.
Proof.
  intros Hget. rewrite enqueue_through_unfold. unfold bind.
  rewrite (static_indx_cached _ _ _ _ _ Hget).
  by destruct (sub_mp_enqueue i input st) as [[[??]?]| |].
Qed.

Lemma enqueue_through_first f c input t st :
  get_indx f c (statics_of t st) = None ->
  _q (object st) <> [] ->
  enqueue_through f c input t st =
  sub_mp_enqueue
    (Z.to_nat (_enqueue_indx (object st) mod Z.of_nat (length (_q (object st))))) input
    (mkProgram
       (mkMulti (_q (object st)) ((_enqueue_indx (object st) + 1) mod size_t_modulus))
       (<[t := set_indx f c
                 (Z.to_nat (_enqueue_indx (object st)
                            mod Z.of_nat (length (_q (object st)))))
                 (statics_of t st)]> (thread_statics st))).
Proof.
  intros Hget Hne. rewrite enqueue_through_unfold. unfold bind.
  rewrite (static_indx_first _ _ _ _ Hget Hne).
  match goal with
  | |- context [sub_mp_enqueue ?i input ?x] =>
      by destruct (sub_mp_enqueue i input x) as [[[??]?]| |]
  end.
Qed.

Lemma first_indx_in_range st :
  _q (object st) <> [] ->
  Z.to_nat (_enqueue_indx (object st) mod Z.of_nat (length (_q (object st))))
  < length (_q (object st)).
Proof.
  intros Hne.
  assert (0 < length (_q (object st))) by (destruct (_q (object st)); [done|simpl; lia]).
  pose proof (Z.mod_pos_bound (_enqueue_indx (object st))
                (Z.of_nat (length (_q (object st))))).
  lia.
Qed.

(** X15 (enqueue without index).  An enqueue without index, on subqueues
    that are queues: it returns, having put its argument behind what one
    subqueue holds and changed no other.  That subqueue is the one the
    thread's [indx] of this entry point names, and the counter is left
    alone; where the thread passes the declaration for the first time, the
    subqueue is the counter modulo the number of subqueues, the counter is
    incremented, and the variable holds the index from then on. *)
Theorem auto_routed_enqueue (f : forwarder) (c : value_category) (input : T) (t : nat) st :
  fifo_subqueues wf holds ->
  Forall wf (_q (object st)) ->
  _q (object st) <> [] ->
  (forall i, get_indx f c (statics_of t st) = Some i -> i < length (_q (object st))) ->
  exists i vs st',
    enqueue_through f c input t st = Returns (tt, st', [called_mp_enqueue i input]) /\
    i = default (Z.to_nat (_enqueue_indx (object st) mod Z.of_nat (length (_q (object st)))))
                (get_indx f c (statics_of t st)) /\
    shards holds st !! i = Some vs /\
    shards holds st' = <[i := vs ++ [input]]> (shards holds st) /\
    get_indx f c (statics_of t st') = Some i /\
    _enqueue_indx (object st')
    = match get_indx f c (statics_of t st) return Z with
      | Some _ => _enqueue_indx (object st)
      | None => ((_enqueue_indx (object st) + 1) mod size_t_modulus)%Z
      end /\
    Forall wf (_q (object st')).
Proof.
  intros Hfifo Hwf Hne Hcached.
  destruct (get_indx f c (statics_of t st)) as [i|] eqn:Hget.
  - rewrite (enqueue_through_cached _ _ _ _ _ _ Hget).
    specialize (Hcached i eq_refl).
    destruct (lookup_lt_is_Some_2 (shards holds st) i) as [vs Hvs];
      [by rewrite shards_length|].
    destruct (sub_mp_enqueue_appends i input st vs Hfifo Hwf Hvs)
      as (st' & Hcall & Hsh & Hwf' & Hts & Hcnt).
    exists i, vs, st'. split_and!; try done.
    unfold statics_of. by rewrite Hts.
  - rewrite (enqueue_through_first _ _ _ _ _ Hget Hne).
    pose proof (first_indx_in_range st Hne) as Hi.
    set (i := Z.to_nat (_enqueue_indx (object st) mod Z.of_nat (length (_q (object st))))) in *.
    match goal with
    | |- context [sub_mp_enqueue i input ?x] => set (st1 := x)
    end.
    assert (Hsh1 : shards holds st1 = shards holds st) by done.
    destruct (lookup_lt_is_Some_2 (shards holds st) i) as [vs Hvs];
      [by rewrite shards_length|].
    destruct (sub_mp_enqueue_appends i input st1 vs Hfifo Hwf)
      as (st' & Hcall & Hsh & Hwf' & Hts & Hcnt); [by rewrite Hsh1|].
    exists i, vs, st'. split_and!; try done.
    unfold statics_of. rewrite Hts. subst st1. cbn. rewrite lookup_insert_eq. cbn.
    apply set_indx_same.
Qed.

(** ** Calls with an explicit index *)

(** X16 (calls with an index).  The members that take an index act on that
    subqueue alone and use
    neither the counter nor any [thread_local] variable: on subqueues that
    are queues the enqueues put their argument behind what subqueue
    [index] holds, the dequeues return [false] when it holds nothing,
    whatever the others hold, and otherwise take its front element.  An
    index that is not below the number of subqueues is undefined
    behaviour for all of them. *)
Theorem explicit_index_calls (c : value_category) (input output : T) (index t : nat) st :
  fifo_subqueues wf holds ->
  Forall wf (_q (object st)) ->
  match shards holds st !! index with
  | None =>
      sp_enqueue_at c input index t st = Undefined /\
      mp_enqueue_at c input index t st = Undefined /\
      sc_dequeue_at output index st = Undefined /\
      mc_dequeue_at output index st = Undefined
  | Some vs =>
      (exists st',
         sp_enqueue_at c input index t st
           = Returns (tt, st', [called_mp_enqueue index input]) /\
         mp_enqueue_at c input index t st
           = Returns (tt, st', [called_mp_enqueue index input]) /\
         shards holds st' = <[index := vs ++ [input]]> (shards holds st) /\
         thread_statics st' = thread_statics st /\
         _enqueue_indx (object st') = _enqueue_indx (object st)) /\
      match vs with
      | [] =>
          sc_dequeue_at output index st
            = Returns ((false, output), st, [called_sc_dequeue index false output]) /\
          mc_dequeue_at output index st
            = Returns ((false, output), st, [called_mc_dequeue index false output])
      | v :: vs' =>
          (exists st',
             sc_dequeue_at output index st
               = Returns ((true, v), st', [called_sc_dequeue index true v]) /\
             shards holds st' = <[index := vs']> (shards holds st) /\
             thread_statics st' = thread_statics st) /\
          (exists st',
             mc_dequeue_at output index st
               = Returns ((true, v), st', [called_mc_dequeue index true v]) /\
             shards holds st' = <[index := vs']> (shards holds st) /\
             thread_statics st' = thread_statics st)
      end
  end.
Proof.
  intros Hfifo Hwf.
  destruct (shards holds st !! index) as [vs|] eqn:Hvs.
  - split.
    + destruct (sub_mp_enqueue_appends index input st vs Hfifo Hwf Hvs)
        as (st' & Hcall & Hsh & _ & Hts & Hcnt).
      by exists st'.
    + unfold shards in Hvs. rewrite list_lookup_fmap in Hvs.
      destruct (_q (object st) !! index) as [q|] eqn:Hq; simplify_eq/=.
      pose proof (proj1 (Forall_lookup _ _) Hwf _ _ Hq) as Hwfq.
      destruct (Hfifo q Hwfq) as [_ Hd].
      pose proof (Hd list_queue.sc_dequeue output) as Hsc.
      pose proof (Hd list_queue.mc_dequeue output) as Hmc.
      destruct (holds q) as [|v vs'] eqn:Hholds.
      * split.
        -- apply on_subqueue_miss with (q := q); [done|]. apply Hsc. set_solver.
        -- apply on_subqueue_miss with (q := q); [done|]. apply Hmc. set_solver.
      * destruct Hsc as (q1 & Hsc & _ & Hq1); [set_solver|].
        destruct Hmc as (q2 & Hmc & _ & Hq2); [set_solver|].
        split; eexists; split_and!.
        -- unfold sc_dequeue_at, sub_sc_dequeue, on_subqueue. rewrite Hq, Hsc. reflexivity.
        -- unfold shards. cbn. by rewrite list_fmap_insert, Hq1.
        -- done.
        -- unfold mc_dequeue_at, sub_mc_dequeue, on_subqueue. rewrite Hq, Hmc. reflexivity.
        -- unfold shards. cbn. by rewrite list_fmap_insert, Hq2.
        -- done.
  - unfold shards in Hvs. rewrite list_lookup_fmap in Hvs.
    destruct (_q (object st) !! index) as [q|] eqn:Hq; simplify_eq/=.
    unfold sp_enqueue_at, sp_enqueue_forward_at, mp_enqueue_at, mp_enqueue_forward_at,
      sc_dequeue_at, mc_dequeue_at, sub_mp_enqueue, sub_sc_dequeue, sub_mc_dequeue,
      on_subqueue.
    by rewrite Hq.
Qed.

(** ** No subqueues *)

(** X17 (no subqueues).  A queue constructed with zero subqueues: called by
    a thread that has
    not used the class before, an enqueue without index takes the counter
    modulo zero, which is undefined, while [sc_dequeue] and [mc_dequeue]
    return [false] without a call on any subqueue and leave [output] and
    the object as they were. *)
Theorem no_subqueues (f : forwarder) (c : value_category) (input output : T) (t : nat) st :
  _q (object st) = [] ->
  statics_of t st = uninitialised ->
  enqueue_through f c input t st = Undefined /\
  (exists st', sc_dequeue output t st = Returns ((false, output), st', []) /\
               object st' = object st) /\
  (exists st', mc_dequeue output t st = Returns ((false, output), st', []) /\
               object st' = object st).
Proof.
  intros Hq Hst. split_and!.
  - rewrite enqueue_through_unfold. unfold bind, static_indx, bind, read_static.
    rewrite Hst. destruct f, c; cbn; by rewrite Hq.
  - unfold sc_dequeue, bind, static_hitlist, bind, read_static. rewrite Hst. cbn.
    rewrite Hq. cbn. by eexists.
  - unfold mc_dequeue, bind, static_hitlist, bind, read_static. rewrite Hst. cbn.
    rewrite Hq. cbn. by eexists.
Qed.

(** ** Thread-local variables and a second object *)

Lemma scan_out_of_range (dequeue : T -> Q -> outcome (bool * T * Q))
    (mk : nat -> bool * T -> subcall T) hitlist todo : forall it k i output st,
  fifo_subqueues wf holds ->
  dequeue ∈ [list_queue.sc_dequeue; list_queue.mc_dequeue; list_queue.mc_dequeue_light] ->
  Forall wf (_q (object st)) ->
  todo !! k = Some i ->
  length (_q (object st)) <= i ->
  (forall j i', j < k -> todo !! j = Some i' -> shards holds st !! i' = Some []) ->
  scan (fun i out => on_subqueue i (dequeue out) (mk i)) hitlist it todo output st = Undefined.
Proof.
  induction todo as [|i0 todo IH]; intros it k i output st Hfifo Hdeq Hwf Hk Hi Hbefore; [done|].
  destruct k as [|k]; simplify_eq/=.
  - unfold bind, on_subqueue. by rewrite (lookup_ge_None_2 _ _ Hi).
  - pose proof (Hbefore 0 i0 ltac:(lia) eq_refl) as H0.
    unfold shards in H0. rewrite list_lookup_fmap in H0.
    destruct (_q (object st) !! i0) as [q|] eqn:Hq; simplify_eq/=.
    pose proof (proj1 (Forall_lookup _ _) Hwf _ _ Hq) as Hwfq.
    destruct (Hfifo q Hwfq) as [_ Hd]. specialize (Hd dequeue output Hdeq).
    rewrite H0 in Hd.
    unfold bind at 1. rewrite (on_subqueue_miss _ _ _ _ _ _ Hq Hd). cbn.
    rewrite (IH (S it) k i output st); try done.
    intros j i' Hj Hlook. apply (Hbefore (S j)); [lia|done].
Qed.

Lemma sc_dequeue_over_empty (output : T) (t : nat) st :
  fifo_subqueues wf holds ->
  Forall wf (_q (object st)) ->
  Forall (fun i => shards holds st !! i = Some []) (current_hitlist sc_hitlist t st) ->
  exists st',
    sc_dequeue output t st
      = Returns ((false, output), st',
                 map (fun i => called_sc_dequeue i false output)
                     (current_hitlist sc_hitlist t st)) /\
    object st' = object st /\
    sc_hitlist (statics_of t st') = Some (current_hitlist sc_hitlist t st).
Proof.
  intros Hfifo Hwf Hall.
  set (h := current_hitlist sc_hitlist t st) in *.
  destruct (static_hitlist_cached t sc_hitlist set_sc_hitlist st) as (st1 & Hsh & Ho1 & Hf1);
    [done|]. fold h in Hsh, Hf1.
  assert (Hsh1 : shards holds st1 = shards holds st) by (unfold shards; by rewrite Ho1).
  destruct (scan_fifo list_queue.sc_dequeue (fun i r => called_sc_dequeue i r.1 r.2)
              h 0 h output st1 Hfifo)
    as (b & output' & h' & st2 & l & Hscan & Hwf2 & Hts & Hcnt & Hres).
  { set_solver. } { by rewrite Ho1. }
  { eapply Forall_impl; [exact Hall|]. intros i Hi. cbn in Hi.
    apply lookup_lt_Some in Hi. rewrite shards_length in Hi. by rewrite Ho1. }
  unfold sc_dequeue, bind. rewrite Hsh. unfold sub_sc_dequeue. rewrite Hscan. cbn.
  destruct b; cbn.
  - exfalso. destruct Hres as (k & i & vs & Hk & _ & Hat & _).
    pose proof (proj1 (Forall_lookup _ _) Hall _ _ Hk) as Hempty. cbn in Hempty.
    rewrite Hsh1 in Hat. congruence.
  - destruct Hres as (-> & -> & _ & -> & ->). exists st1. rewrite app_nil_r. done.
Qed.

Lemma sc_dequeue_out_of_range (output : T) (t : nat) st k i :
  fifo_subqueues wf holds ->
  Forall wf (_q (object st)) ->
  current_hitlist sc_hitlist t st !! k = Some i ->
  length (_q (object st)) <= i ->
  (forall j i', j < k -> current_hitlist sc_hitlist t st !! j = Some i' ->
                shards holds st !! i' = Some []) ->
  sc_dequeue output t st = Undefined.
Proof.
  intros Hfifo Hwf Hk Hi Hbefore.
  set (h := current_hitlist sc_hitlist t st) in *.
  destruct (static_hitlist_cached t sc_hitlist set_sc_hitlist st) as (st1 & Hsh & Ho1 & Hf1);
    [done|]. fold h in Hsh, Hf1.
  assert (Hsh1 : shards holds st1 = shards holds st) by (unfold shards; by rewrite Ho1).
  unfold sc_dequeue, bind. rewrite Hsh. unfold sub_sc_dequeue.
  rewrite (scan_out_of_range list_queue.sc_dequeue (fun i r => called_sc_dequeue i r.1 r.2)
             h h 0 k i output st1); try done.
  - set_solver.
  - by rewrite Ho1.
  - by rewrite Ho1.
  - by rewrite Hsh1.
Qed.

(** X18 (the hitlist outlives the object).  The hitlist belongs to the
    member function, not to the object.  A
    thread makes its first [sc_dequeue] call on a queue of [N] subqueues,
    all empty: the call returns [false] and leaves the thread with the
    hitlist [0, ..., N-1].  When the same thread then calls [sc_dequeue] on
    a second queue of the class, the call scans with that hitlist: it looks
    at the first [N] subqueues only, so that with these empty it returns
    [false] whatever the later subqueues hold; and on a second queue of
    fewer than [N] subqueues, all empty, it indexes the vector out of
    range. *)
Theorem hitlist_outlives_object (output : T) (t : nat) st (o2 : multiqueue Q) :
  fifo_subqueues wf holds ->
  sc_hitlist (statics_of t st) = None ->
  Forall wf (_q (object st)) ->
  Forall (fun q => holds q = []) (_q (object st)) ->
  Forall wf (_q o2) ->
  Forall (fun q => holds q = []) (take (length (_q (object st))) (_q o2)) ->
  exists st1 l1,
    sc_dequeue output t st = Returns ((false, output), st1, l1) /\
    if decide (length (_q (object st)) <= length (_q o2)) then
      exists st2 l2,
        sc_dequeue output t (on_object o2 st1) = Returns ((false, output), st2, l2) /\
        map subqueue_of l2 = seq 0 (length (_q (object st)))
    else sc_dequeue output t (on_object o2 st1) = Undefined.
Proof.
  intros Hfifo Hnone Hwf Hempty Hwf2 Hempty2.
  set (N := length (_q (object st))) in *.
  assert (Hh : current_hitlist sc_hitlist t st = seq 0 N).
  { unfold current_hitlist. by rewrite Hnone. }
  destruct (sc_dequeue_over_empty output t st Hfifo Hwf) as (st1 & Hcall & Ho1 & Hf1).
  { rewrite Hh. apply Forall_forall. intros i [_ Hi]%elem_of_seq. cbn in Hi.
    destruct (lookup_lt_is_Some_2 (_q (object st)) i Hi) as [q Hq].
    rewrite (shards_lookup _ _ _ Hq).
    by rewrite (proj1 (Forall_lookup _ _) Hempty _ _ Hq). }
  rewrite Hh in Hcall, Hf1.
  eexists st1, _. split; [exact Hcall|].
  assert (Hh2 : current_hitlist sc_hitlist t (on_object o2 st1) = seq 0 N).
  { unfold current_hitlist, on_object, statics_of in *. cbn. by rewrite Hf1. }
  assert (Hlow : forall i, i < N -> i < length (_q o2) ->
                   shards holds (on_object o2 st1) !! i = Some []).
  { intros i Hi Hi2. destruct (lookup_lt_is_Some_2 (_q o2) i Hi2) as [q Hq].
    rewrite (shards_lookup (on_object o2 st1) i q Hq). f_equal.
    apply (proj1 (Forall_lookup _ _) Hempty2 i q). by rewrite lookup_take_lt. }
  destruct (decide (N <= length (_q o2))) as [Hle|Hgt].
  - destruct (sc_dequeue_over_empty output t (on_object o2 st1) Hfifo Hwf2)
      as (st2 & Hcall2 & _).
    { rewrite Hh2. apply Forall_forall. intros i [_ Hi]%elem_of_seq. cbn in Hi.
      apply Hlow; lia. }
    rewrite Hh2 in Hcall2. eexists st2, _. split; [exact Hcall2|].
    rewrite map_map. cbn. apply map_id.
  - apply (sc_dequeue_out_of_range output t (on_object o2 st1)
             (length (_q o2)) (length (_q o2))); try done.
    + rewrite Hh2. apply lookup_seq. lia.
    + intros j i' Hj. rewrite Hh2. intros [-> _]%lookup_seq. cbn. apply Hlow; lia.
Qed.

(** X19 ([indx] outlives the object).  [indx] belongs to the forwarder, not
    to the object.  A thread makes
    its first enqueue without index through a forwarder on a queue of [N]
    subqueues and is given the index [i], the counter modulo [N].  When the
    same thread then calls the same function on a second queue of the
    class, the enqueue goes to subqueue [i] of that queue, whose counter
    is neither read nor incremented; and when the second queue has no
    subqueue [i], the call indexes the vector out of range. *)
Theorem indx_outlives_object (f : forwarder) (c : value_category) (input input2 : T)
    (t : nat) st (o2 : multiqueue Q) :
  fifo_subqueues wf holds ->
  get_indx f c (statics_of t st) = None ->
  Forall wf (_q (object st)) ->
  _q (object st) <> [] ->
  Forall wf (_q o2) ->
  exists i st1,
    enqueue_through f c input t st = Returns (tt, st1, [called_mp_enqueue i input]) /\
    i = Z.to_nat (_enqueue_indx (object st) mod Z.of_nat (length (_q (object st)))) /\
    if decide (i < length (_q o2)) then
      exists st2,
        enqueue_through f c input2 t (on_object o2 st1)
          = Returns (tt, st2, [called_mp_enqueue i input2]) /\
        _enqueue_indx (object st2) = _enqueue_indx o2
    else enqueue_through f c input2 t (on_object o2 st1) = Undefined.
Proof.
  intros Hfifo Hget Hwf Hne Hwf2.
  rewrite (enqueue_through_first _ _ _ _ _ Hget Hne).
  pose proof (first_indx_in_range st Hne) as Hi.
  set (i := Z.to_nat (_enqueue_indx (object st) mod Z.of_nat (length (_q (object st))))) in *.
  match goal with
  | |- context [sub_mp_enqueue i input ?x] => set (st0 := x)
  end.
  destruct (lookup_lt_is_Some_2 (shards holds st0) i) as [vs Hvs];
    [by rewrite shards_length|].
  destruct (sub_mp_enqueue_appends i input st0 vs Hfifo Hwf Hvs)
    as (st1 & Hcall & _ & _ & Hts & _).
  exists i, st1. split_and!; [done|done|].
  assert (Hget1 : get_indx f c (statics_of t (on_object o2 st1)) = Some i).
  { unfold statics_of, on_object. cbn. rewrite Hts. subst st0. cbn.
    rewrite lookup_insert_eq. cbn. apply set_indx_same. }
  rewrite (enqueue_through_cached _ _ _ _ _ _ Hget1).
  destruct (decide (i < length (_q o2))) as [Hlt|Hge].
  - destruct (lookup_lt_is_Some_2 (shards holds (on_object o2 st1)) i) as [vs2 Hvs2];
      [by rewrite shards_length|].
    destruct (sub_mp_enqueue_appends i input2 (on_object o2 st1) vs2 Hfifo Hwf2 Hvs2)
      as (st2 & Hcall2 & _ & _ & _ & Hcnt).
    by exists st2.
  - unfold sub_mp_enqueue, on_subqueue. cbn.
    rewrite lookup_ge_None_2; [done|lia].
Qed.

End Shards.

(** ** [CONQ::MPMCQueue] subqueues are queues *)

Lemma MPMCQueue_fifo_subqueues {T} (dflt : T) :
  fifo_subqueues (H:=list_queue.of_MPMCQueue dflt) (reachable dflt) contents.
Proof.
  intros q Hq. destruct (reachable_Rep dflt q Hq) as (M & F & H). split.
  - intros input.
    destruct (enqueue_outcome dflt q M F _ input input H) as (q' & Hall & Hc).
    destruct (Hall (op_mpEnqueue input)) as (tr & Hcall); [by right|].
    exists q'. split_and!; [|by eapply reachable_call|done].
    apply call_code_enqueue in Hcall. cbn. by rewrite Hcall.
  - intros dequeue output Hin.
    destruct (dequeue_outcome dflt q M F _ output H) as (b & output' & q' & Hall & Hc).
    assert (exists o (member : T -> prog (bool * T)),
              is_dequeue o /\
              code o output = ITree.bind (member output) (fun r => Ret (dequeued r.1 r.2)) /\
              dequeue output q = list_queue.untraced (call dflt (member output) q))
      as (o & member & Ho & Hcode & ->).
    { rewrite !elem_of_cons, elem_of_nil in Hin. destruct Hin as [->|[->|[->|[]]]].
      - exists op_scDequeue, scDequeue. split_and!; [by left|done|done].
      - exists op_mcDequeue, mcDequeue. split_and!; [by right; left|done|done].
      - exists op_mcDequeueLight, mcDequeueLight. split_and!; [by right; right|done|done]. }
    destruct (Hall o Ho) as (tr & Hcall).
    assert (Hq' : reachable dflt q') by by eapply reachable_call.
    unfold call in Hcall at 1. rewrite Hcode in Hcall.
    apply (call_code_dequeue dflt member) in Hcall. rewrite Hcall. cbn.
    destruct (contents q) as [|v vs].
    + by destruct Hc as (-> & -> & ->).
    + destruct Hc as (-> & -> & Hc). by exists q'.
Qed.

Lemma two_subqueues_reachable : Forall (reachable 0%Z) (_q (object two_subqueues)).
Proof. repeat constructor. Qed.

Lemma sc_dequeue_takes_first_nonempty_witness :
  fifo_subqueues (reachable 0%Z) contents /\
  Forall (reachable 0%Z) (_q (object loaded)) /\
  current_hitlist sc_hitlist 1 loaded ≡ₚ seq 0 (length (_q (object loaded))) /\
  exists b output' st' l,
    sc_dequeue 0%Z 1 loaded = Returns ((b, output'), st', l) /\
    Forall (reachable 0%Z) (_q (object st')).
Proof.
  assert (H1 := MPMCQueue_fifo_subqueues 0%Z).
  assert (H2 := loaded_reachable).
  assert (H3 : current_hitlist sc_hitlist 1 loaded ≡ₚ seq 0 (length (_q (object loaded))))
    by reflexivity.
  split_and!; [done..|].
  destruct (sc_dequeue_takes_first_nonempty (reachable 0%Z) contents 0%Z 1 loaded H1 H2 H3)
    as (b & output' & st' & l & Hcall & Hwf & _).
  by exists b, output', st', l.
Defined.

Lemma mc_dequeue_takes_first_nonempty_witness :
  fifo_subqueues (reachable 0%Z) contents /\
  Forall (reachable 0%Z) (_q (object loaded)) /\
  current_hitlist mc_hitlist 1 loaded ≡ₚ seq 0 (length (_q (object loaded))) /\
  exists b output' st' l,
    mc_dequeue 0%Z 1 loaded = Returns ((b, output'), st', l) /\
    Forall (reachable 0%Z) (_q (object st')).
Proof.
  assert (H1 := MPMCQueue_fifo_subqueues 0%Z).
  assert (H2 := loaded_reachable).
  assert (H3 : current_hitlist mc_hitlist 1 loaded ≡ₚ seq 0 (length (_q (object loaded))))
    by reflexivity.
  split_and!; [done..|].
  destruct (mc_dequeue_takes_first_nonempty (reachable 0%Z) contents 0%Z 1 loaded H1 H2 H3)
    as (b & output' & st' & l & Hcall & Hwf & _).
  by exists b, output', st', l.
Defined.

Lemma warmed_up_reachable : Forall (reachable 0%Z) (_q (object warmed_up)).
Proof.
  repeat constructor.
  - apply (exec_reachable 0%Z [op_mpEnqueue 42%Z; op_mpEnqueue 44%Z; op_scDequeue] 0%Z
             (fresh 0%Z)
             (match exec 0%Z [op_mpEnqueue 42%Z; op_mpEnqueue 44%Z; op_scDequeue] 0%Z
                          (fresh 0%Z) with
              | Returns (h, _) => h
              | _ => []
              end)); [constructor|].
    vm_compute. reflexivity.
  - apply (exec_reachable 0%Z [op_mpEnqueue 43%Z] 0%Z (fresh 0%Z)
             (match exec 0%Z [op_mpEnqueue 43%Z] 0%Z (fresh 0%Z) with
              | Returns (h, _) => h
              | _ => []
              end)); [constructor|].
    vm_compute. reflexivity.
Qed.

Lemma hitlist_adapts_witness :
  fifo_subqueues (reachable 0%Z) contents /\
  Forall (reachable 0%Z) (_q (object warmed_up)) /\
  current_hitlist sc_hitlist 1 warmed_up !! 0 = Some 1 /\
  shards contents warmed_up !! 1 = Some [44%Z] /\
  exists st',
    sc_dequeue 0%Z 1 warmed_up = Returns ((true, 44%Z), st', [called_sc_dequeue 1 true 44%Z]) /\
    shards contents st' = <[1 := []]> (shards contents warmed_up) /\
    current_hitlist sc_hitlist 1 st' = current_hitlist sc_hitlist 1 warmed_up.
Proof.
  assert (H1 := MPMCQueue_fifo_subqueues 0%Z).
  assert (H2 := warmed_up_reachable).
  split_and!; [done|done|reflexivity|reflexivity|].
  apply (hitlist_adapts (reachable 0%Z) contents 0%Z 1 warmed_up 1 44%Z [] H1 H2);
    reflexivity.
Defined.

Lemma auto_routed_enqueue_witness :
  fifo_subqueues (reachable 0%Z) contents /\
  Forall (reachable 0%Z) (_q (object loaded)) /\
  _q (object loaded) <> [] /\
  (forall i, get_indx mp_forward rvalue (statics_of 4 loaded) = Some i ->
             i < length (_q (object loaded))) /\
  exists i vs st',
    enqueue_through mp_forward rvalue 5%Z 4 loaded
      = Returns (tt, st', [called_mp_enqueue i 5%Z]) /\
    shards contents loaded !! i = Some vs /\
    shards contents st' = <[i := vs ++ [5%Z]]> (shards contents loaded).
Proof.
  assert (H1 := MPMCQueue_fifo_subqueues 0%Z).
  assert (H2 := loaded_reachable).
  assert (H3 : _q (object loaded) <> []) by done.
  assert (H4 : forall i, get_indx mp_forward rvalue (statics_of 4 loaded) = Some i ->
                         i < length (_q (object loaded))) by done.
  split_and!; [done..|].
  destruct (auto_routed_enqueue (reachable 0%Z) contents mp_forward rvalue 5%Z 4 loaded
              H1 H2 H3 H4)
    as (i & vs & st' & Hcall & _ & Hvs & Hsh & _).
  by exists i, vs, st'.
Defined.

Lemma explicit_index_calls_witness :
  fifo_subqueues (reachable 0%Z) contents /\
  Forall (reachable 0%Z) (_q (object loaded)) /\
  shards contents loaded !! 1 = Some [42%Z] /\
  exists st',
    sc_dequeue_at 0%Z 1 loaded = Returns ((true, 42%Z), st', [called_sc_dequeue 1 true 42%Z]) /\
    shards contents st' = <[1 := []]> (shards contents loaded).
Proof.
  assert (H1 := MPMCQueue_fifo_subqueues 0%Z).
  assert (H2 := loaded_reachable).
  split_and!; [done..|].
  pose proof (explicit_index_calls (reachable 0%Z) contents lvalue 0%Z 0%Z 1 0 loaded H1 H2)
    as Hx.
  change (shards contents loaded !! 1) with (Some [42%Z]) in Hx.
  destruct Hx as (_ & (st' & Hcall & Hsh & _) & _).
  by exists st'.
Defined.

Lemma no_subqueues_witness :
  _q (object (mkProgram (constructor (fresh 0%Z) 0) ∅)) = [] /\
  statics_of 0 (mkProgram (constructor (fresh 0%Z) 0) ∅) = uninitialised /\
  enqueue_through sp_forward lvalue 5%Z 0
    (mkProgram (constructor (fresh 0%Z) 0) ∅) = Undefined /\
  (exists st',
     sc_dequeue 7%Z 0 (mkProgram (constructor (fresh 0%Z) 0) ∅)
       = Returns ((false, 7%Z), st', []) /\
     object st' = constructor (fresh 0%Z) 0) /\
  (exists st',
     mc_dequeue 7%Z 0 (mkProgram (constructor (fresh 0%Z) 0) ∅)
       = Returns ((false, 7%Z), st', []) /\
     object st' = constructor (fresh 0%Z) 0).
Proof.
  split; [reflexivity|]. split; [reflexivity|].
  apply (no_subqueues sp_forward lvalue 5%Z 7%Z 0
           (mkProgram (constructor (fresh 0%Z) 0) ∅)); reflexivity.
Defined.

Lemma hitlist_outlives_object_witness :
  fifo_subqueues (reachable 0%Z) contents /\
  sc_hitlist (statics_of 0 three_subqueues) = None /\
  Forall (reachable 0%Z) (_q (object three_subqueues)) /\
  Forall (fun q => contents q = []) (_q (object three_subqueues)) /\
  Forall (reachable 0%Z) (_q (object two_subqueues)) /\
  Forall (fun q => contents q = [])
         (take (length (_q (object three_subqueues))) (_q (object two_subqueues))) /\
  exists st1 l1,
    sc_dequeue 0%Z 0 three_subqueues = Returns ((false, 0%Z), st1, l1) /\
    sc_dequeue 0%Z 0 (on_object (object two_subqueues) st1) = Undefined.
Proof.
  assert (H1 := MPMCQueue_fifo_subqueues 0%Z).
  assert (H2 : sc_hitlist (statics_of 0 three_subqueues) = None) by reflexivity.
  assert (H3 : Forall (reachable 0%Z) (_q (object three_subqueues)))
    by repeat constructor.
  assert (H4 : Forall (fun q => contents q = []) (_q (object three_subqueues)))
    by repeat constructor.
  assert (H5 := two_subqueues_reachable).
  assert (H6 : Forall (fun q => contents q = [])
                 (take (length (_q (object three_subqueues))) (_q (object two_subqueues))))
    by repeat constructor.
  split_and!; [done..|].
  destruct (hitlist_outlives_object (reachable 0%Z) contents 0%Z 0 three_subqueues
              (object two_subqueues) H1 H2 H3 H4 H5 H6)
    as (st1 & l1 & Hcall & Hsecond).
  by exists st1, l1.
Defined.

Lemma enqueued_9_reachable :
  Forall (reachable 0%Z) (_q (object (after (mp_enqueue rvalue 9%Z 5) three_subqueues))).
Proof.
  apply Forall_cons. split; [|repeat constructor].
  apply (exec_reachable 0%Z [op_mpEnqueue 9%Z] 0%Z (fresh 0%Z)
           (match exec 0%Z [op_mpEnqueue 9%Z] 0%Z (fresh 0%Z) with
            | Returns (h, _) => h
            | _ => []
            end)); [constructor|].
  vm_compute. reflexivity.
Qed.

Lemma indx_outlives_object_witness :
  fifo_subqueues (reachable 0%Z) contents /\
  get_indx mp_forward lvalue
    (statics_of 0 (after (mp_enqueue rvalue 9%Z 5) three_subqueues)) = None /\
  Forall (reachable 0%Z) (_q (object (after (mp_enqueue rvalue 9%Z 5) three_subqueues))) /\
  _q (object (after (mp_enqueue rvalue 9%Z 5) three_subqueues)) <> [] /\
  Forall (reachable 0%Z) (_q (object two_subqueues)) /\
  exists st1,
    enqueue_through mp_forward lvalue 1%Z 0 (after (mp_enqueue rvalue 9%Z 5) three_subqueues)
      = Returns (tt, st1, [called_mp_enqueue 1 1%Z]) /\
    exists st2,
      enqueue_through mp_forward lvalue 2%Z 0 (on_object (object two_subqueues) st1)
        = Returns (tt, st2, [called_mp_enqueue 1 2%Z]) /\
      _enqueue_indx (object st2) = 0%Z.
Proof.
  assert (H1 := MPMCQueue_fifo_subqueues 0%Z).
  assert (H2 : get_indx mp_forward lvalue
                 (statics_of 0 (after (mp_enqueue rvalue 9%Z 5) three_subqueues)) = None)
    by reflexivity.
  assert (H3 := enqueued_9_reachable).
  assert (H4 : _q (object (after (mp_enqueue rvalue 9%Z 5) three_subqueues)) <> [])
    by done.
  assert (H5 := two_subqueues_reachable).
  split_and!; [done..|].
  destruct (indx_outlives_object (reachable 0%Z) contents mp_forward lvalue 1%Z 2%Z 0
              (after (mp_enqueue rvalue 9%Z 5) three_subqueues) (object two_subqueues)
              H1 H2 H3 H4 H5)
    as (i & st1 & Hcall & Hi & Hsecond).
  vm_compute in Hi. subst i. exists st1. split; [exact Hcall|]. exact Hsecond.
Defined.

(** * Any calls, one at a time *)

Section Conservation.

Context {T Q : Type} `{!list_queue.members T Q}.
Context (wf : Q -> Prop) (holds : Q -> list T).

Implicit Types (st : program Q) (l : list (subcall T)).

#[local] Arguments hit_update : simpl never.

(** The state fits its object: the subqueues satisfy [wf] and the
    thread-local variables of every thread fit their number. *)
Lemma fitting_uninitialised N : fitting N uninitialised.
Proof. split_and!; [by intros [] []|done|done]. Qed.

Lemma fitting_set_indx N f c i x :
  fitting N x -> i < N -> fitting N (set_indx f c i x).
Proof.
  intros (Hi & Hsc & Hmc) Hlt. split_and!.
  - intros f' c' i' Hget. destruct f, c, f', c'; cbn in Hget; simplify_eq; try done;
      first [ by apply (Hi sp_forward lvalue) | by apply (Hi sp_forward rvalue)
            | by apply (Hi mp_forward lvalue) | by apply (Hi mp_forward rvalue) ].
  - by destruct f, c.
  - by destruct f, c.
Qed.

Lemma fitting_set_sc_hitlist N h x :
  fitting N x -> h ≡ₚ seq 0 N -> fitting N (set_sc_hitlist h x).
Proof.
  intros (Hi & Hsc & Hmc) Hp. split_and!.
  - intros f c i. specialize (Hi f c i). by destruct f, c.
  - intros h' Hh. cbn in Hh. by simplify_eq.
  - done.
Qed.

Lemma fitting_set_mc_hitlist N h x :
  fitting N x -> h ≡ₚ seq 0 N -> fitting N (set_mc_hitlist h x).
Proof.
  intros (Hi & Hsc & Hmc) Hp. split_and!.
  - intros f c i. specialize (Hi f c i). by destruct f, c.
  - done.
  - intros h' Hh. cbn in Hh. by simplify_eq.
Qed.

Lemma statics_of_insert_ne t t' x (o : multiqueue Q) (m : gmap nat statics) :
  t <> t' -> statics_of t' (mkProgram o (<[t := x]> m)) = statics_of t' (mkProgram o m).
Proof. intros. unfold statics_of. simpl. by rewrite lookup_insert_ne. Qed.

Lemma static_hitlist_effect t field upd st :
  (forall h x, field (upd h x) = Some h) ->
  (forall h x, field x = Some h -> upd h x = x) ->
  exists st1,
    static_hitlist (T:=T) t field upd st = Returns (current_hitlist field t st, st1, []) /\
    object st1 = object st /\
    statics_of t st1 = upd (current_hitlist field t st) (statics_of t st) /\
    (forall t', t' <> t -> statics_of t' st1 = statics_of t' st).
Proof.
  intros Hupd Hid.
  unfold static_hitlist, current_hitlist, bind, read_static.
  destruct (field (statics_of t st)) as [h|] eqn:Hf; cbn.
  - exists st. split_and!; try done. symmetry. by apply Hid.
  - eexists. split_and!; [reflexivity|done|apply statics_of_insert|].
    intros t' Hne. destruct st as [o m]. by apply statics_of_insert_ne.
Qed.

Lemma concat_insert_snoc (L : list (list T)) i vs v :
  L !! i = Some vs -> concat (<[i := vs ++ [v]]> L) ≡ₚ concat L ++ [v].
Proof.
  intros Hi. rewrite <- (take_drop_middle L i vs Hi) at 2.
  rewrite insert_take_drop by (by eapply lookup_lt_Some).
  rewrite !concat_app. cbn. rewrite <- !app_assoc.
  apply Permutation_app_head. apply Permutation_app_head.
  by rewrite Permutation_app_comm.
Qed.

Lemma concat_insert_front (L : list (list T)) i vs v :
  L !! i = Some (v :: vs) -> v :: concat (<[i := vs]> L) ≡ₚ concat L.
Proof.
  intros Hi. rewrite <- (take_drop_middle L i (v :: vs) Hi) at 2.
  rewrite insert_take_drop by (by eapply lookup_lt_Some).
  rewrite !concat_app. cbn. by rewrite Permutation_middle.
Qed.

Lemma hitlist_fits N field t st :
  length (_q (object st)) = N ->
  (forall h, field (statics_of t st) = Some h -> h ≡ₚ seq 0 N) ->
  current_hitlist field t st ≡ₚ seq 0 (length (_q (object st))).
Proof.
  intros HN Hfit. unfold current_hitlist.
  destruct (field (statics_of t st)) as [h|]; cbn; [|done].
  rewrite HN. by apply Hfit.
Qed.

(** *** What each call does to the state *)

Lemma sc_dequeue_effect (output : T) (t : nat) st N :
  fifo_subqueues wf holds ->
  Forall wf (_q (object st)) ->
  length (_q (object st)) = N ->
  (forall t', fitting N (statics_of t' st)) ->
  exists b output' st' l,
    sc_dequeue output t st = Returns ((b, output'), st', l) /\
    Forall wf (_q (object st')) /\
    length (_q (object st')) = N /\
    (forall t', fitting N (statics_of t' st')) /\
    if b then
      exists i vs, shards holds st !! i = Some (output' :: vs) /\
                   shards holds st' = <[i := vs]> (shards holds st)
    else shards holds st' = shards holds st.
Proof.
  intros Hfifo Hwf HN Hfit.
  assert (Hperm : current_hitlist sc_hitlist t st ≡ₚ seq 0 (length (_q (object st)))).
  { eapply hitlist_fits; [done|]. apply Hfit. }
  set (h := current_hitlist sc_hitlist t st) in *.
  destruct (static_hitlist_effect t sc_hitlist set_sc_hitlist st)
    as (st1 & Hsh & Ho1 & Ht1 & Hother1); [done|by intros ? []; cbn; intros; simplify_eq|].
  fold h in Hsh, Ht1.
  destruct (scan_fifo wf holds list_queue.sc_dequeue (fun i r => called_sc_dequeue i r.1 r.2)
              h 0 h output st1 Hfifo)
    as (b & output' & h' & st2 & l & Hscan & Hwf2 & Hts & Hcnt & Hres).
  { set_solver. } { by rewrite Ho1. } { rewrite Ho1. by apply permutation_in_range. }
  assert (Hsh1 : shards holds st1 = shards holds st) by (unfold shards; by rewrite Ho1).
  assert (Hfit1 : forall t', fitting N (statics_of t' st1)).
  { intros t'. destruct (decide (t' = t)) as [->|Hne].
    - rewrite Ht1. apply fitting_set_sc_hitlist; [done|]. by rewrite <- HN.
    - by rewrite Hother1. }
  unfold sc_dequeue, bind. rewrite Hsh. unfold sub_sc_dequeue. rewrite Hscan. cbn.
  destruct b; cbn.
  - destruct Hres as (k & i & vs & Hk & Hbefore & Hat & Hafter & -> & _).
    destruct (hit_moves_to_front h _ k i Hperm Hk) as [Hperm' Hfront].
    assert (Hlen : length (_q (object st2)) = N).
    { rewrite <- shards_length with (holds := holds), Hafter, length_insert.
      by rewrite Hsh1, shards_length. }
    eexists true, output', _, _. split; [reflexivity|]. cbn. split_and!; [done|done| |].
    + intros t'. destruct (decide (t' = t)) as [->|Hne].
      * rewrite statics_of_insert. apply fitting_set_sc_hitlist; [|by rewrite <- HN].
        unfold statics_of in *. rewrite Hts. apply Hfit1.
      * destruct st2 as [o2 m2]. rewrite statics_of_insert_ne by done.
        unfold statics_of in *. cbn in *. rewrite Hts. apply Hfit1.
    + exists i, vs. rewrite <- Hsh1. done.
  - destruct Hres as (-> & -> & Hall & -> & _).
    eexists false, output, _, _. split; [reflexivity|]. cbn.
    split_and!; [done|by rewrite Ho1|done|done].
Qed.

Lemma mc_dequeue_effect (output : T) (t : nat) st N :
  fifo_subqueues wf holds ->
  Forall wf (_q (object st)) ->
  length (_q (object st)) = N ->
  (forall t', fitting N (statics_of t' st)) ->
  exists b output' st' l,
    mc_dequeue output t st = Returns ((b, output'), st', l) /\
    Forall wf (_q (object st')) /\
    length (_q (object st')) = N /\
    (forall t', fitting N (statics_of t' st')) /\
    if b then
      exists i vs, shards holds st !! i = Some (output' :: vs) /\
                   shards holds st' = <[i := vs]> (shards holds st)
    else shards holds st' = shards holds st.
Proof.
  intros Hfifo Hwf HN Hfit.
  assert (Hperm : current_hitlist mc_hitlist t st ≡ₚ seq 0 (length (_q (object st)))).
  { eapply hitlist_fits; [done|]. apply Hfit. }
  set (h := current_hitlist mc_hitlist t st) in *.
  destruct (static_hitlist_effect t mc_hitlist set_mc_hitlist st)
    as (st1 & Hsh & Ho1 & Ht1 & Hother1); [done|by intros ? []; cbn; intros; simplify_eq|].
  fold h in Hsh, Ht1.
  assert (Hwf1 : Forall wf (_q (object st1))) by by rewrite Ho1.
  assert (Hin1 : Forall (fun i => i < length (_q (object st1))) h).
  { rewrite Ho1. by apply permutation_in_range. }
  assert (Hsh1 : shards holds st1 = shards holds st) by (unfold shards; by rewrite Ho1).
  assert (Hfit1 : forall t', fitting N (statics_of t' st1)).
  { intros t'. destruct (decide (t' = t)) as [->|Hne].
    - rewrite Ht1. apply fitting_set_mc_hitlist; [done|]. by rewrite <- HN.
    - by rewrite Hother1. }
  assert (Hhit : forall output' st2 (k : nat),
    (exists i vs,
       h !! k = Some i /\ shards holds st1 !! i = Some (output' :: vs) /\
       shards holds st2 = <[i := vs]> (shards holds st1)) ->
    Forall wf (_q (object st2)) -> thread_statics st2 = thread_statics st1 ->
    exists st' l,
      bind (write_static t (set_mc_hitlist (hit_update (0 + k) h))) (fun _ => ret (true, output'))
           st2 = Returns ((true, output'), st', l) /\
      Forall wf (_q (object st')) /\
      length (_q (object st')) = N /\
      (forall t', fitting N (statics_of t' st')) /\
      exists i vs, shards holds st !! i = Some (output' :: vs) /\
                   shards holds st' = <[i := vs]> (shards holds st)).
  { intros output' st2 k (i & vs & Hk & Hat & Hafter) Hwf2 Hts.
    destruct (hit_moves_to_front h _ k i Hperm Hk) as [Hperm' Hfront].
    assert (Hlen : length (_q (object st2)) = N).
    { rewrite <- shards_length with (holds := holds), Hafter, length_insert.
      by rewrite Hsh1, shards_length. }
    eexists _, _. split; [reflexivity|]. cbn. split_and!; [done|done| |].
    - intros t'. destruct (decide (t' = t)) as [->|Hne].
      + rewrite statics_of_insert. apply fitting_set_mc_hitlist; [|by rewrite <- HN].
        unfold statics_of in *. rewrite Hts. apply Hfit1.
      + destruct st2 as [o2 m2]. rewrite statics_of_insert_ne by done.
        unfold statics_of in *. cbn in *. rewrite Hts. apply Hfit1.
    - exists i, vs. rewrite <- Hsh1. done. }
  destruct (scan_fifo wf holds list_queue.mc_dequeue_light
              (fun i r => called_mc_dequeue_light i r.1 r.2) h 0 h output st1 Hfifo)
    as (b & output' & h' & st2 & l & Hscan & Hwf2 & Hts & Hcnt & Hres);
    [set_solver|done|done|].
  unfold mc_dequeue, bind at 1 2. rewrite Hsh. unfold sub_mc_dequeue_light. rewrite Hscan.
  cbn [fst snd].
  destruct b.
  - destruct Hres as (k & i & vs & Hk & _ & Hat & Hafter & -> & _).
    destruct (Hhit output' st2 k) as (st' & l' & Hw & Hrest); [by eauto|done|done|].
    rewrite Hw. by eexists true, output', st', _.
  - destruct Hres as (-> & -> & Hall & -> & _).
    destruct (scan_fifo wf holds list_queue.mc_dequeue
                (fun i r => called_mc_dequeue i r.1 r.2) h 0 h output st1 Hfifo)
      as (b & output' & h' & st2 & l2 & Hscan2 & Hwf2' & Hts2 & Hcnt2 & Hres2);
      [set_solver|done|done|].
    unfold bind at 1. unfold sub_mc_dequeue. rewrite Hscan2. cbn [fst snd].
    destruct b.
    + destruct Hres2 as (k & i & vs & Hk & _ & Hat & Hafter & -> & _).
      destruct (Hhit output' st2 k) as (st' & l' & Hw & Hrest); [by eauto|done|done|].
      rewrite Hw. by eexists true, output', st', _.
    + destruct Hres2 as (-> & -> & _ & -> & _).
      eexists false, output, _, _. split; [reflexivity|].
      split_and!; [done|by rewrite Ho1|done|done].
Qed.

Lemma enqueue_through_effect (f : forwarder) (c : value_category) (input : T) (t : nat) st N :
  fifo_subqueues wf holds ->
  Forall wf (_q (object st)) ->
  length (_q (object st)) = N -> 0 < N ->
  (forall t', fitting N (statics_of t' st)) ->
  exists st' l,
    enqueue_through f c input t st = Returns (tt, st', l) /\
    Forall wf (_q (object st')) /\
    length (_q (object st')) = N /\
    (forall t', fitting N (statics_of t' st')) /\
    exists i vs, shards holds st !! i = Some vs /\
                 shards holds st' = <[i := vs ++ [input]]> (shards holds st).
Proof.
  intros Hfifo Hwf HN Hpos Hfit.
  assert (Hne : _q (object st) <> []) by (destruct (_q (object st)); [simpl in *; lia|done]).
  assert (Hkeep : forall st0 i vs,
    Forall wf (_q (object st0)) -> length (_q (object st0)) = N ->
    (forall t', fitting N (statics_of t' st0)) ->
    shards holds st0 = shards holds st ->
    shards holds st !! i = Some vs ->
    exists st' l,
      sub_mp_enqueue i input st0 = Returns (tt, st', l) /\
      Forall wf (_q (object st')) /\
      length (_q (object st')) = N /\
      (forall t', fitting N (statics_of t' st')) /\
      exists i vs, shards holds st !! i = Some vs /\
                   shards holds st' = <[i := vs ++ [input]]> (shards holds st)).
  { intros st0 i vs Hwf0 HN0 Hfit0 Hsh0 Hvs.
    destruct (sub_mp_enqueue_appends wf holds i input st0 vs Hfifo Hwf0)
      as (st' & Hcall & Hsh & Hwf' & Hts & _); [by rewrite Hsh0|].
    eexists st', _. split; [exact Hcall|]. split_and!; [done| | |].
    - rewrite <- shards_length with (holds := holds), Hsh, length_insert.
      by rewrite shards_length.
    - intros t'. unfold statics_of. rewrite Hts. apply Hfit0.
    - exists i, vs. by rewrite Hsh, Hsh0. }
  destruct (get_indx f c (statics_of t st)) as [i|] eqn:Hget.
  - rewrite (enqueue_through_cached _ _ _ _ _ _ Hget).
    assert (Hi : i < N) by (by eapply (proj1 (Hfit t))).
    destruct (lookup_lt_is_Some_2 (shards holds st) i) as [vs Hvs];
      [by rewrite shards_length, HN|].
    by eapply Hkeep.
  - rewrite (enqueue_through_first _ _ _ _ _ Hget Hne).
    pose proof (first_indx_in_range st Hne) as Hi.
    set (i := Z.to_nat (_enqueue_indx (object st) mod Z.of_nat (length (_q (object st))))) in *.
    destruct (lookup_lt_is_Some_2 (shards holds st) i) as [vs Hvs];
      [by rewrite shards_length|].
    eapply Hkeep; [done|done| |done|exact Hvs].
    intros t'. destruct (decide (t' = t)) as [->|Hne'].
    + rewrite statics_of_insert. apply fitting_set_indx; [done|lia].
    + rewrite statics_of_insert_ne by done. destruct st as [[q n] m]. apply Hfit.
Qed.

Lemma enqueue_at_effect (input : T) (index : nat) st N :
  fifo_subqueues wf holds ->
  Forall wf (_q (object st)) ->
  length (_q (object st)) = N -> index < N ->
  (forall t', fitting N (statics_of t' st)) ->
  exists st' l,
    sub_mp_enqueue index input st = Returns (tt, st', l) /\
    Forall wf (_q (object st')) /\
    length (_q (object st')) = N /\
    (forall t', fitting N (statics_of t' st')) /\
    exists i vs, shards holds st !! i = Some vs /\
                 shards holds st' = <[i := vs ++ [input]]> (shards holds st).
Proof.
  intros Hfifo Hwf HN Hi Hfit.
  destruct (lookup_lt_is_Some_2 (shards holds st) index) as [vs Hvs];
    [by rewrite shards_length, HN|].
  destruct (sub_mp_enqueue_appends wf holds index input st vs Hfifo Hwf Hvs)
    as (st' & Hcall & Hsh & Hwf' & Hts & _).
  eexists st', _. split; [exact Hcall|]. split_and!; [done| | |].
  - rewrite <- shards_length with (holds := holds), Hsh, length_insert.
    by rewrite shards_length.
  - intros t'. unfold statics_of. rewrite Hts. apply Hfit.
  - by exists index, vs.
Qed.

Lemma dequeue_at_effect (dequeue : T -> Q -> outcome (bool * T * Q))
    (mk : bool * T -> subcall T) (output : T) (index : nat) st N :
  fifo_subqueues wf holds ->
  dequeue ∈ [list_queue.sc_dequeue; list_queue.mc_dequeue; list_queue.mc_dequeue_light] ->
  Forall wf (_q (object st)) ->
  length (_q (object st)) = N -> index < N ->
  (forall t', fitting N (statics_of t' st)) ->
  exists b output' st' l,
    on_subqueue index (dequeue output) mk st = Returns ((b, output'), st', l) /\
    Forall wf (_q (object st')) /\
    length (_q (object st')) = N /\
    (forall t', fitting N (statics_of t' st')) /\
    if b then
      exists i vs, shards holds st !! i = Some (output' :: vs) /\
                   shards holds st' = <[i := vs]> (shards holds st)
    else shards holds st' = shards holds st.
Proof.
  intros Hfifo Hdeq Hwf HN Hi Hfit.
  destruct (lookup_lt_is_Some_2 (_q (object st)) index) as [q Hq]; [lia|].
  pose proof (proj1 (Forall_lookup _ _) Hwf _ _ Hq) as Hwfq.
  destruct (Hfifo q Hwfq) as [_ Hd]. specialize (Hd dequeue output Hdeq).
  destruct (holds q) as [|v vs] eqn:Hholds.
  - eexists false, output, st, _. split; [by apply on_subqueue_miss with (q := q)|].
    by split_and!.
  - destruct Hd as (q' & Hd & Hwfq' & Hq').
    eexists true, v, _, _. split.
    { unfold on_subqueue. rewrite Hq, Hd. reflexivity. }
    cbn. split_and!.
    + by apply Forall_insert.
    + by rewrite length_insert.
    + intros t'. apply Hfit.
    + exists index, vs. split.
      * rewrite (shards_lookup holds _ _ _ Hq). by rewrite Hholds.
      * unfold shards. cbn. by rewrite list_fmap_insert, Hq'.
Qed.

(** One call, of any public member function. *)
Lemma perform_effect (c : public_call T) st N :
  fifo_subqueues wf holds ->
  Forall wf (_q (object st)) ->
  length (_q (object st)) = N -> 0 < N ->
  (forall t', fitting N (statics_of t' st)) ->
  (forall i, named_index c = Some i -> i < N) ->
  exists r st' l,
    perform c st = Returns (r, st', l) /\
    Forall wf (_q (object st')) /\
    length (_q (object st')) = N /\
    (forall t', fitting N (statics_of t' st')) /\
    from_option (fun v => [v]) [] (taken r) ++ concat (shards holds st')
    ≡ₚ concat (shards holds st) ++ from_option (fun v => [v]) [] (passed c).
Proof.
  intros Hfifo Hwf HN Hpos Hfit Hidx.
  assert (Henq : forall (m : M unit) input,
    (exists st' l,
       m st = Returns (tt, st', l) /\
       Forall wf (_q (object st')) /\
       length (_q (object st')) = N /\
       (forall t', fitting N (statics_of t' st')) /\
       exists i vs, shards holds st !! i = Some vs /\
                    shards holds st' = <[i := vs ++ [input]]> (shards holds st)) ->
    exists r st' l,
      bind m (fun _ => ret None) st = Returns (r, st', l) /\
      Forall wf (_q (object st')) /\
      length (_q (object st')) = N /\
      (forall t', fitting N (statics_of t' st')) /\
      from_option (fun v => [v]) [] (taken r) ++ concat (shards holds st')
      ≡ₚ concat (shards holds st) ++ [input]).
  { intros m input (st' & l & Hm & Hwf' & HN' & Hfit' & i & vs & Hvs & Hsh).
    exists None, st', (l ++ []). split; [unfold bind; by rewrite Hm|].
    split_and!; [done..|]. cbn. rewrite Hsh. by apply concat_insert_snoc. }
  assert (Hdeq : forall (m : M (bool * T)),
    (exists b output' st' l,
       m st = Returns ((b, output'), st', l) /\
       Forall wf (_q (object st')) /\
       length (_q (object st')) = N /\
       (forall t', fitting N (statics_of t' st')) /\
       if b then
         exists i vs, shards holds st !! i = Some (output' :: vs) /\
                      shards holds st' = <[i := vs]> (shards holds st)
       else shards holds st' = shards holds st) ->
    exists r st' l,
      bind m (fun r => ret (Some r)) st = Returns (r, st', l) /\
      Forall wf (_q (object st')) /\
      length (_q (object st')) = N /\
      (forall t', fitting N (statics_of t' st')) /\
      from_option (fun v => [v]) [] (taken r) ++ concat (shards holds st')
      ≡ₚ concat (shards holds st) ++ []).
  { intros m (b & output' & st' & l & Hm & Hwf' & HN' & Hfit' & Hres).
    exists (Some (b, output')), st', (l ++ []). split; [unfold bind; by rewrite Hm|].
    split_and!; [done..|]. rewrite app_nil_r. destruct b; cbn.
    - destruct Hres as (i & vs & Hat & ->). by apply concat_insert_front.
    - by rewrite Hres. }
  destruct c as [c input t|c input index t|c input t|c input index t
                |output t|output index|output t|output index]; cbn [perform passed from_option].
  - apply Henq. by apply (enqueue_through_effect sp_forward).
  - apply Henq. apply enqueue_at_effect; try done. by apply Hidx.
  - apply Henq. by apply (enqueue_through_effect mp_forward).
  - apply Henq. apply enqueue_at_effect; try done. by apply Hidx.
  - apply Hdeq. by apply sc_dequeue_effect.
  - apply Hdeq. apply dequeue_at_effect; try done; [set_solver|by apply Hidx].
  - apply Hdeq. by apply mc_dequeue_effect.
  - apply Hdeq. apply dequeue_at_effect; try done; [set_solver|by apply Hidx].
Qed.

(** X20 (conservation in the sharded queue).  The sharded queue loses
    nothing and makes nothing up, when the threads that use it bring no
    thread-local variable that does not fit it.  Take a queue of [N >= 1]
    subqueues that are queues, and threads whose [indx] and hitlist
    variables each are uninitialised or fit [N]: an [indx] is below [N], a
    hitlist is a permutation of [0, N).  Whatever calls of the public
    member functions these threads make, one call at a time and with every
    index named below [N], each call returns; the values the dequeues have
    taken together with the values the subqueues hold afterwards are, as
    multisets, the values the subqueues held before together with the
    values passed to the enqueues; and the queue still has its [N]
    subqueues and the threads' variables still fit. *)
Theorem sharded_queue_conserves (N : nat) (cs : list (public_call T)) st :
  fifo_subqueues wf holds ->
  Forall wf (_q (object st)) ->
  length (_q (object st)) = N ->
  0 < N ->
  (forall t, fitting N (statics_of t st)) ->
  Forall (fun c => forall i, named_index c = Some i -> i < N) cs ->
  exists rs st' l,
    perform_all cs st = Returns (rs, st', l) /\
    length rs = length cs /\
    omap taken rs ++ concat (shards holds st')
    ≡ₚ concat (shards holds st) ++ omap passed cs /\
    Forall wf (_q (object st')) /\
    length (_q (object st')) = N /\
    (forall t, fitting N (statics_of t st')).
Proof.
  intros Hfifo Hwf HN Hpos Hfit Hidx. revert st Hwf HN Hfit.
  induction cs as [|c cs IH]; intros st Hwf HN Hfit.
  - exists [], st, []. split_and!; try done. cbn. by rewrite app_nil_r.
  - apply Forall_cons_1 in Hidx as [Hc Hidx].
    destruct (perform_effect c st N) as (r & st1 & l1 & Hp & Hwf1 & HN1 & Hfit1 & Hperm1);
      try done.
    destruct (IH Hidx st1) as (rs & st2 & l2 & Hps & Hlen & Hperm2 & Hwf2 & HN2 & Hfit2);
      try done.
    exists (r :: rs), st2, (l1 ++ l2 ++ []). split_and!; try done.
    + cbn [perform_all]. unfold bind at 1. rewrite Hp. unfold bind at 1. by rewrite Hps.
    + cbn. by rewrite Hlen.
    + assert (Hr : omap taken (r :: rs)
                   = from_option (fun v => [v]) [] (taken r) ++ omap taken rs)
        by (cbn; by destruct (taken r)).
      assert (Hcc : omap passed (c :: cs)
                    = from_option (fun v => [v]) [] (passed c) ++ omap passed cs)
        by (cbn; by destruct (passed c)).
      rewrite Hr, Hcc, <- app_assoc, Hperm2.
      rewrite !app_assoc. apply Permutation_app_tail. exact Hperm1.
Qed.

End Conservation.

(** The one thread of [warmed_up] that has thread-local variables is
    thread 1, whose [sc_dequeue] hitlist is 1, 0, 2. *)
Lemma warmed_up_fitting t : fitting 3 (statics_of t warmed_up).
Proof.
  assert (Hts : thread_statics warmed_up
                = {[ 1 := mkStatics None None None None (Some [1; 0; 2]) None ]})
    by (vm_compute; reflexivity).
  unfold statics_of. rewrite Hts.
  destruct (decide (t = 1)) as [->|Hne].
  - rewrite lookup_singleton_eq. cbn. split_and!.
    + intros f c i Hi. destruct f, c; cbn in Hi; discriminate.
    + intros h Hh. cbn in Hh. simplify_eq. cbn. apply perm_swap.
    + intros h Hh. cbn in Hh. discriminate.
  - rewrite lookup_singleton_ne by done. cbn. apply fitting_uninitialised.
Qed.

Lemma sharded_queue_conserves_witness :
  fifo_subqueues (reachable 0%Z) contents /\
  Forall (reachable 0%Z) (_q (object warmed_up)) /\
  length (_q (object warmed_up)) = 3 /\
  0 < 3 /\
  (forall t, fitting 3 (statics_of t warmed_up)) /\
  Forall (fun c => forall i, named_index c = Some i -> i < 3)
         [call_sp_enqueue lvalue 1%Z 0; call_mp_enqueue rvalue 2%Z 1;
          call_mp_enqueue_at lvalue 3%Z 1 0; call_sc_dequeue 0%Z 1;
          call_mc_dequeue 0%Z 3; call_mc_dequeue_at 0%Z 0] /\
  exists rs st' l,
    perform_all [call_sp_enqueue lvalue 1%Z 0; call_mp_enqueue rvalue 2%Z 1;
                 call_mp_enqueue_at lvalue 3%Z 1 0; call_sc_dequeue 0%Z 1;
                 call_mc_dequeue 0%Z 3; call_mc_dequeue_at 0%Z 0]
                warmed_up = Returns (rs, st', l) /\
    length rs = 6 /\
    omap taken rs ++ concat (shards contents st')
    ≡ₚ concat (shards contents warmed_up) ++ [1%Z; 2%Z; 3%Z] /\
    Forall (reachable 0%Z) (_q (object st')) /\
    length (_q (object st')) = 3 /\
    (forall t, fitting 3 (statics_of t st')).
Proof.
  assert (H1 := MPMCQueue_fifo_subqueues 0%Z).
  assert (H2 := warmed_up_reachable).
  assert (H3 : length (_q (object warmed_up)) = 3) by reflexivity.
  assert (H4 : 0 < 3) by lia.
  assert (H5 := warmed_up_fitting).
  assert (H6 : Forall (fun c : public_call Z => forall i, named_index c = Some i -> i < 3)
                 [call_sp_enqueue lvalue 1%Z 0; call_mp_enqueue rvalue 2%Z 1;
                  call_mp_enqueue_at lvalue 3%Z 1 0; call_sc_dequeue 0%Z 1;
                  call_mc_dequeue 0%Z 3; call_mc_dequeue_at 0%Z 0]).
  { repeat (apply Forall_cons; split; [intros i Hi; cbn in Hi; simplify_eq; lia|]).
    constructor. }
  split_and!; [done..|].
  apply (sharded_queue_conserves (reachable 0%Z) contents 3 _ warmed_up H1 H2 H3 H4 H5 H6).
Defined.

(** Six calls on a new queue of two subqueues, by threads that have made
    no call before: 1 goes to subqueue 0, 2 and 3 to subqueue 1; the
    dequeues return 1, 2 and then, on subqueue 0 by index, nothing,
    although subqueue 1 holds 3. *)
Example calls_on_two_subqueues :
  exists st l,
    perform_all [call_sp_enqueue lvalue 1%Z 0; call_mp_enqueue rvalue 2%Z 1;
                 call_mp_enqueue_at lvalue 3%Z 1 0; call_sc_dequeue 0%Z 2;
                 call_mc_dequeue 0%Z 3; call_mc_dequeue_at 0%Z 0]
                two_subqueues
    = Returns ([None; None; None; Some (true, 1%Z); Some (true, 2%Z); Some (false, 0%Z)],
               st, l) /\
    shards contents st = [[]; [3%Z]].
Proof. eexists _, _. split; vm_compute; reflexivity. Qed.
